(** * Dots and Boxes: the shared rules engine and the computer opponent

    A shallow embedding of [shared/src/gameLogic.ts] (edge model, box
    model, the [applyMove] state machine, the move enumerator) and of the
    three strategies of the [useAI] hook (random, greedy, minimax with
    alpha-beta pruning), followed by the properties of the specification
    that concern them.  The hook itself and its caller, the edge lookup
    of the board component, and the rate limiter, the room manager and
    the move handler of the server are embedded as well, with the
    properties their code shows.

    Conventions of the embedding.
    - A JavaScript number is a [num]: an exact integer, one of the two
      infinities, or NaN.  Fractions occur only in untrusted move input,
      where [Number.isInteger] rejects them; they are the [VOther] case of
      [value].
    - An array of numbers is a [list (option num)]: [None] is an empty slot
      (it reads as [undefined]).  Slots appear only when a score is
      incremented past the end of the array.
    - [Set<string>] is [gset string], [Record<BoxKey, PlayerIndex>] is
      [gmap string num]; template strings are built with [pretty], which
      prints an integer in decimal with a leading minus sign.
    - [gridSize] and [maxPlayers] are integers. *)

From Stdlib Require Import Ascii.
From stdpp Require Import base numbers list strings pretty gmap sorting.

Local Open Scope Z_scope.
#[local] Set Warnings "-clear-no-such-hyp".

(** ** JavaScript numbers *)

Inductive num : Type :=
  | Int (z : Z)
  | PosInf
  | NegInf
  | NaN.

Global Instance num_eq_dec : EqDecision num.
Proof. solve_decision. Defined.

Module Num.

(** [a === b] on numbers: NaN equals nothing. *)
Definition strictEq (a b : num) : bool :=
  match a, b with
  | Int x, Int y => bool_decide (x = y)
  | PosInf, PosInf => true
  | NegInf, NegInf => true
  | _, _ => false
  end.

(** [a < b]: false as soon as one side is NaN. *)
Definition lt (a b : num) : bool :=
  match a, b with
  | NaN, _ | _, NaN => false
  | Int x, Int y => bool_decide (x < y)
  | NegInf, NegInf => false
  | NegInf, _ => true
  | _, PosInf => match a with PosInf => false | _ => true end
  | _, _ => false
  end.

(** [a <= b]. *)
Definition le (a b : num) : bool :=
  match a, b with
  | NaN, _ | _, NaN => false
  | Int x, Int y => bool_decide (x <= y)
  | NegInf, _ => true
  | _, PosInf => true
  | _, _ => false
  end.

(** [a > b]. *)
Definition gt (a b : num) : bool := lt b a.

(** [Math.max(a, b)] and [Math.min(a, b)]: NaN is absorbing. *)
Definition max (a b : num) : num :=
  match a, b with
  | NaN, _ | _, NaN => NaN
  | _, _ => if lt a b then b else a
  end.

Definition min (a b : num) : num :=
  match a, b with
  | NaN, _ | _, NaN => NaN
  | _, _ => if lt b a then b else a
  end.

(** [a + b] and [a - b]. *)
Definition add (a b : num) : num :=
  match a, b with
  | NaN, _ | _, NaN => NaN
  | Int x, Int y => Int (x + y)
  | PosInf, NegInf | NegInf, PosInf => NaN
  | PosInf, _ | _, PosInf => PosInf
  | NegInf, _ | _, NegInf => NegInf
  end.

Definition neg (a : num) : num :=
  match a with
  | Int x => Int (- x)
  | PosInf => NegInf
  | NegInf => PosInf
  | NaN => NaN
  end.

Definition sub (a b : num) : num := add a (neg b).

(** [a % m] for an integer [m]: truncated remainder, NaN when [m] is zero
    or [a] is not finite. *)
Definition rem (a : num) (m : Z) : num :=
  match a with
  | Int x => if bool_decide (m = 0) then NaN else Int (Z.rem x m)
  | _ => NaN
  end.

(** [ToNumber] of an array slot or of the result of an index read:
    [undefined] becomes NaN. *)
Definition ofSlot (s : option num) : num := default NaN s.

End Num.

(** ** Types of [types.ts] *)

(** [Line = [number, number, number, number]], here with integer entries. *)
Definition Line : Type := Z * Z * Z * Z.

(** What a caller may hand to [applyMove] as a line: any value.  Only
    arrays matter, and of their entries only whether they are integers. *)
Inductive value : Type :=
  | VInt (z : Z)
  | VOther.

Inductive input : Type :=
  | Arr (vs : list value)
  | NotArr.

Definition ofLine (l : Line) : input :=
  let '(x1, y1, x2, y2) := l in Arr [VInt x1; VInt y1; VInt x2; VInt y2].

(** The destructuring [const [x1, y1, x2, y2] = line] of an array of four
    integers. *)
Definition asLine (line : input) : option Line :=
  match line with
  | Arr [VInt x1; VInt y1; VInt x2; VInt y2] => Some (x1, y1, x2, y2)
  | _ => None
  end.

Record GameState : Type := mkState {
  gridSize : Z;
  lines : list Line;
  lineSet : list string;
  boxes : gmap string num;
  scores : list (option num);
  currentPlayer : num;
  maxPlayers : Z;
  started : bool;
  gameOver : bool;
  winner : option Z;
}.

(** ** Constants of [constants.ts] *)

Definition MIN_GRID_SIZE : Z := 3.
Definition MAX_GRID_SIZE : Z := 10.
Definition MIN_PLAYERS : Z := 2.
Definition MAX_PLAYERS : Z := 4.

(** ** [gameLogic.ts] *)

Definition normalizeLine (line : Line) : Line :=
  let '(x1, y1, x2, y2) := line in
  if bool_decide (y1 < y2) || (bool_decide (y1 = y2) && bool_decide (x1 < x2))
  then (x1, y1, x2, y2)
  else (x2, y2, x1, y1).

Definition lineToKey (line : Line) : string :=
  let '(x1, y1, x2, y2) := normalizeLine line in
  pretty x1 +:+ "," +:+ pretty y1 +:+ "-" +:+ pretty x2 +:+ "," +:+ pretty y2.

Definition isSameLine (a b : Line) : bool :=
  bool_decide (lineToKey a = lineToKey b).

Definition isValidLine (line : input) (gridSize : Z) : bool :=
  match line with
  | Arr [v1; v2; v3; v4] =>
      match v1, v2, v3, v4 with
      | VInt x1, VInt y1, VInt x2, VInt y2 =>
          if bool_decide (x1 < 0) || bool_decide (x1 >= gridSize)
             || bool_decide (y1 < 0) || bool_decide (y1 >= gridSize)
          then false
          else if bool_decide (x2 < 0) || bool_decide (x2 >= gridSize)
                  || bool_decide (y2 < 0) || bool_decide (y2 >= gridSize)
          then false
          else
            let dx := Z.abs (x2 - x1) in
            let dy := Z.abs (y2 - y1) in
            if negb ((bool_decide (dx = 1) && bool_decide (dy = 0))
                     || (bool_decide (dx = 0) && bool_decide (dy = 1)))
            then false
            else true
      | _, _, _, _ => false
      end
  | _ => false
  end.

(** [Number.isInteger] holds of every [Z]. *)
Definition isValidGridSize (gridSize : Z) : bool :=
  bool_decide (gridSize >= MIN_GRID_SIZE) && bool_decide (gridSize <= MAX_GRID_SIZE).

Definition isValidPlayerCount (count : Z) : bool :=
  bool_decide (count >= MIN_PLAYERS) && bool_decide (count <= MAX_PLAYERS).

(** The template string of a box key in [findCompletedBoxes] and
    [mediumAI]. *)
Definition boxKey (x y : Z) : string := pretty x +:+ "," +:+ pretty y.

Definition isBoxComplete (x y : Z) (lineSet : gset string) : bool :=
  let top := lineToKey (x, y, x + 1, y) in
  let bottom := lineToKey (x, y + 1, x + 1, y + 1) in
  let left := lineToKey (x, y, x, y + 1) in
  let right := lineToKey (x + 1, y, x + 1, y + 1) in
  bool_decide (top ∈ lineSet) && bool_decide (bottom ∈ lineSet)
  && bool_decide (left ∈ lineSet) && bool_decide (right ∈ lineSet).

Definition findCompletedBoxes (line : Line) (gridSize : Z)
    (lineSet : gset string) : list string :=
  let '(x1, y1, x2, y2) := normalizeLine line in
  let isHorizontal := bool_decide (y1 = y2) in
  let isVertical := bool_decide (x1 = x2) in
  (if isVertical then
     let topY := Z.min y1 y2 in
     (if bool_decide (x1 > 0) && isBoxComplete (x1 - 1) topY lineSet
      then [boxKey (x1 - 1) topY] else [])
     ++ (if bool_decide (x1 < gridSize - 1) && isBoxComplete x1 topY lineSet
         then [boxKey x1 topY] else [])
   else [])
  ++ (if isHorizontal then
        let leftX := Z.min x1 x2 in
        (if bool_decide (y1 > 0) && isBoxComplete leftX (y1 - 1) lineSet
         then [boxKey leftX (y1 - 1)] else [])
        ++ (if bool_decide (y1 < gridSize - 1) && isBoxComplete leftX y1 lineSet
            then [boxKey leftX y1] else [])
      else []).

(** [Array(maxPlayers).fill(0)] raises a RangeError for a negative or
    fractional length, hence the [nat]. *)
Definition createInitialState (gridSize : Z) (maxPlayers : nat) : GameState :=
  {| gridSize := gridSize;
     lines := [];
     lineSet := [];
     boxes := ∅;
     scores := replicate maxPlayers (Some (Int 0));
     currentPlayer := Int 0;
     maxPlayers := Z.of_nat maxPlayers;
     started := false;
     gameOver := false;
     winner := None |}.

Definition totalPossibleLines (gridSize : Z) : Z :=
  2 * gridSize * (gridSize - 1).

Definition isLineTaken (lineSet : list string) (line : Line) : bool :=
  bool_decide (lineToKey line ∈ lineSet).

Definition isGameOver (state : GameState) : bool :=
  bool_decide (Z.of_nat (length (lines state)) >= totalPossibleLines (gridSize state)).

(** [Math.max(...scores)]: the spread reads an empty slot as [undefined],
    which [Math.max] converts to NaN; no argument at all gives -Infinity. *)
Definition mathMax (xs : list (option num)) : num :=
  foldr (λ s acc, Num.max (Num.ofSlot s) acc) NegInf xs.

(** [s === max] in the callbacks of [filter] and [indexOf], which both skip
    empty slots. *)
Definition slotIs (max : num) (s : option num) : bool :=
  match s with
  | Some v => Num.strictEq v max
  | None => false
  end.

Fixpoint indexOfFrom (i : Z) (max : num) (xs : list (option num)) : Z :=
  match xs with
  | [] => -1
  | s :: rest => if slotIs max s then i else indexOfFrom (i + 1) max rest
  end.

Definition indexOf (max : num) (xs : list (option num)) : Z :=
  indexOfFrom 0 max xs.

Definition determineWinner (scores : list (option num)) : option Z :=
  let max := mathMax scores in
  let winners := List.filter (slotIs max) scores in
  if bool_decide (1 < length winners)%nat then None
  else Some (indexOf max scores).

(** [newScores[playerIndex]++].  Inside the array the slot is incremented
    (an empty slot becomes NaN); at or past the end the array grows, with
    empty slots up to the index and NaN at it; a negative or non-integer
    index names a property, not an element, and leaves the elements as they
    are. *)
Definition increment (s : option num) : option num :=
  Some (Num.add (Num.ofSlot s) (Int 1)).

Definition incrementAt (playerIndex : num) (scores : list (option num))
    : list (option num) :=
  match playerIndex with
  | Int i =>
      if bool_decide (i < 0) then scores
      else if bool_decide (i < Z.of_nat (length scores))
      then alter increment (Z.to_nat i) scores
      else scores ++ replicate (Z.to_nat i - length scores) None ++ [Some NaN]
  | _ => scores
  end.

(** One iteration of the loop over [completedBoxes]; the loop state is
    [(newBoxes, newScores, boxCompleted)]. *)
Definition claimBox (playerIndex : num)
    (acc : gmap string num * list (option num) * bool) (boxKey : string)
    : gmap string num * list (option num) * bool :=
  let '(newBoxes, newScores, boxCompleted) := acc in
  match newBoxes !! boxKey with
  | None => (<[boxKey := playerIndex]> newBoxes, incrementAt playerIndex newScores, true)
  | Some _ => acc
  end.

Definition applyMove (state : GameState) (line : input) (playerIndex : num)
    : option GameState :=
  if negb (isValidLine line (gridSize state)) then None
  else if gameOver state then None
  else if negb (Num.strictEq (currentPlayer state) playerIndex) then None
  else
    match asLine line with
    | None => None
    | Some l =>
        let normalized := normalizeLine l in
        let key := lineToKey normalized in
        let lineSetAsSet : gset string := list_to_set (lineSet state) in
        if bool_decide (key ∈ lineSetAsSet) then None
        else
          let newLines := lines state ++ [normalized] in
          let newLineSet := lineSet state ++ [key] in
          let lineSetAsSet := {[key]} ∪ lineSetAsSet in
          let completedBoxes :=
            findCompletedBoxes normalized (gridSize state) lineSetAsSet in
          let '(newBoxes, newScores, boxCompleted) :=
            foldl (claimBox playerIndex) (boxes state, scores state, false)
                  completedBoxes in
          let nextPlayer :=
            if boxCompleted then playerIndex
            else Num.rem (Num.add playerIndex (Int 1)) (maxPlayers state) in
          let totalLines := totalPossibleLines (gridSize state) in
          let gameOver := bool_decide (Z.of_nat (length newLines) >= totalLines) in
          let winner := if gameOver then determineWinner newScores else None in
          Some {| gridSize := gridSize state;
                  lines := newLines;
                  lineSet := newLineSet;
                  boxes := newBoxes;
                  scores := newScores;
                  currentPlayer := if gameOver then playerIndex else nextPlayer;
                  maxPlayers := maxPlayers state;
                  started := started state;
                  gameOver := gameOver;
                  winner := winner |}
    end.

(** The two nested loops of [getAvailableLines], horizontal edges first. *)
Definition getAvailableLines (state : GameState) : list Line :=
  let lineSet : gset string := list_to_set (lineSet state) in
  (y ← seqZ 0 (gridSize state);
   x ← seqZ 0 (gridSize state - 1);
   let line : Line := (x, y, x + 1, y) in
   if negb (bool_decide (lineToKey line ∈ lineSet)) then [line] else [])
  ++
  (y ← seqZ 0 (gridSize state - 1);
   x ← seqZ 0 (gridSize state);
   let line : Line := (x, y, x, y + 1) in
   if negb (bool_decide (lineToKey line ∈ lineSet)) then [line] else []).

Definition b2z (b : bool) : Z := if b then 1 else 0.

Definition countBoxSides (x y : Z) (lineSet : gset string) : Z :=
  b2z (bool_decide (lineToKey (x, y, x + 1, y) ∈ lineSet))
  + b2z (bool_decide (lineToKey (x, y + 1, x + 1, y + 1) ∈ lineSet))
  + b2z (bool_decide (lineToKey (x, y, x, y + 1) ∈ lineSet))
  + b2z (bool_decide (lineToKey (x + 1, y, x + 1, y + 1) ∈ lineSet)).

(** [state.started = b], which only the session layer and the tests
    assign; written as a copy. *)
Definition withStarted (b : bool) (state : GameState) : GameState :=
  {| gridSize := gridSize state;
     lines := lines state;
     lineSet := lineSet state;
     boxes := boxes state;
     scores := scores state;
     currentPlayer := currentPlayer state;
     maxPlayers := maxPlayers state;
     started := b;
     gameOver := gameOver state;
     winner := winner state |}.

(** ** [makeLocalMove] of the [useGameState] hook

    The caller of [applyMove] in local games: the result pairs the boolean
    it returns with the state the hook holds afterwards. *)
Definition makeLocalMove (state : GameState) (line : Line) (playerIndex : num)
    : bool * GameState :=
  let normalized := normalizeLine line in
  match applyMove state (ofLine normalized) playerIndex with
  | None => (false, state)
  | Some newState => (true, newState)
  end.

(** ** The [makeMove] handler of [socket/handlers.ts]

    The checks the transport layer runs on a move, after the rate limit and
    the room lookup, reduced to the room's game state: [playerIndex] is the
    result of [room.players.findIndex], so [-1] stands for a socket that is
    not in the room. *)

Inductive reason : Type :=
  | INVALID_LINE
  | GAME_NOT_STARTED
  | GAME_OVER
  | NOT_YOUR_TURN
  | LINE_TAKEN.

Definition makeMove (state : GameState) (line : input) (playerIndex : Z)
    : reason + GameState :=
  if negb (isValidLine line (gridSize state)) then inl INVALID_LINE
  else if negb (started state) then inl GAME_NOT_STARTED
  else if gameOver state then inl GAME_OVER
  else if bool_decide (playerIndex = -1) then inl NOT_YOUR_TURN
  else if negb (Num.strictEq (currentPlayer state) (Int playerIndex))
  then inl NOT_YOUR_TURN
  else
    match asLine line with
    | None => inl INVALID_LINE
    | Some l =>
        match applyMove state (ofLine (normalizeLine l)) (Int playerIndex) with
        | None => inl LINE_TAKEN
        | Some newState => inr newState
        end
    end.

(** ** The strategies of the [useAI] hook *)

(** [state.scores[i]]: [undefined] outside the array and on an empty slot. *)
Definition readAt (i : Z) (xs : list (option num)) : option num :=
  if bool_decide (i < 0) then None else mjoin (xs !! Z.to_nat i).

(** [scores.reduce((sum, s, i) => (i !== ai ? sum + s : sum), 0)], which
    does not visit empty slots. *)
Fixpoint sumOthersFrom (i : Z) (aiPlayerIndex : Z) (sum : num)
    (xs : list (option num)) : num :=
  match xs with
  | [] => sum
  | s :: rest =>
      let sum' :=
        match s with
        | None => sum
        | Some v => if bool_decide (i ≠ aiPlayerIndex) then Num.add sum v else sum
        end in
      sumOthersFrom (i + 1) aiPlayerIndex sum' rest
  end.

(** The leaf evaluation of [minimax], written twice in the source. *)
Definition evaluate (state : GameState) (aiPlayerIndex : Z) : num :=
  let aiScore := readAt aiPlayerIndex (scores state) in
  let opponentScore := sumOthersFrom 0 aiPlayerIndex (Int 0) (scores state) in
  Num.sub (Num.ofSlot aiScore) opponentScore.

Section Loops.

(** The recursive call [minimax(newState, depth - 1, alpha, beta,
    nextIsMax, aiPlayerIndex)] at a fixed [depth - 1]. *)
Variable recur : GameState → num → num → bool → num.
Variable state : GameState.
Variable aiPlayerIndex : Z.

Fixpoint maxLoop (available : list Line) (alpha beta maxEval : num) : num :=
  match available with
  | [] => maxEval
  | line :: rest =>
      match applyMove state (ofLine (normalizeLine line)) (currentPlayer state) with
      | None => maxLoop rest alpha beta maxEval
      | Some newState =>
          let nextIsMax :=
            Num.strictEq (currentPlayer newState) (Int aiPlayerIndex) in
          let eval_ := recur newState alpha beta nextIsMax in
          let maxEval := Num.max maxEval eval_ in
          let alpha := Num.max alpha eval_ in
          if Num.le beta alpha then maxEval
          else maxLoop rest alpha beta maxEval
      end
  end.

Fixpoint minLoop (available : list Line) (alpha beta minEval : num) : num :=
  match available with
  | [] => minEval
  | line :: rest =>
      match applyMove state (ofLine (normalizeLine line)) (currentPlayer state) with
      | None => minLoop rest alpha beta minEval
      | Some newState =>
          let nextIsMax :=
            Num.strictEq (currentPlayer newState) (Int aiPlayerIndex) in
          let eval_ := recur newState alpha beta nextIsMax in
          let minEval := Num.min minEval eval_ in
          let beta := Num.min beta eval_ in
          if Num.le beta alpha then minEval
          else minLoop rest alpha beta minEval
      end
  end.

End Loops.

(** [depth] is a natural number: [hardAI] starts it at [maxDepth - 1] with
    [maxDepth >= 1], and every call passes [depth - 1] from [depth <> 0]. *)
Fixpoint minimax (depth : nat) (state : GameState) (alpha beta : num)
    (isMaximizing : bool) (aiPlayerIndex : Z) {struct depth} : num :=
  match depth with
  | O => evaluate state aiPlayerIndex
  | S depth' =>
      if gameOver state then evaluate state aiPlayerIndex
      else
        let available := getAvailableLines state in
        if bool_decide (length available = 0%nat) then evaluate state aiPlayerIndex
        else
          let recur := λ st a b m, minimax depth' st a b m aiPlayerIndex in
          if isMaximizing || Num.strictEq (currentPlayer state) (Int aiPlayerIndex)
          then maxLoop recur state aiPlayerIndex available alpha beta NegInf
          else minLoop recur state aiPlayerIndex available alpha beta PosInf
  end.

Definition maxDepthOf (available : list Line) : nat :=
  if bool_decide (length available ≤ 12)%nat then length available else 6%nat.

(** One iteration of the root loop of [hardAI]; the loop state is
    [(bestScore, bestMove)]. *)
Definition considerMove (state : GameState) (maxDepth : nat) (aiPlayerIndex : Z)
    (best : num * option Line) (line : Line) : num * option Line :=
  match applyMove state (ofLine (normalizeLine line)) (currentPlayer state) with
  | None => best
  | Some newState =>
      let score := minimax (maxDepth - 1) newState NegInf PosInf false aiPlayerIndex in
      if Num.gt score (fst best) then (score, Some line) else best
  end.

Definition hardAI (state : GameState) (aiPlayerIndex : Z) : option Line :=
  let available := getAvailableLines state in
  if bool_decide (length available = 0%nat) then None
  else
    let maxDepth := maxDepthOf available in
    snd (foldl (considerMove state maxDepth aiPlayerIndex) (NegInf, None) available).

(** ** The search, with the leaves it evaluates

    [minimaxT] and [hardAIT] are [minimax] and [hardAI] with one addition:
    next to its result, each call returns the states at which the leaf
    evaluation was run, in the order of the calls.  The control flow, the
    pruning included, is that of the functions above. *)

Section TracedLoops.

Variable recur : GameState → num → num → bool → num * list GameState.
Variable state : GameState.
Variable aiPlayerIndex : Z.

Fixpoint maxLoopT (available : list Line) (alpha beta maxEval : num)
    (seen : list GameState) : num * list GameState :=
  match available with
  | [] => (maxEval, seen)
  | line :: rest =>
      match applyMove state (ofLine (normalizeLine line)) (currentPlayer state) with
      | None => maxLoopT rest alpha beta maxEval seen
      | Some newState =>
          let nextIsMax :=
            Num.strictEq (currentPlayer newState) (Int aiPlayerIndex) in
          let '(eval_, leaves) := recur newState alpha beta nextIsMax in
          let maxEval := Num.max maxEval eval_ in
          let alpha := Num.max alpha eval_ in
          if Num.le beta alpha then (maxEval, seen ++ leaves)
          else maxLoopT rest alpha beta maxEval (seen ++ leaves)
      end
  end.

Fixpoint minLoopT (available : list Line) (alpha beta minEval : num)
    (seen : list GameState) : num * list GameState :=
  match available with
  | [] => (minEval, seen)
  | line :: rest =>
      match applyMove state (ofLine (normalizeLine line)) (currentPlayer state) with
      | None => minLoopT rest alpha beta minEval seen
      | Some newState =>
          let nextIsMax :=
            Num.strictEq (currentPlayer newState) (Int aiPlayerIndex) in
          let '(eval_, leaves) := recur newState alpha beta nextIsMax in
          let minEval := Num.min minEval eval_ in
          let beta := Num.min beta eval_ in
          if Num.le beta alpha then (minEval, seen ++ leaves)
          else minLoopT rest alpha beta minEval (seen ++ leaves)
      end
  end.

End TracedLoops.

Fixpoint minimaxT (depth : nat) (state : GameState) (alpha beta : num)
    (isMaximizing : bool) (aiPlayerIndex : Z) {struct depth}
    : num * list GameState :=
  match depth with
  | O => (evaluate state aiPlayerIndex, [state])
  | S depth' =>
      if gameOver state then (evaluate state aiPlayerIndex, [state])
      else
        let available := getAvailableLines state in
        if bool_decide (length available = 0%nat)
        then (evaluate state aiPlayerIndex, [state])
        else
          let recur := λ st a b m, minimaxT depth' st a b m aiPlayerIndex in
          if isMaximizing || Num.strictEq (currentPlayer state) (Int aiPlayerIndex)
          then maxLoopT recur state aiPlayerIndex available alpha beta NegInf []
          else minLoopT recur state aiPlayerIndex available alpha beta PosInf []
  end.

Definition considerMoveT (state : GameState) (maxDepth : nat) (aiPlayerIndex : Z)
    (best : num * option Line * list GameState) (line : Line)
    : num * option Line * list GameState :=
  match applyMove state (ofLine (normalizeLine line)) (currentPlayer state) with
  | None => best
  | Some newState =>
      let '(score, leaves) :=
        minimaxT (maxDepth - 1) newState NegInf PosInf false aiPlayerIndex in
      let '(bestScore, bestMove, seen) := best in
      if Num.gt score bestScore then (score, Some line, seen ++ leaves)
      else (bestScore, bestMove, seen ++ leaves)
  end.

Definition hardAIT (state : GameState) (aiPlayerIndex : Z)
    : option Line * list GameState :=
  let available := getAvailableLines state in
  if bool_decide (length available = 0%nat) then (None, [])
  else
    let maxDepth := maxDepthOf available in
    let '(_, bestMove, seen) :=
      foldl (considerMoveT state maxDepth aiPlayerIndex) (NegInf, None, [])
            available in
    (bestMove, seen).

Section Random.

(** [Math.floor(Math.random() * n)], the only source of randomness: an
    index the environment picks for an array of [n] elements. *)
Variable randomIndex : nat → nat.

Definition easyAI (state : GameState) : option Line :=
  let available := getAvailableLines state in
  if bool_decide (length available = 0%nat) then None
  else available !! randomIndex (length available).

(** Priority 1 of [mediumAI]: does drawing [line] complete a box? *)
Definition completesBox (state : GameState) (lineSet : gset string)
    (line : Line) : bool :=
  let normalized := normalizeLine line in
  let key := lineToKey normalized in
  let testSet := {[key]} ∪ lineSet in
  let completed := findCompletedBoxes normalized (gridSize state) testSet in
  bool_decide (0 < length completed)%nat.

(** Priority 2 of [mediumAI]: the scan of all boxes for one with three
    sides and no owner once [line] is drawn. *)
Definition createsDanger (state : GameState) (lineSet : gset string)
    (line : Line) : bool :=
  let normalized := normalizeLine line in
  let key := lineToKey normalized in
  let testSet := {[key]} ∪ lineSet in
  existsb (λ y,
    existsb (λ x,
      let sides := countBoxSides x y testSet in
      bool_decide (sides = 3) && bool_decide (boxes state !! boxKey x y = None))
      (seqZ 0 (gridSize state - 1)))
    (seqZ 0 (gridSize state - 1)).

Definition mediumAI (state : GameState) : option Line :=
  let available := getAvailableLines state in
  if bool_decide (length available = 0%nat) then None
  else
    let lineSet : gset string := list_to_set (lineSet state) in
    match List.find (completesBox state lineSet) available with
    | Some line => Some line
    | None =>
        let safeMoves :=
          List.filter (λ line, negb (createsDanger state lineSet line)) available in
        if bool_decide (0 < length safeMoves)%nat
        then safeMoves !! randomIndex (length safeMoves)
        else available !! randomIndex (length available)
    end.

End Random.

(** ** The [useAI] hook and its caller *)

(** [AIDifficulty] of [constants.ts]. *)
Inductive AIDifficulty : Type :=
  | easy
  | medium
  | hard.

(** [computeMove]: the strategy the difficulty selects. *)
Definition computeMove (randomIndex : nat → nat) (difficulty : AIDifficulty)
    (state : GameState) (aiPlayerIndex : Z) : option Line :=
  match difficulty with
  | easy => easyAI randomIndex state
  | medium => mediumAI randomIndex state
  | hard => hardAI state aiPlayerIndex
  end.

(** The guard of the effect that schedules [computeMove]: the four early
    returns, in the order of the source. *)
Definition aiScheduled (enabled : bool) (state : GameState)
    (aiPlayerIndex : Z) : bool :=
  if negb enabled then false
  else if gameOver state then false
  else if negb (Num.strictEq (currentPlayer state) (Int aiPlayerIndex)) then false
  else if negb (started state) then false
  else true.

(** [aiMoveHandler] of the board: the [onMove] callback of the hook. *)
Definition aiMoveHandler (state : GameState) (line : Line) : bool * GameState :=
  let normalized := normalizeLine line in
  makeLocalMove state normalized (currentPlayer state).

(** [resetGame] of the [useGameState] hook. *)
Definition resetGame (newGridSize : Z) (newPlayerCount : nat) : GameState :=
  createInitialState newGridSize newPlayerCount.

(** ** The board component *)

Module Board.

(** The template string of the keys of [takenSet]. *)
Definition takenKey (l : Line) : string :=
  let '(l0, l1, l2, l3) := l in
  pretty l0 +:+ "," +:+ pretty l1 +:+ "," +:+ pretty l2 +:+ "," +:+ pretty l3.

Definition takenSet (lines : list Line) : gset string :=
  list_to_set (takenKey <$> lines).

Definition isLineTaken (takenSet : gset string) (line : Line) : bool :=
  let n := normalizeLine line in
  bool_decide (takenKey n ∈ takenSet).

Definition isLastLine (lastLine : option Line) (line : Line) : bool :=
  match lastLine with
  | None => false
  | Some lastLine => isSameLine (normalizeLine line) (normalizeLine lastLine)
  end.

End Board.

(** ** The rate limiter *)

Record RateBucket : Type := mkBucket {
  timestamps : list Z;
  windowMs : Z;
  maxEvents : Z;
}.

Definition RATE_LIMIT_MOVES_PER_SECOND : Z := 5.
Definition RATE_LIMIT_ROOMS_PER_MINUTE : Z := 2.

(** The bucket object is shared with the map, so [getBucket] returns the
    map with the bucket it may have created next to the bucket. *)
Definition getBucket (socketBuckets : gmap string (gmap string RateBucket))
    (socketId event : string)
    (maxEvents windowMs : Z) : RateBucket * gmap string (gmap string RateBucket) :=
  let eventMap := default ∅ (socketBuckets !! socketId) in
  let bucket :=
    default {| timestamps := []; windowMs := windowMs; maxEvents := maxEvents |}
            (eventMap !! event) in
  (bucket, <[socketId := <[event := bucket]> eventMap]> socketBuckets).

(** The [switch] of [checkRateLimit]: the limit and the window of an
    event, none for the events that are not limited. *)
Definition limitOf (event : string) : option (Z * Z) :=
  if bool_decide (event = "makeMove")
  then Some (RATE_LIMIT_MOVES_PER_SECOND, 1000)
  else if bool_decide (event = "createRoom")
  then Some (RATE_LIMIT_ROOMS_PER_MINUTE, 60000)
  else None.

(** [now] is the reading of [Date.now()]. *)
Definition checkRateLimit (socketBuckets : gmap string (gmap string RateBucket))
    (socketId event : string)
    (now : Z) : bool * gmap string (gmap string RateBucket) :=
  match limitOf event with
  | None => (true, socketBuckets)
  | Some (maxEvents', windowMs') =>
      let '(bucket, socketBuckets) :=
        getBucket socketBuckets socketId event maxEvents' windowMs' in
      let eventMap := default ∅ (socketBuckets !! socketId) in
      let kept :=
        List.filter (λ t, bool_decide (now - t < windowMs bucket))
                    (timestamps bucket) in
      if bool_decide (Z.of_nat (length kept) >= maxEvents bucket)
      then
        (false,
         <[socketId :=
             <[event := {| timestamps := kept; windowMs := windowMs bucket;
                           maxEvents := maxEvents bucket |}]> eventMap]>
           socketBuckets)
      else
        (true,
         <[socketId :=
             <[event := {| timestamps := kept ++ [now];
                           windowMs := windowMs bucket;
                           maxEvents := maxEvents bucket |}]> eventMap]>
           socketBuckets)
  end.

Definition cleanupRateLimit (socketBuckets : gmap string (gmap string RateBucket))
    (socketId : string)
    : gmap string (gmap string RateBucket) :=
  delete socketId socketBuckets.

(** ** The room manager and the session handlers *)

Module Session.

Record PlayerInfo : Type := mkPlayer {
  id : string;
  name : string;
  color : string;
  avatar : string;
}.

Record DisconnectedPlayer : Type := mkDisconnected {
  playerIndex : Z;
  playerInfo : PlayerInfo;
  disconnectedAt : Z;
}.

Record Room : Type := mkRoom {
  players : list PlayerInfo;
  state : GameState;
  creator : string;
  createdAt : Z;
  disconnectedPlayers : gmap string DisconnectedPlayer;
}.

Definition DEFAULT_GRID_SIZE : Z := 4.
Definition DEFAULT_PLAYERS : Z := 2.

(** [roomId] is the result of [uuidv4()], [now] the reading of
    [Date.now()]; a size that is not an integer fails [Number.isInteger]. *)
Definition createRoom (rooms : gmap string Room) (roomId : string) (now : Z)
    (gridSize maxPlayers : value) (creatorInfo : PlayerInfo)
    : gmap string Room * Room :=
  let validGridSize :=
    match gridSize with
    | VInt z => if isValidGridSize z then z else DEFAULT_GRID_SIZE
    | VOther => DEFAULT_GRID_SIZE
    end in
  let validMaxPlayers :=
    match maxPlayers with
    | VInt z => if isValidPlayerCount z then z else DEFAULT_PLAYERS
    | VOther => DEFAULT_PLAYERS
    end in
  let room :=
    {| players := [creatorInfo];
       state := createInitialState validGridSize (Z.to_nat validMaxPlayers);
       creator := id creatorInfo;
       createdAt := now;
       disconnectedPlayers := ∅ |} in
  (<[roomId := room]> rooms, room).

Inductive joinResult : Type :=
  | JoinOk (room : Room)
  | JoinError (error : string).

Definition joinRoom (rooms : gmap string Room) (roomId : string)
    (playerInfo : PlayerInfo) : gmap string Room * joinResult :=
  match rooms !! roomId with
  | None => (rooms, JoinError "Room not found.")
  | Some room =>
      if started (state room)
      then (rooms, JoinError "Game already in progress.")
      else if bool_decide (Z.of_nat (length (players room))
                           >= maxPlayers (state room))
      then (rooms, JoinError "Room is full.")
      else if existsb (λ p, bool_decide (id p = id playerInfo)) (players room)
      then (rooms, JoinOk room)
      else
        let room' :=
          {| players := players room ++ [playerInfo];
             state := state room;
             creator := creator room;
             createdAt := createdAt room;
             disconnectedPlayers := disconnectedPlayers room |} in
        (<[roomId := room']> rooms, JoinOk room')
  end.

(** The [startGame] handler, after the validation of the payload: the
    error code it emits, or the room with the game started. *)
Definition startGame (rooms : gmap string Room) (socketId roomId : string)
    : gmap string Room * option string :=
  match rooms !! roomId with
  | None => (rooms, Some "NOT_FOUND")
  | Some room =>
      if negb (bool_decide (creator room = socketId))
      then (rooms, Some "UNAUTHORIZED")
      else if bool_decide (length (players room) < 2)%nat
      then (rooms, Some "NOT_ENOUGH_PLAYERS")
      else
        (<[roomId :=
             {| players := players room;
                state := withStarted true (state room);
                creator := creator room;
                createdAt := createdAt room;
                disconnectedPlayers := disconnectedPlayers room |}]> rooms,
         None)
  end.

(** [room.players.findIndex(p => p.id === socket.id)]. *)
Fixpoint findIndexFrom (i : Z) (socketId : string) (ps : list PlayerInfo) : Z :=
  match ps with
  | [] => -1
  | p :: rest =>
      if bool_decide (id p = socketId) then i
      else findIndexFrom (i + 1) socketId rest
  end.

Definition findIndex (socketId : string) (ps : list PlayerInfo) : Z :=
  findIndexFrom 0 socketId ps.

(** The [makeMove] handler in its room: the seat of the socket, the checks
    of [makeMove], and [updateState] on success. *)
Definition roomMove (room : Room) (socketId : string) (line : input)
    : reason + Room :=
  let playerIndex := findIndex socketId (players room) in
  match makeMove (state room) line playerIndex with
  | inl r => inl r
  | inr newState =>
      inr {| players := players room;
             state := newState;
             creator := creator room;
             createdAt := createdAt room;
             disconnectedPlayers := disconnectedPlayers room |}
  end.

End Session.

(** * Vocabulary of the properties

    Enumerations, predicates and sample states the statements below are
    written with.  Nothing here is part of the program. *)

(** No separator of the key format occurs in the string. *)
Fixpoint plain (s : string) : Prop :=
  match s with
  | EmptyString => True
  | String c r => c ≠ ","%char ∧ c ≠ "-"%char ∧ plain r
  end.

(** All four coordinates are non-negative. *)
Definition onBoard (l : Line) : Prop :=
  let '(x1, y1, x2, y2) := l in 0 ≤ x1 ∧ 0 ≤ y1 ∧ 0 ≤ x2 ∧ 0 ≤ y2.

(** The edges of a [g] by [g] grid in the order of [getAvailableLines]:
    the horizontal ones row by row, then the vertical ones row by row. *)
Definition horizontals (g : Z) : list Line :=
  y ← seqZ 0 g; x ← seqZ 0 (g - 1); [(x, y, x + 1, y)].

Definition verticals (g : Z) : list Line :=
  y ← seqZ 0 (g - 1); x ← seqZ 0 g; [(x, y, x, y + 1)].

Definition allLines (g : Z) : list Line := horizontals g ++ verticals g.

(** [lineSet.has(lineToKey(line))] is false. *)
Definition isFree (state : GameState) (line : Line) : bool :=
  negb (bool_decide (lineToKey line ∈@{gset string} list_to_set (lineSet state))).

(** What [isValidLine] decides: four integers, both points on the grid,
    at distance one along one axis. *)
Definition validEdge (line : input) (g : Z) : Prop :=
  ∃ x1 y1 x2 y2,
    line = Arr [VInt x1; VInt y1; VInt x2; VInt y2]
    ∧ (0 ≤ x1 < g ∧ 0 ≤ y1 < g) ∧ (0 ≤ x2 < g ∧ 0 ≤ y2 < g)
    ∧ Z.abs (x2 - x1) + Z.abs (y2 - y1) = 1.

(** [completedBoxes] in [applyMove], for the normalized edge [nl]. *)
Definition completedBy (st : GameState) (nl : Line) : list string :=
  findCompletedBoxes nl (gridSize st)
    ({[lineToKey nl]} ∪ list_to_set (lineSet st)).

(** The state [applyMove] builds once its four checks have passed. *)
Definition successor (st : GameState) (nl : Line) (p : num) : GameState :=
  let '(newBoxes, newScores, boxCompleted) :=
    foldl (claimBox p) (boxes st, scores st, false) (completedBy st nl) in
  let over :=
    bool_decide (Z.of_nat (length (lines st ++ [nl]))
                 >= totalPossibleLines (gridSize st)) in
  {| gridSize := gridSize st;
     lines := lines st ++ [nl];
     lineSet := lineSet st ++ [lineToKey nl];
     boxes := newBoxes;
     scores := newScores;
     currentPlayer :=
       if over then p
       else if boxCompleted then p
       else Num.rem (Num.add p (Int 1)) (maxPlayers st);
     maxPlayers := maxPlayers st;
     started := started st;
     gameOver := over;
     winner := if over then determineWinner newScores else None |}.

(** The boxes a move newly claims: found complete, and without an owner. *)
Definition newlyCompleted (st : GameState) (nl : Line) : list string :=
  List.filter (λ k, bool_decide (boxes st !! k = None)) (completedBy st nl).

(** A score array without empty slots whose entries are the integers
    [zs], and the sum of such entries. *)
Definition ints (zs : list Z) : list (option num) := (λ z, Some (Int z)) <$> zs.

Definition total (zs : list Z) : Z := foldr Z.add 0 zs.

(** What every state of a game satisfies: the grid and the number of
    players are fixed, every player has an integer score and the scores
    add up to the number of owned boxes, the turn is some player's, the
    drawn keys are the keys of the drawn edges, each edge of the grid drawn
    at most once, and an owned box is a box of the grid with its four sides
    drawn. *)
Record wf (g : Z) (n : nat) (st : GameState) : Prop := {
  wf_gridSize : gridSize st = g;
  wf_maxPlayers : maxPlayers st = Z.of_nat n;
  wf_scores :
    ∃ zs, scores st = ints zs ∧ length zs = n
          ∧ total zs = Z.of_nat (size (boxes st));
  wf_current : ∃ c, currentPlayer st = Int c ∧ 0 ≤ c < Z.of_nat n;
  wf_lineSet : lineSet st = lineToKey <$> lines st;
  wf_nodup : NoDup (lineSet st);
  wf_lines : ∀ l, l ∈ lines st → l ∈ allLines g;
  wf_boxes :
    ∀ k, is_Some (boxes st !! k) →
         ∃ x y, k = boxKey x y ∧ 0 ≤ x < g - 1 ∧ 0 ≤ y < g - 1
                ∧ isBoxComplete x y (list_to_set (lineSet st)) = true;
}.

(** The states of a game on a [g] by [g] grid with [n] players: the
    initial one, those [applyMove] returns, and the same with the
    [started] flag set by the session layer. *)
Inductive reachable (g : Z) (n : nat) : GameState → Prop :=
  | reachable_init : reachable g n (createInitialState g n)
  | reachable_move st line p st' :
      reachable g n st → applyMove st line p = Some st' → reachable g n st'
  | reachable_start st b :
      reachable g n st → reachable g n (withStarted b st).

(** The four sides of the box at [(x, y)]. *)
Definition sides (x y : Z) : list Line :=
  [(x, y, x + 1, y); (x, y + 1, x + 1, y + 1);
   (x, y, x, y + 1); (x + 1, y, x + 1, y + 1)].

(** The four error classes of the specification, and when a move falls in
    one of them. *)
Inductive RejectReason : Type :=
  | GeometryInvalid
  | OutOfTurn
  | EdgeAlreadyDrawn
  | GameAlreadyOver.

Definition failsWith (st : GameState) (line : input) (p : num)
    (r : RejectReason) : Prop :=
  match r with
  | GeometryInvalid => ¬ validEdge line (gridSize st)
  | OutOfTurn => Num.strictEq (currentPlayer st) p = false
  | EdgeAlreadyDrawn => ∃ l, asLine line = Some l ∧ lineToKey l ∈ lineSet st
  | GameAlreadyOver => gameOver st = true
  end.

(** A board of nine dots for two players, the same board once the game is
    over, and its top-left horizontal edge. *)
Definition board3 : GameState := createInitialState 3 2.

Definition board3Over : GameState :=
  {| gridSize := 3; lines := []; lineSet := []; boxes := ∅;
     scores := [Some (Int 0); Some (Int 0)]; currentPlayer := Int 0;
     maxPlayers := 2; started := false; gameOver := true; winner := None |}.

Definition topLeft : input := Arr [VInt 0; VInt 0; VInt 1; VInt 0].

(** The board after player 0 has drawn that edge. *)
Definition afterTopLeft : GameState := successor board3 (0, 0, 1, 0) (Int 0).

(** A board of four dots, hence one box, for two players; the same with
    the top, the bottom and the left side of the box drawn in turn; and
    the same once player 1 has drawn the right side. *)
Definition board2 : GameState := createInitialState 2 2.

Definition oneSide : GameState := successor board2 (0, 0, 1, 0) (Int 0).

Definition twoSides : GameState := successor oneSide (0, 1, 1, 1) (Int 1).

Definition threeSides : GameState := successor twoSides (0, 0, 0, 1) (Int 0).

Definition rightSide : input := Arr [VInt 1; VInt 0; VInt 1; VInt 1].

Definition boxClosed : GameState := successor threeSides (1, 0, 1, 1) (Int 1).

(** What the specification asks of the winner of a finished game with
    scores [zs]: the index of the one player whose score is above every
    other, or nobody when two players share the highest score. *)
Definition winnerSpec (zs : list Z) (w : option Z) : Prop :=
  match w with
  | Some i =>
      0 ≤ i ∧ ∃ m, zs !! Z.to_nat i = Some m
                   ∧ ∀ j v, j ≠ Z.to_nat i → zs !! j = Some v → v < m
  | None =>
      ∃ i j m, i ≠ j ∧ zs !! i = Some m ∧ zs !! j = Some m
               ∧ ∀ k v, zs !! k = Some v → v ≤ m
  end.

(** [st'] is [st] after any number of successful moves. *)
Inductive later : GameState → GameState → Prop :=
  | later_now st : later st st
  | later_move st st' line p st'' :
      later st st' → applyMove st' line p = Some st'' → later st st''.

(** A state in which some box of the grid has exactly three sides drawn
    and no owner. *)
Definition leavesDanger (st : GameState) : Prop :=
  ∃ x y, 0 ≤ x < gridSize st - 1 ∧ 0 ≤ y < gridSize st - 1
         ∧ countBoxSides x y (list_to_set (lineSet st)) = 3
         ∧ boxes st !! boxKey x y = None.

(** A safe move: an available edge whose simulated application leaves no
    such box. *)
Definition safeMove (st : GameState) (a : Line) : Prop :=
  a ∈ getAvailableLines st
  ∧ ∃ st', applyMove st (ofLine (normalizeLine a)) (currentPlayer st) = Some st'
           ∧ ¬ leavesDanger st'.

(** The search value of the child reached by drawing [a] at the root. *)
Definition childValue (st : GameState) (ai : Z) (a : Line) : num :=
  minimax (maxDepthOf (getAvailableLines st) - 1)
    (successor st a (currentPlayer st)) NegInf PosInf false ai.

(** [a] is the first element of [l] whose value is not exceeded: every
    element before it has a value strictly below, every element after it a
    value at most equal. *)
Definition firstBest (value : Line → num) (l : list Line) (a : Line) : Prop :=
  ∃ i, l !! i = Some a
       ∧ (∀ j x, (j < i)%nat → l !! j = Some x →
                 Num.lt (value x) (value a) = true)
       ∧ (∀ j x, (i < j)%nat → l !! j = Some x →
                 Num.le (value x) (value a) = true).

(** The [gameOver] flag says whether all edges are drawn, as in every
    state [applyMove] returns. *)
Definition settled (st : GameState) : Prop :=
  gameOver st
  = bool_decide (Z.of_nat (length (lines st)) >= totalPossibleLines (gridSize st)).

(** The loop of the end-to-end tests: play the edges in order, each by
    the current player, skipping the moves that are refused. *)
Definition playAll (st : GameState) (ls : list Line) : GameState :=
  foldl (λ s l, default s (applyMove s (ofLine l) (currentPlayer s))) st ls.

(** A set of drawn edges given by the edges themselves. *)
Definition drawn (ls : list Line) : gset string := list_to_set (lineToKey <$> ls).

(** The character [c] does not occur in the string. *)
Fixpoint lacks (c : ascii) (s : string) : Prop :=
  match s with
  | EmptyString => True
  | String d r => d ≠ c ∧ lacks c r
  end.

(** The same edge, drawn from its other end. *)
Definition reversed (l : Line) : Line :=
  let '(x1, y1, x2, y2) := l in (x2, y2, x1, y1).

(** The number of boxes player [c] owns. *)
Definition ownedBy (st : GameState) (c : Z) : nat :=
  size (filter (λ kv : string * num, kv.2 = Int c) (boxes st)).

(** The keys of the boxes of a [g] by [g] grid, row by row. *)
Definition allBoxes (g : Z) : list string :=
  y ← seqZ 0 (g - 1); x ← seqZ 0 (g - 1); [boxKey x y].

(** The bookkeeping of the boxes in a state of a game: a box of the grid
    with its four sides drawn has an owner, every owner is a player, and
    each player's score is the number of boxes the player owns. *)
Record tally (g : Z) (n : nat) (st : GameState) : Prop := {
  tally_complete :
    ∀ x y, 0 ≤ x < g - 1 → 0 ≤ y < g - 1 →
           isBoxComplete x y (list_to_set (lineSet st)) = true →
           is_Some (boxes st !! boxKey x y);
  tally_owner :
    ∀ k v, boxes st !! k = Some v → ∃ c, v = Int c ∧ 0 ≤ c < Z.of_nat n;
  tally_scores :
    ∀ c, 0 ≤ c < Z.of_nat n →
         readAt c (scores st) = Some (Int (Z.of_nat (ownedBy st c)));
}.

(** The values of the children of [st], in the order of the edges: [ex]
    is the value of a child, and an edge [applyMove] refuses has none. *)
Definition childValues (ex : GameState → num) (st : GameState)
    (available : list Line) : list num :=
  omap (λ line,
          ex <$> applyMove st (ofLine (normalizeLine line)) (currentPlayer st))
       available.

(** The search of [minimax] without its pruning: every child is searched,
    with the flag [minimax] passes to it, and the maximum or the minimum
    of all the values is returned. *)
Fixpoint exhaustive (depth : nat) (st : GameState) (isMaximizing : bool)
    (ai : Z) {struct depth} : num :=
  match depth with
  | O => evaluate st ai
  | S depth' =>
      if gameOver st then evaluate st ai
      else
        let available := getAvailableLines st in
        if bool_decide (length available = 0%nat) then evaluate st ai
        else
          let values :=
            childValues
              (λ st', exhaustive depth' st'
                        (Num.strictEq (currentPlayer st') (Int ai)) ai)
              st available in
          if isMaximizing || Num.strictEq (currentPlayer st) (Int ai)
          then foldr Num.max NegInf values
          else foldr Num.min PosInf values
  end.

(** What a search with the window [(alpha, beta)] may return for a
    position of value [v]: the value itself when the result [r] lies
    inside the window, a bound on the side of the value otherwise. *)
Definition brackets (alpha beta : num) (v r : Z) : Prop :=
  (Num.le (Int r) alpha = true → v ≤ r)
  ∧ (Num.le beta (Int r) = true → r ≤ v)
  ∧ (Num.lt alpha (Int r) = true → Num.lt (Int r) beta = true → v = r).

(** A child of [st] as the loops of [minimax] meet it: the edge [a] can
    be drawn, the child has the integer value [ex] gives it, and the
    recursive call [recur] brackets that value for every window. *)
Definition childOK (recur : GameState → num → num → bool → num)
    (ex : GameState → num) (st : GameState) (ai : Z) (a : Line) : Prop :=
  ∃ st' v,
    applyMove st (ofLine (normalizeLine a)) (currentPlayer st) = Some st'
    ∧ ex st' = Int v
    ∧ ∀ al be, Num.lt al be = true →
        ∃ r, recur st' al be (Num.strictEq (currentPlayer st') (Int ai)) = Int r
             ∧ brackets al be v r.

(** The states the [useGameState] hook holds in a local game: the initial
    one, and what [makeLocalMove] and [resetGame] leave. *)
Inductive hookState : GameState → Prop :=
  | hook_init g n : hookState (createInitialState g n)
  | hook_move st line p : hookState st → hookState (makeLocalMove st line p).2
  | hook_reset st g n : hookState st → hookState (resetGame g n).

(** The timestamps the bucket of a socket and an event holds. *)
Definition bucketOf (b : gmap string (gmap string RateBucket))
    (socketId event : string) : list Z :=
  match b !! socketId ≫= (λ eventMap, eventMap !! event) with
  | Some bucket => timestamps bucket
  | None => []
  end.

(** A series of calls of one socket for one event at the times [nows]:
    the times of the calls that were allowed. *)
Fixpoint allowedCalls (b : gmap string (gmap string RateBucket))
    (socketId event : string) (nows : list Z)
    : list Z :=
  match nows with
  | [] => []
  | now :: rest =>
      let '(ok, b') := checkRateLimit b socketId event now in
      (if ok then [now] else []) ++ allowedCalls b' socketId event rest
  end.

(** Every bucket holds the limit and the window of its event. *)
Definition bucketsOK (b : gmap string (gmap string RateBucket)) : Prop :=
  ∀ s e eventMap bucket,
    b !! s = Some eventMap → eventMap !! e = Some bucket →
    limitOf e = Some (maxEvents bucket, windowMs bucket).

(** The rooms of the waiting phase: a created room, and what a
    successful [joinRoom] makes of such a room. *)
Inductive lobby : Session.Room → Prop :=
  | lobby_create rooms roomId now gridSize maxPlayers creatorInfo :
      lobby (Session.createRoom rooms roomId now gridSize maxPlayers
               creatorInfo).2
  | lobby_join rooms roomId playerInfo room rooms' room' :
      lobby room → rooms !! roomId = Some room →
      Session.joinRoom rooms roomId playerInfo = (rooms', Session.JoinOk room') →
      lobby room'.

(** * Properties *)

(** ** The unit tests of [gameLogic.test.ts], run on the embedding *)

Section UnitTests.

Example test_normalizeLine :
  normalizeLine (0, 0, 1, 0) = (0, 0, 1, 0)
  ∧ normalizeLine (0, 0, 0, 1) = (0, 0, 0, 1)
  ∧ normalizeLine (1, 0, 0, 0) = (0, 0, 1, 0)
  ∧ normalizeLine (0, 1, 0, 0) = (0, 0, 0, 1)
  ∧ normalizeLine (3, 2, 2, 2) = (2, 2, 3, 2)
  ∧ normalizeLine (5, 7, 5, 6) = (5, 6, 5, 7).
Proof. by vm_compute. Qed.

Example test_lineToKey :
  lineToKey (0, 0, 1, 0) = lineToKey (1, 0, 0, 0)
  ∧ lineToKey (2, 3, 2, 4) = lineToKey (2, 4, 2, 3)
  ∧ lineToKey (0, 0, 1, 0) ≠ lineToKey (0, 0, 0, 1)
  ∧ lineToKey (2, 3, 2, 4) = "2,3-2,4"%string.
Proof. by vm_compute. Qed.

Example test_isSameLine :
  isSameLine (0, 0, 1, 0) (1, 0, 0, 0) = true
  ∧ isSameLine (3, 4, 3, 5) (3, 5, 3, 4) = true
  ∧ isSameLine (0, 0, 1, 0) (0, 0, 0, 1) = false.
Proof. by vm_compute. Qed.

Example test_isValidLine :
  isValidLine (ofLine (0, 0, 1, 0)) 4 = true
  ∧ isValidLine (ofLine (2, 3, 3, 3)) 4 = true
  ∧ isValidLine (ofLine (0, 0, 0, 1)) 4 = true
  ∧ isValidLine (ofLine (3, 2, 3, 3)) 4 = true
  ∧ isValidLine (ofLine (0, 0, 1, 1)) 4 = false
  ∧ isValidLine (ofLine (0, 0, 2, 0)) 4 = false
  ∧ isValidLine (ofLine (-1, 0, 0, 0)) 4 = false
  ∧ isValidLine (ofLine (0, 0, 0, 4)) 4 = false
  ∧ isValidLine (ofLine (3, 3, 4, 3)) 4 = false
  ∧ isValidLine (Arr [VOther; VInt 0; VOther; VInt 0]) 4 = false
  ∧ isValidLine (Arr [VInt 0; VInt 0; VInt 1]) 4 = false
  ∧ isValidLine NotArr 4 = false
  ∧ isValidLine (ofLine (0, 0, 0, 0)) 4 = false.
Proof. by vm_compute. Qed.

Example test_sizes :
  isValidGridSize 3 = true ∧ isValidGridSize 10 = true
  ∧ isValidGridSize 2 = false ∧ isValidGridSize 11 = false
  ∧ isValidGridSize 0 = false ∧ isValidGridSize (-1) = false
  ∧ isValidPlayerCount 2 = true ∧ isValidPlayerCount 4 = true
  ∧ isValidPlayerCount 1 = false ∧ isValidPlayerCount 5 = false.
Proof. by vm_compute. Qed.

Example test_isBoxComplete :
  isBoxComplete 0 0 (drawn [(0, 0, 1, 0); (0, 1, 1, 1); (0, 0, 0, 1); (1, 0, 1, 1)])
  = true
  ∧ isBoxComplete 0 0 (drawn [(0, 0, 1, 0); (0, 1, 1, 1); (0, 0, 0, 1)]) = false
  ∧ isBoxComplete 0 0
      (drawn [(1, 0, 0, 0); (1, 1, 0, 1); (0, 1, 0, 0); (1, 1, 1, 0)]) = true.
Proof. by vm_compute. Qed.

Example test_findCompletedBoxes :
  findCompletedBoxes (0, 1, 1, 1) 3
    (drawn [(0, 0, 1, 0); (0, 0, 0, 1); (1, 0, 1, 1); (0, 1, 1, 1)])
  = ["0,0"%string]
  ∧ findCompletedBoxes (1, 0, 1, 1) 3
      (drawn [(0, 0, 1, 0); (0, 0, 0, 1); (0, 1, 1, 1); (1, 0, 2, 0);
              (1, 1, 2, 1); (2, 0, 2, 1); (1, 0, 1, 1)])
    = ["0,0"%string; "1,0"%string]
  ∧ findCompletedBoxes (0, 0, 1, 0) 3 (drawn [(0, 0, 1, 0)]) = [].
Proof. by vm_compute. Qed.

Example test_createInitialState :
  createInitialState 4 2
  = {| gridSize := 4; lines := []; lineSet := []; boxes := ∅;
       scores := [Some (Int 0); Some (Int 0)]; currentPlayer := Int 0;
       maxPlayers := 2; started := false; gameOver := false; winner := None |}
  ∧ scores (createInitialState 5 4) = ints [0; 0; 0; 0].
Proof. done. Qed.

Example test_totalPossibleLines :
  totalPossibleLines 3 = 12 ∧ totalPossibleLines 4 = 24
  ∧ totalPossibleLines 5 = 40.
Proof. done. Qed.

Example test_determineWinner :
  determineWinner (ints [3; 6]) = Some 1
  ∧ determineWinner (ints [5; 2]) = Some 0
  ∧ determineWinner (ints [4; 4]) = None
  ∧ determineWinner (ints [3; 3; 3]) = None
  ∧ determineWinner (ints [1; 5; 2; 3]) = Some 1.
Proof. by vm_compute. Qed.

Example test_applyMove_turns :
  (currentPlayer <$> applyMove board3 topLeft (Int 0)) = Some (Int 1)
  ∧ applyMove board3 topLeft (Int 1) = None
  ∧ applyMove afterTopLeft topLeft (Int 1) = None
  ∧ applyMove afterTopLeft (ofLine (1, 0, 0, 0)) (Int 1) = None
  ∧ applyMove board3 (ofLine (0, 0, 2, 0)) (Int 0) = None
  ∧ applyMove board3 (ofLine (-1, 0, 0, 0)) (Int 0) = None
  ∧ applyMove board3 (ofLine (0, 0, 1, 1)) (Int 0) = None
  ∧ applyMove board3Over topLeft (Int 0) = None.
Proof. by vm_compute. Qed.

Example test_applyMove_box :
  let s := playAll board3 [(0, 0, 1, 0); (0, 0, 0, 1); (1, 0, 1, 1); (0, 1, 1, 1)] in
  scores s = ints [0; 1] ∧ currentPlayer s = Int 1.
Proof. by vm_compute. Qed.

Example test_game_over :
  let s := playAll board3 (getAvailableLines board3) in
  gameOver s = true ∧ length (lines s) = 12%nat
  ∧ length (getAvailableLines s) = 0%nat.
Proof. by vm_compute. Qed.

Example test_getAvailableLines :
  length (getAvailableLines board3) = 12%nat
  ∧ length (getAvailableLines afterTopLeft) = 11%nat.
Proof. by vm_compute. Qed.

Example test_countBoxSides :
  countBoxSides 0 0 ∅ = 0
  ∧ countBoxSides 0 0 (drawn [(0, 0, 1, 0)]) = 1
  ∧ countBoxSides 0 0
      (drawn [(0, 0, 1, 0); (0, 1, 1, 1); (0, 0, 0, 1); (1, 0, 1, 1)]) = 4.
Proof. by vm_compute. Qed.

(** The sample states of the statements below. *)
Example sample_states :
  applyMove board3 topLeft (Int 0) = Some afterTopLeft
  ∧ playAll board2 [(0, 0, 1, 0); (0, 1, 1, 1); (0, 0, 0, 1)] = threeSides
  ∧ currentPlayer threeSides = Int 1
  ∧ applyMove threeSides rightSide (Int 1) = Some boxClosed
  ∧ boxes boxClosed = {[ "0,0"%string := Int 1 ]}
  ∧ scores boxClosed = ints [0; 1]
  ∧ currentPlayer boxClosed = Int 1
  ∧ gameOver boxClosed = true
  ∧ winner boxClosed = Some 1.
Proof. by vm_compute. Qed.

(** The three strategies on the one-box board, with a random source that
    always answers 0. *)
Example sample_strategies :
  easyAI (λ _, 0%nat) board2 = Some (0, 0, 1, 0)
  ∧ mediumAI (λ _, 0%nat) board2 = Some (0, 0, 1, 0)
  ∧ mediumAI (λ _, 0%nat) threeSides = Some (1, 0, 1, 1)
  ∧ hardAI threeSides 1 = Some (1, 0, 1, 1)
  ∧ hardAI boxClosed 1 = None.
Proof. by vm_compute. Qed.

End UnitTests.


(** ** Keys: the string of an edge determines the edge *)

Ltac tuple_eq := repeat (apply pair_equal_spec; split); lia || done.

Section Keys.

Lemma pretty_N_go_plain (x : N) (s : string) :
  plain s → plain (pretty_N_go x s).
Proof.
  revert s. induction (N.lt_wf_0 x) as [x _ IH]; intros s Hs.
  destruct (decide (x = 0)%N) as [->|Hx].
  - by rewrite pretty_N_go_0.
  - rewrite pretty_N_go_step by lia.
    apply IH; [apply N.div_lt; lia|].
    simpl. split_and!; [| |done];
      unfold pretty_N_char; by repeat case_match.
Qed.

Lemma pretty_plain (z : Z) : 0 ≤ z → plain (pretty z).
Proof.
  destruct z as [|q|q]; [done| |lia]. intros _.
  unfold pretty, pretty_Z, pretty, pretty_positive, pretty, pretty_N.
  case_decide; [done|]. by apply pretty_N_go_plain.
Qed.

Lemma plain_split (c : ascii) (a a' r r' : string) :
  (c = ","%char ∨ c = "-"%char) → plain a → plain a' →
  a +:+ String c r = a' +:+ String c r' → a = a' ∧ r = r'.
Proof.
  intros Hc. revert a'. induction a as [|d a IH]; intros [|d' a'] Ha Ha' Heq;
    simpl in *.
  - by injection Heq as ->.
  - injection Heq as <- _. destruct Ha' as (? & ? & _). by destruct Hc.
  - injection Heq as -> _. destruct Ha as (? & ? & _). by destruct Hc.
  - injection Heq as -> Heq.
    destruct Ha as (_ & _ & Ha), Ha' as (_ & _ & Ha').
    destruct (IH a' Ha Ha' Heq) as [-> ->]. done.
Qed.

Lemma key_format_inj (a b c d a' b' c' d' : Z) :
  0 ≤ a → 0 ≤ b → 0 ≤ c → 0 ≤ a' → 0 ≤ b' → 0 ≤ c' →
  pretty a +:+ "," +:+ pretty b +:+ "-" +:+ pretty c +:+ "," +:+ pretty d
  = pretty a' +:+ "," +:+ pretty b' +:+ "-" +:+ pretty c' +:+ "," +:+ pretty d' →
  (a, b, c, d) = (a', b', c', d').
Proof.
  intros ?????? Heq. simpl in Heq.
  apply plain_split in Heq as [Ha Heq]; [|by left|by apply pretty_plain..].
  apply plain_split in Heq as [Hb Heq]; [|by right|by apply pretty_plain..].
  apply plain_split in Heq as [Hc Hd]; [|by left|by apply pretty_plain..].
  by repeat match goal with H : pretty _ = pretty _ |- _ =>
    apply (inj pretty) in H; subst end.
Qed.

Lemma boxKey_inj (x y x' y' : Z) :
  0 ≤ x → 0 ≤ x' → boxKey x y = boxKey x' y' → x = x' ∧ y = y'.
Proof.
  intros ?? Heq. unfold boxKey in Heq. simpl in Heq.
  apply plain_split in Heq as [Hx Hy]; [|by left|by apply pretty_plain..].
  apply (inj pretty) in Hx. apply (inj pretty) in Hy. done.
Qed.

Lemma normalizeLine_onBoard (l : Line) : onBoard l → onBoard (normalizeLine l).
Proof.
  destruct l as [[[x1 y1] x2] y2]. unfold normalizeLine, onBoard.
  destruct (_ || _); lia.
Qed.

Lemma normalizeLine_idemp (l : Line) :
  normalizeLine (normalizeLine l) = normalizeLine l.
Proof.
  destruct l as [[[x1 y1] x2] y2]. unfold normalizeLine.
  repeat (case_bool_decide; simpl); try done; try lia.
  f_equal; [f_equal; [f_equal|]|]; lia.
Qed.

Lemma normalizeLine_reverse (x1 y1 x2 y2 : Z) :
  normalizeLine (x2, y2, x1, y1) = normalizeLine (x1, y1, x2, y2).
Proof.
  unfold normalizeLine.
  repeat (case_bool_decide; simpl); try done; try lia.
  f_equal; [f_equal; [f_equal|]|]; lia.
Qed.

Lemma lineToKey_normalizeLine (l : Line) :
  lineToKey (normalizeLine l) = lineToKey l.
Proof. unfold lineToKey. by rewrite normalizeLine_idemp. Qed.

Lemma lineToKey_reverse (x1 y1 x2 y2 : Z) :
  lineToKey (x2, y2, x1, y1) = lineToKey (x1, y1, x2, y2).
Proof. unfold lineToKey. by rewrite normalizeLine_reverse. Qed.

Lemma lineToKey_inj (l l' : Line) :
  onBoard l → onBoard l' → lineToKey l = lineToKey l' →
  normalizeLine l = normalizeLine l'.
Proof.
  intros Hl%normalizeLine_onBoard Hl'%normalizeLine_onBoard. unfold lineToKey.
  destruct (normalizeLine l) as [[[a b] c] d].
  destruct (normalizeLine l') as [[[a' b'] c'] d'].
  destruct Hl as (?&?&?&?), Hl' as (?&?&?&?).
  by apply key_format_inj.
Qed.

End Keys.

(** ** The enumeration of the edges of a grid *)

Section Enumeration.

Lemma filter_bind {A B} (f : B → bool) (g : A → list B) (l : list A) :
  List.filter f (l ≫= g) = l ≫= (λ y, List.filter f (g y)).
Proof.
  induction l as [|a l IH]; [done|]. csimpl.
  by rewrite List.filter_app, IH.
Qed.

Lemma getAvailableLines_filter (st : GameState) :
  getAvailableLines st = List.filter (isFree st) (allLines (gridSize st)).
Proof.
  unfold getAvailableLines, allLines, horizontals, verticals.
  rewrite List.filter_app, !filter_bind.
  f_equal; apply list_bind_ext; try done; intros y;
    rewrite filter_bind; apply list_bind_ext; try done; intros x; simpl;
    unfold isFree; by destruct (negb _).
Qed.

Lemma elem_of_horizontals (g : Z) (l : Line) :
  l ∈ horizontals g ↔
  ∃ x y, l = (x, y, x + 1, y) ∧ 0 ≤ y < g ∧ 0 ≤ x < g - 1.
Proof.
  unfold horizontals. rewrite list_elem_of_bind. split.
  - intros (y & (x & Hl & Hx)%list_elem_of_bind & Hy).
    apply list_elem_of_singleton in Hl. apply elem_of_seqZ in Hx, Hy.
    exists x, y. split_and!; [done|lia..].
  - intros (x & y & -> & ? & ?). exists y. split; [|apply elem_of_seqZ; lia].
    apply list_elem_of_bind. exists x. split; [by apply list_elem_of_singleton|].
    apply elem_of_seqZ; lia.
Qed.

Lemma elem_of_verticals (g : Z) (l : Line) :
  l ∈ verticals g ↔
  ∃ x y, l = (x, y, x, y + 1) ∧ 0 ≤ y < g - 1 ∧ 0 ≤ x < g.
Proof.
  unfold verticals. rewrite list_elem_of_bind. split.
  - intros (y & (x & Hl & Hx)%list_elem_of_bind & Hy).
    apply list_elem_of_singleton in Hl. apply elem_of_seqZ in Hx, Hy.
    exists x, y. split_and!; [done|lia..].
  - intros (x & y & -> & ? & ?). exists y. split; [|apply elem_of_seqZ; lia].
    apply list_elem_of_bind. exists x. split; [by apply list_elem_of_singleton|].
    apply elem_of_seqZ; lia.
Qed.

Lemma elem_of_allLines (g : Z) (l : Line) :
  l ∈ allLines g ↔
  (∃ x y, l = (x, y, x + 1, y) ∧ 0 ≤ y < g ∧ 0 ≤ x < g - 1)
  ∨ (∃ x y, l = (x, y, x, y + 1) ∧ 0 ≤ y < g - 1 ∧ 0 ≤ x < g).
Proof.
  unfold allLines.
  by rewrite elem_of_app, elem_of_horizontals, elem_of_verticals.
Qed.

Lemma allLines_normal (g : Z) (l : Line) :
  l ∈ allLines g → normalizeLine l = l.
Proof.
  intros [(x & y & -> & _)|(x & y & -> & _)]%elem_of_allLines;
    unfold normalizeLine; repeat (case_bool_decide; simpl); done || lia.
Qed.

Lemma allLines_onBoard (g : Z) (l : Line) : l ∈ allLines g → onBoard l.
Proof.
  intros [(x & y & -> & ? & ?)|(x & y & -> & ? & ?)]%elem_of_allLines;
    simpl; lia.
Qed.

Lemma NoDup_allLines (g : Z) : NoDup (allLines g).
Proof.
  unfold allLines. apply NoDup_app. split_and!.
  - unfold horizontals. apply NoDup_bind; [| |apply NoDup_seqZ].
    + intros y1 y2 l _ _ (x1 & Hl1 & _)%list_elem_of_bind
        (x2 & Hl2 & _)%list_elem_of_bind.
      apply list_elem_of_singleton in Hl1, Hl2. congruence.
    + intros y _. apply NoDup_bind; [| |apply NoDup_seqZ].
      * intros x1 x2 l _ _ Hl1%list_elem_of_singleton Hl2%list_elem_of_singleton.
        congruence.
      * intros; apply NoDup_singleton.
  - intros l (x & y & -> & _)%elem_of_horizontals
      (x' & y' & Heq & _)%elem_of_verticals.
    injection Heq as ????. lia.
  - unfold verticals. apply NoDup_bind; [| |apply NoDup_seqZ].
    + intros y1 y2 l _ _ (x1 & Hl1 & _)%list_elem_of_bind
        (x2 & Hl2 & _)%list_elem_of_bind.
      apply list_elem_of_singleton in Hl1, Hl2. congruence.
    + intros y _. apply NoDup_bind; [| |apply NoDup_seqZ].
      * intros x1 x2 l _ _ Hl1%list_elem_of_singleton Hl2%list_elem_of_singleton.
        congruence.
      * intros; apply NoDup_singleton.
Qed.

Lemma lineToKey_inj_allLines (g : Z) (l l' : Line) :
  l ∈ allLines g → l' ∈ allLines g → lineToKey l = lineToKey l' → l = l'.
Proof.
  intros Hl Hl' Heq.
  rewrite <-(allLines_normal g l), <-(allLines_normal g l') by done.
  apply lineToKey_inj; eauto using allLines_onBoard.
Qed.

Lemma NoDup_allKeys (g : Z) : NoDup (lineToKey <$> allLines g).
Proof.
  apply NoDup_fmap_2_strong; [|apply NoDup_allLines].
  intros l l'. apply lineToKey_inj_allLines.
Qed.

Lemma length_bind_const {A B} (f : A → list B) (c : nat) (l : list A) :
  (∀ x, length (f x) = c) → length (l ≫= f) = (length l * c)%nat.
Proof.
  intros Hf. induction l as [|a l IH]; [done|]. csimpl.
  rewrite length_app, IH, Hf. lia.
Qed.

Lemma length_allLines (g : Z) :
  1 ≤ g → Z.of_nat (length (allLines g)) = totalPossibleLines g.
Proof.
  intros Hg. unfold allLines, horizontals, verticals, totalPossibleLines.
  rewrite length_app.
  rewrite (length_bind_const _ (Z.to_nat (g - 1))),
    (length_bind_const _ (Z.to_nat g)), !length_seqZ.
  - nia.
  - intros y. rewrite (length_bind_const _ 1%nat), length_seqZ; [lia|done].
  - intros y. rewrite (length_bind_const _ 1%nat), length_seqZ; [lia|done].
Qed.

Lemma isValidLine_spec (line : input) (g : Z) :
  isValidLine line g = true ↔ validEdge line g.
Proof.
  unfold validEdge. split.
  - destruct line as [vs|]; [|done].
    destruct vs as [|[x1|] [|[y1|] [|[x2|] [|[y2|] [|? ?]]]]]; try done.
    simpl. intros Hv. exists x1, y1, x2, y2.
    repeat (case_bool_decide; simpl in Hv; try done); split_and!; done || lia.
  - intros (x1 & y1 & x2 & y2 & -> & ? & ? & ?). simpl.
    repeat (case_bool_decide; simpl; try done); lia.
Qed.

(** Validity of the caller's input, as the enumeration sees it. *)
Lemma isValidLine_allLines (line : input) (g : Z) :
  isValidLine line g = true ↔
  ∃ l, asLine line = Some l ∧ normalizeLine l ∈ allLines g.
Proof.
  rewrite isValidLine_spec. unfold validEdge. split.
  - intros (x1 & y1 & x2 & y2 & -> & ? & ? & ?).
    exists (x1, y1, x2, y2). split; [done|].
    apply elem_of_allLines. unfold normalizeLine.
    destruct (decide (y1 = y2)) as [Hy|Hy].
    + left. repeat (case_bool_decide; simpl); try lia.
      * exists x1, y1. split; [tuple_eq|lia].
      * exists x2, y2. split; [tuple_eq|lia].
    + right. repeat (case_bool_decide; simpl); try lia.
      * exists x1, y1. split; [tuple_eq|lia].
      * exists x2, y2. split; [tuple_eq|lia].
  - intros (l & Hl & Hin).
    destruct line as [vs|]; [|done].
    destruct vs as [|[x1|] [|[y1|] [|[x2|] [|[y2|] [|? ?]]]]]; try done.
    injection Hl as <-. exists x1, y1, x2, y2. split; [done|].
    apply elem_of_allLines in Hin. unfold normalizeLine in Hin.
    destruct Hin as [(x & y & Heq & ? & ?)|(x & y & Heq & ? & ?)];
      destruct (_ || _) in Heq; injection Heq as -> -> -> ->; lia.
Qed.

End Enumeration.

(** ** The transition of [applyMove] *)

Section Transition.

Lemma applyMove_unfold (st : GameState) (line : input) (p : num) :
  applyMove st line p =
  if negb (isValidLine line (gridSize st)) then None
  else if gameOver st then None
  else if negb (Num.strictEq (currentPlayer st) p) then None
  else match asLine line with
       | None => None
       | Some l =>
           if bool_decide (lineToKey (normalizeLine l)
                           ∈@{gset string} list_to_set (lineSet st))
           then None
           else Some (successor st (normalizeLine l) p)
       end.
Proof.
  unfold applyMove, successor, completedBy.
  destruct (isValidLine line (gridSize st)); simpl; [|done].
  destruct (gameOver st); [done|].
  destruct (Num.strictEq _ _); simpl; [|done].
  destruct (asLine line) as [l|]; [|done].
  case_bool_decide; [done|]. by destruct (foldl _ _ _) as [[? ?] ?].
Qed.

Lemma applyMove_Some (st : GameState) (line : input) (p : num) (st' : GameState) :
  applyMove st line p = Some st' ↔
  ∃ l, asLine line = Some l
       ∧ normalizeLine l ∈ allLines (gridSize st)
       ∧ gameOver st = false
       ∧ Num.strictEq (currentPlayer st) p = true
       ∧ (lineToKey l ∉ lineSet st)
       ∧ st' = successor st (normalizeLine l) p.
Proof.
  rewrite applyMove_unfold. split.
  - destruct (isValidLine _ _) eqn:Hv; [|done]. simpl.
    destruct (gameOver st); [done|].
    destruct (Num.strictEq _ _); [|done]. simpl.
    apply isValidLine_allLines in Hv as (l & -> & Hin).
    case_bool_decide as Hk; [done|]. intros [= <-].
    exists l. split_and!; try done.
    by rewrite lineToKey_normalizeLine, elem_of_list_to_set in Hk.
  - intros (l & Hl & Hin & -> & -> & Hk & ->).
    assert (isValidLine line (gridSize st) = true) as ->.
    { apply isValidLine_allLines. eauto. }
    simpl. rewrite Hl, bool_decide_eq_false_2; [done|].
    by rewrite lineToKey_normalizeLine, elem_of_list_to_set.
Qed.

Lemma foldl_claimBox (p : num) (ks : list string) (b : gmap string num)
    (s : list (option num)) (f : bool) :
  ∃ b' m,
    foldl (claimBox p) (b, s, f) ks
    = (b', Nat.iter m (incrementAt p) s, f || bool_decide (0 < m)%nat)
    ∧ size b' = (size b + m)%nat
    ∧ (∀ k, b' !! k = match b !! k with
                      | Some v => Some v
                      | None => if bool_decide (k ∈ ks) then Some p else None
                      end)
    ∧ ((0 < m)%nat ↔ ∃ k, k ∈ ks ∧ b !! k = None)
    ∧ (m ≤ length ks)%nat
    ∧ (m = length ks → ∀ k, k ∈ ks → b !! k = None).
Proof.
  revert b s f. induction ks as [|k0 ks IH]; intros b s f.
  - exists b, 0%nat. simpl. rewrite orb_false_r. split_and!; [done|lia| | |lia|].
    + intros k. by destruct (b !! k).
    + split; [lia|]. by intros (k & ?%elem_of_nil & _).
    + by intros _ k ?%elem_of_nil.
  - simpl. destruct (b !! k0) as [v|] eqn:Hk0.
    + destruct (IH b s f) as (b' & m & -> & Hsz & Hlk & Hpos & Hle & _).
      exists b', m. split_and!; [done..| | |lia|lia].
      * intros k. rewrite Hlk. destruct (b !! k) eqn:Hk; [done|].
        assert (k ≠ k0) by congruence.
        rewrite (bool_decide_ext (k ∈ k0 :: ks) (k ∈ ks)); [done|].
        rewrite elem_of_cons. intuition congruence.
      * rewrite Hpos. split; intros (k & Hin & Hk); exists k; split; try done.
        -- by apply list_elem_of_further.
        -- apply elem_of_cons in Hin as [->|?]; [congruence|done].
    + destruct (IH (<[k0:=p]> b) (incrementAt p s) true)
        as (b' & m & -> & Hsz & Hlk & _ & Hle & Hall).
      exists b', (S m). rewrite Nat.iter_succ_r. split_and!.
      * simpl. by rewrite orb_true_r.
      * rewrite Hsz, map_size_insert_None by done. lia.
      * intros k. rewrite Hlk. destruct (decide (k = k0)) as [->|Hne].
        -- rewrite lookup_insert_eq, Hk0.
           rewrite bool_decide_eq_true_2; [done|apply list_elem_of_here].
        -- rewrite lookup_insert_ne by done. destruct (b !! k); [done|].
           rewrite (bool_decide_ext (k ∈ k0 :: ks) (k ∈ ks)); [done|].
           rewrite elem_of_cons. intuition congruence.
      * split; [|lia]. intros _. exists k0. split; [apply list_elem_of_here|done].
      * simpl. lia.
      * simpl. intros [= Hm] k [->|Hin]%elem_of_cons; [done|].
        specialize (Hall Hm k Hin).
        destruct (decide (k = k0)) as [->|Hne]; [done|].
        by rewrite lookup_insert_ne in Hall.
Qed.

(** The state after a move, with the loop over the completed boxes
    summarized: [m] boxes gain an owner, and the mover's score goes up
    [m] times. *)
Lemma successor_spec (st : GameState) (nl : Line) (p : num) :
  ∃ b' m,
    let over :=
      bool_decide (Z.of_nat (length (lines st ++ [nl]))
                   >= totalPossibleLines (gridSize st)) in
    let s' := Nat.iter m (incrementAt p) (scores st) in
    successor st nl p =
    {| gridSize := gridSize st;
       lines := lines st ++ [nl];
       lineSet := lineSet st ++ [lineToKey nl];
       boxes := b';
       scores := s';
       currentPlayer :=
         if over then p
         else if bool_decide (0 < m)%nat then p
         else Num.rem (Num.add p (Int 1)) (maxPlayers st);
       maxPlayers := maxPlayers st;
       started := started st;
       gameOver := over;
       winner := if over then determineWinner s' else None |}
    ∧ size b' = (size (boxes st) + m)%nat
    ∧ (∀ k, b' !! k = match boxes st !! k with
                      | Some v => Some v
                      | None => if bool_decide (k ∈ completedBy st nl)
                                then Some p else None
                      end)
    ∧ ((0 < m)%nat ↔ ∃ k, k ∈ completedBy st nl ∧ boxes st !! k = None)
    ∧ (m ≤ length (completedBy st nl))%nat
    ∧ (m = length (completedBy st nl) →
       ∀ k, k ∈ completedBy st nl → boxes st !! k = None).
Proof.
  unfold successor.
  destruct (foldl_claimBox p (completedBy st nl) (boxes st) (scores st) false)
    as (b' & m & -> & ? & ? & ? & ? & ?).
  by exists b', m.
Qed.

End Transition.

(** ** Well-formed states *)

Section WellFormed.

Lemma strictEq_Int (c : Z) (p : num) :
  Num.strictEq (Int c) p = true → p = Int c.
Proof. destruct p; simpl; try done. by intros ->%bool_decide_eq_true. Qed.

Lemma findCompletedBoxes_horizontal (x y g : Z) (S : gset string) :
  findCompletedBoxes (x, y, x + 1, y) g S =
  (if bool_decide (y > 0) && isBoxComplete x (y - 1) S
   then [boxKey x (y - 1)] else [])
  ++ (if bool_decide (y < g - 1) && isBoxComplete x y S
      then [boxKey x y] else []).
Proof.
  unfold findCompletedBoxes, normalizeLine.
  rewrite (bool_decide_eq_false_2 (y < y)) by lia.
  rewrite (bool_decide_eq_true_2 (y = y)) by done.
  rewrite (bool_decide_eq_true_2 (x < x + 1)) by lia. simpl.
  rewrite (bool_decide_eq_false_2 (x = x + 1)) by lia.
  rewrite (bool_decide_eq_true_2 (y = y)) by done.
  by rewrite Z.min_l by lia.
Qed.

Lemma findCompletedBoxes_vertical (x y g : Z) (S : gset string) :
  findCompletedBoxes (x, y, x, y + 1) g S =
  (if bool_decide (x > 0) && isBoxComplete (x - 1) y S
   then [boxKey (x - 1) y] else [])
  ++ (if bool_decide (x < g - 1) && isBoxComplete x y S
      then [boxKey x y] else []).
Proof.
  unfold findCompletedBoxes, normalizeLine.
  rewrite (bool_decide_eq_true_2 (y < y + 1)) by lia. simpl.
  rewrite (bool_decide_eq_true_2 (x = x)) by done.
  rewrite (bool_decide_eq_false_2 (y = y + 1)) by lia.
  rewrite Z.min_l by lia. by rewrite app_nil_r.
Qed.

Lemma isBoxComplete_sides (x y : Z) (S : gset string) :
  isBoxComplete x y S = true ↔ ∀ l, l ∈ sides x y → lineToKey l ∈ S.
Proof.
  unfold isBoxComplete, sides. rewrite !andb_true_iff, !bool_decide_eq_true.
  split.
  - intros (((? & ?) & ?) & ?) l Hl.
    repeat (apply elem_of_cons in Hl as [->|Hl]; [done|]).
    by apply elem_of_nil in Hl.
  - intros H. split_and!; apply H; set_solver.
Qed.

Lemma isBoxComplete_mono (x y : Z) (S S' : gset string) :
  S ⊆ S' → isBoxComplete x y S = true → isBoxComplete x y S' = true.
Proof. rewrite !isBoxComplete_sides. set_solver. Qed.

(** Every box [findCompletedBoxes] reports for an edge of the grid is a
    box of the grid, complete in the given set, with the edge as a side. *)
Lemma findCompletedBoxes_sound (nl : Line) (g : Z) (S : gset string) (k : string) :
  nl ∈ allLines g → k ∈ findCompletedBoxes nl g S →
  ∃ x y, k = boxKey x y ∧ 0 ≤ x < g - 1 ∧ 0 ≤ y < g - 1
         ∧ isBoxComplete x y S = true ∧ nl ∈ sides x y.
Proof.
  intros [(x & y & -> & ? & ?)|(x & y & -> & ? & ?)]%elem_of_allLines.
  - rewrite findCompletedBoxes_horizontal, elem_of_app.
    intros [Hk|Hk].
    + destruct (bool_decide (y > 0)) eqn:Hy; simpl in Hk; [|by apply elem_of_nil in Hk].
      destruct (isBoxComplete x (y - 1) S) eqn:Hc; [|by apply elem_of_nil in Hk].
      apply list_elem_of_singleton in Hk as ->. apply bool_decide_eq_true in Hy.
      exists x, (y - 1). split_and!; try done; try lia.
      unfold sides. replace (y - 1 + 1) with y by lia. set_solver.
    + destruct (bool_decide (y < g - 1)) eqn:Hy; simpl in Hk; [|by apply elem_of_nil in Hk].
      destruct (isBoxComplete x y S) eqn:Hc; [|by apply elem_of_nil in Hk].
      apply list_elem_of_singleton in Hk as ->. apply bool_decide_eq_true in Hy.
      exists x, y. split_and!; try done; try lia. unfold sides. set_solver.
  - rewrite findCompletedBoxes_vertical, elem_of_app.
    intros [Hk|Hk].
    + destruct (bool_decide (x > 0)) eqn:Hx; simpl in Hk; [|by apply elem_of_nil in Hk].
      destruct (isBoxComplete (x - 1) y S) eqn:Hc; [|by apply elem_of_nil in Hk].
      apply list_elem_of_singleton in Hk as ->. apply bool_decide_eq_true in Hx.
      exists (x - 1), y. split_and!; try done; try lia.
      unfold sides. replace (x - 1 + 1) with x by lia. set_solver.
    + destruct (bool_decide (x < g - 1)) eqn:Hx; simpl in Hk; [|by apply elem_of_nil in Hk].
      destruct (isBoxComplete x y S) eqn:Hc; [|by apply elem_of_nil in Hk].
      apply list_elem_of_singleton in Hk as ->. apply bool_decide_eq_true in Hx.
      exists x, y. split_and!; try done; try lia. unfold sides. set_solver.
Qed.

Lemma incrementAt_ints (c : Z) (zs : list Z) :
  0 ≤ c < Z.of_nat (length zs) →
  incrementAt (Int c) (ints zs) = ints (alter (λ z, z + 1) (Z.to_nat c) zs).
Proof.
  intros Hc. unfold incrementAt, ints. rewrite length_fmap.
  rewrite bool_decide_eq_false_2, bool_decide_eq_true_2 by lia.
  symmetry. apply list_fmap_alter. by apply Forall_true.
Qed.

Lemma iter_incrementAt_ints (m : nat) (c : Z) (zs : list Z) :
  0 ≤ c < Z.of_nat (length zs) →
  Nat.iter m (incrementAt (Int c)) (ints zs)
  = ints (alter (λ z, z + Z.of_nat m) (Z.to_nat c) zs).
Proof.
  intros Hc. induction m as [|m IH].
  - simpl. f_equal. symmetry. apply list_alter_id. intros; lia.
  - rewrite Nat.iter_succ, IH, incrementAt_ints by (rewrite length_alter; lia).
    f_equal. rewrite list_alter_alter_eq. apply list_alter_ext; [|done].
    intros z _. simpl. lia.
Qed.

Lemma total_alter (d : Z) (i : nat) (zs : list Z) :
  (i < length zs)%nat → total (alter (λ z, z + d) i zs) = total zs + d.
Proof.
  unfold total. revert i.
  induction zs as [|z zs IH]; intros [|i] Hi; simpl in *; try lia.
  assert (foldr Z.add 0 (list_alter (λ z0, z0 + d) i zs)
          = foldr Z.add 0 zs + d) as -> by (apply IH; lia).
  lia.
Qed.

End WellFormed.

Section Invariant.

Lemma wf_init (g : Z) (n : nat) : (1 ≤ n)%nat → wf g n (createInitialState g n).
Proof.
  intros Hn. split; simpl; try done.
  - exists (replicate n 0). unfold ints. rewrite fmap_replicate, length_replicate.
    split_and!; [done..|]. rewrite map_size_empty.
    clear Hn. induction n; simpl; [done|]. unfold total in *. simpl. lia.
  - exists 0. split; [done|lia].
  - constructor.
  - by intros l ?%elem_of_nil.
  - intros k [? Hk]. by rewrite lookup_empty in Hk.
Qed.

Lemma wf_step (g : Z) (n : nat) (st : GameState) (line : input) (p : num)
    (st' : GameState) :
  wf g n st → applyMove st line p = Some st' → wf g n st'.
Proof.
  intros [Hg Hn (zs & Hzs & Hlen & Htot) (c & Hc & Hcn) Hset Hnd Hlines Hboxes].
  intros (l & _ & Hin & _ & Heq & Hfree & ->)%applyMove_Some.
  rewrite Hc in Heq. apply strictEq_Int in Heq as ->. rewrite Hg in Hin.
  rewrite <-lineToKey_normalizeLine in Hfree.
  set (nl := normalizeLine l) in *.
  destruct (successor_spec st nl (Int c)) as (b' & m & -> & Hsz & Hlk & _).
  split; simpl; try done.
  - exists (alter (λ z, z + Z.of_nat m) (Z.to_nat c) zs).
    rewrite Hzs, iter_incrementAt_ints, length_alter by lia.
    split_and!; [done..|]. rewrite total_alter, Htot, Hsz by lia. lia.
  - destruct (bool_decide (_ >= _)); [by eauto|].
    destruct (bool_decide (0 < m)%nat); [by eauto|].
    simpl. rewrite Hn, bool_decide_eq_false_2 by lia.
    eexists. split; [done|]. apply Z.rem_bound_pos; lia.
  - by rewrite Hset, fmap_app.
  - apply NoDup_app. split_and!; [done| |apply NoDup_singleton].
    intros k Hk ->%list_elem_of_singleton. done.
  - intros l' [?| ->%list_elem_of_singleton]%elem_of_app; [by auto|done].
  - intros k [v Hk]. rewrite Hlk in Hk.
    destruct (boxes st !! k) as [v'|] eqn:Hold.
    + destruct (Hboxes k) as (x & y & -> & ? & ? & Hcomp); [by eauto|].
      exists x, y. do 3 (split; [done|]).
      eapply isBoxComplete_mono; [|done]. set_solver.
    + case_bool_decide as Hk'; [|done].
      unfold completedBy in Hk'. rewrite Hg in Hk'.
      apply findCompletedBoxes_sound in Hk' as (x & y & -> & ? & ? & Hcomp & _);
        [|done].
      exists x, y. do 3 (split; [done|]).
      eapply isBoxComplete_mono; [|done]. set_solver.
Qed.

Lemma reachable_wf (g : Z) (n : nat) (st : GameState) :
  (1 ≤ n)%nat → reachable g n st → wf g n st.
Proof.
  intros Hn. induction 1 as [|st line p st' _ IH Hmove|st b _ IH].
  - by apply wf_init.
  - by eapply wf_step.
  - by destruct IH.
Qed.

(** The sizes [isValidGridSize] and [isValidPlayerCount] accept. *)
Lemma valid_sizes (g : Z) (n : nat) :
  isValidGridSize g = true → isValidPlayerCount (Z.of_nat n) = true →
  3 ≤ g ≤ 10 ∧ (2 ≤ n ≤ 4)%nat.
Proof.
  unfold isValidGridSize, isValidPlayerCount, MIN_GRID_SIZE, MAX_GRID_SIZE,
    MIN_PLAYERS, MAX_PLAYERS.
  rewrite !andb_true_iff, !bool_decide_eq_true. lia.
Qed.

End Invariant.

(** ** Rejection *)

Section Rejection.

Lemma applyMove_None (st : GameState) (line : input) (p : num) :
  applyMove st line p = None ↔ ∃ r, failsWith st line p r.
Proof.
  rewrite applyMove_unfold. split.
  - destruct (isValidLine _ _) eqn:Hv; simpl.
    2:{ intros _. exists GeometryInvalid. simpl.
        rewrite <-isValidLine_spec. congruence. }
    destruct (gameOver st) eqn:Hover; [by exists GameAlreadyOver|].
    destruct (Num.strictEq _ _) eqn:Hturn; simpl; [|by exists OutOfTurn].
    apply isValidLine_allLines in Hv as (l & Hl & _). rewrite Hl.
    case_bool_decide as Hk; [|done]. intros _. exists EdgeAlreadyDrawn.
    exists l. split; [done|].
    by rewrite lineToKey_normalizeLine, elem_of_list_to_set in Hk.
  - intros [[] Hr]; simpl in Hr.
    + rewrite <-isValidLine_spec in Hr.
      by destruct (isValidLine _ _).
    + destruct (isValidLine _ _); simpl; [|done].
      destruct (gameOver st); [done|]. by rewrite Hr.
    + destruct Hr as (l & Hl & Hk).
      destruct (isValidLine _ _); simpl; [|done].
      destruct (gameOver st); [done|].
      destruct (Num.strictEq _ _); simpl; [|done]. rewrite Hl.
      rewrite bool_decide_eq_true_2; [done|].
      by rewrite lineToKey_normalizeLine, elem_of_list_to_set.
    + destruct (isValidLine _ _); simpl; [|done]. by rewrite Hr.
Qed.

Lemma applyMove_accepts (st : GameState) (line : input) (p : num) :
  gameOver st = false →
  Num.strictEq (currentPlayer st) p = true →
  validEdge line (gridSize st) →
  (∀ l, asLine line = Some l → lineToKey l ∉ lineSet st) →
  ∃ st', applyMove st line p = Some st'.
Proof.
  intros Hover Hturn Hvalid Hfree.
  destruct (applyMove st line p) as [st'|] eqn:Hmove; [by eauto|].
  apply applyMove_None in Hmove as [[] Hr]; simpl in Hr; try congruence; try done.
  destruct Hr as (l & Hl & Hk). by destruct (Hfree l Hl).
Qed.

Lemma successor_withStarted (b : bool) (st : GameState) (nl : Line) (p : num) :
  successor (withStarted b st) nl p = withStarted b (successor st nl p).
Proof.
  unfold successor, completedBy. simpl. by destruct (foldl _ _ _) as [[? ?] ?].
Qed.

Lemma applyMove_withStarted (b : bool) (st : GameState) (line : input) (p : num) :
  applyMove (withStarted b st) line p = withStarted b <$> applyMove st line p.
Proof.
  rewrite !applyMove_unfold. simpl.
  destruct (isValidLine _ _); simpl; [|done].
  destruct (gameOver st); [done|].
  destruct (Num.strictEq _ _); simpl; [|done].
  destruct (asLine line); [|done].
  case_bool_decide; [done|]. simpl. by rewrite successor_withStarted.
Qed.

End Rejection.

(** C1: [applyMove] returns the rejection [null] exactly when the game is
    over, or the mover is not the current player, or the edge is not a
    valid edge of the grid (not four integers, off the grid, diagonal or
    longer than one unit), or its key is already drawn; when none of these
    holds it returns a successor state.  A drawn edge is also rejected when
    given in the reverse direction, and on a rejection the state the caller
    holds is the one it held before. *)
Theorem applyMove_rejects_exactly (st : GameState) (line : input) (p : num) :
  (applyMove st line p = None ↔
     gameOver st = true
     ∨ Num.strictEq (currentPlayer st) p = false
     ∨ ¬ validEdge line (gridSize st)
     ∨ ∃ l, asLine line = Some l ∧ lineToKey l ∈ lineSet st)
  ∧ ((∃ st', applyMove st line p = Some st') ↔
       gameOver st = false
       ∧ Num.strictEq (currentPlayer st) p = true
       ∧ validEdge line (gridSize st)
       ∧ ∀ l, asLine line = Some l → lineToKey l ∉ lineSet st)
  ∧ (∀ x1 y1 x2 y2,
       line = Arr [VInt x1; VInt y1; VInt x2; VInt y2] →
       lineToKey (x2, y2, x1, y1) ∈ lineSet st →
       applyMove st line p = None)
  ∧ (∀ l, line = ofLine (normalizeLine l) →
          applyMove st line p = None → makeLocalMove st l p = (false, st)).
Proof.
  assert (applyMove st line p = None ↔
     gameOver st = true
     ∨ Num.strictEq (currentPlayer st) p = false
     ∨ ¬ validEdge line (gridSize st)
     ∨ ∃ l, asLine line = Some l ∧ lineToKey l ∈ lineSet st) as Hnone.
  { rewrite applyMove_None. split.
    - intros [[] Hr]; simpl in Hr; auto.
    - intros [?|[?|[?|?]]];
        [by exists GameAlreadyOver|by exists OutOfTurn
        |by exists GeometryInvalid|by exists EdgeAlreadyDrawn]. }
  split_and!; [done| | |].
  - split.
    + intros [st' Hsome].
      assert (applyMove st line p ≠ None) as Hne by congruence.
      rewrite Hnone in Hne. split_and!.
      * destruct (gameOver st); [|done]. destruct Hne; auto.
      * destruct (Num.strictEq _ _); [done|]. destruct Hne; auto.
      * apply isValidLine_spec.
        destruct (isValidLine line (gridSize st)) eqn:Hv; [done|].
        destruct Hne. right; right; left. rewrite <-isValidLine_spec. congruence.
      * intros l Hl Hk. destruct Hne. right; right; right. eauto.
    + intros (Hover & Hturn & Hvalid & Hfree). by apply applyMove_accepts.
  - intros x1 y1 x2 y2 -> Hk. apply Hnone. right; right; right.
    exists (x1, y1, x2, y2). split; [done|]. by rewrite <-lineToKey_reverse.
  - intros l -> Hmove. unfold makeLocalMove. by rewrite Hmove.
Qed.

(** C6, as stated, fails: no reason can be read off the value [applyMove]
    returns on a rejection.  A move on a finished game and a move out of
    turn both return the same [null], although the first is only
    GameAlreadyOver and the second only OutOfTurn. *)
Lemma rejection_carries_no_reason :
  ¬ ∃ tag : option GameState → RejectReason,
      ∀ st line p,
        applyMove st line p = None →
        failsWith st line p (tag (applyMove st line p)).
Proof.
  intros [tag Htag].
  assert (applyMove board3Over topLeft (Int 0) = None) as Hover by reflexivity.
  assert (applyMove board3 topLeft (Int 1) = None) as Hturn by reflexivity.
  pose proof (Htag _ _ _ Hover) as H1. pose proof (Htag _ _ _ Hturn) as H2.
  rewrite Hover in H1. rewrite Hturn in H2.
  assert (validEdge topLeft 3) as Hvalid by (by apply isValidLine_spec).
  destruct (tag None); simpl in H1, H2; try done.
  destruct H1 as (l & _ & Hl). by apply elem_of_nil in Hl.
Qed.

(** C6, amended: a rejection is the one value [null] whatever its cause.
    Each of the four error classes makes [applyMove] return it, a returned
    [null] has at least one of the four as its cause, and any two
    rejections are the same value. *)
Theorem rejection_is_untagged (st : GameState) (line : input) (p : num) :
  (∀ r, failsWith st line p r → applyMove st line p = None)
  ∧ (applyMove st line p = None → ∃ r, failsWith st line p r)
  ∧ (∀ st2 line2 p2,
       applyMove st line p = None → applyMove st2 line2 p2 = None →
       applyMove st line p = applyMove st2 line2 p2).
Proof.
  split_and!.
  - intros r Hr. apply applyMove_None. eauto.
  - apply applyMove_None.
  - congruence.
Qed.

(** C10: [applyMove] does not read [started].  A move that passes the four
    checks on a game that has not been started is applied; the flag is
    copied to the result, and changing it changes nothing else.  The
    rejection of moves before the start is the handler's: [makeMove]
    answers GAME_NOT_STARTED. *)
Theorem applyMove_ignores_started (st : GameState) (line : input) (p : num) :
  started st = false →
  gameOver st = false →
  Num.strictEq (currentPlayer st) p = true →
  validEdge line (gridSize st) →
  (∀ l, asLine line = Some l → lineToKey l ∉ lineSet st) →
  (∃ st', applyMove st line p = Some st' ∧ started st' = false)
  ∧ (∀ b, applyMove (withStarted b st) line p
          = withStarted b <$> applyMove st line p)
  ∧ (∀ i, makeMove st line i = inl GAME_NOT_STARTED).
Proof.
  intros Hstarted Hover Hturn Hvalid Hfree. split_and!.
  - destruct (applyMove_accepts st line p) as [st' Hst']; [done..|].
    exists st'. split; [done|].
    apply applyMove_Some in Hst' as (l & _ & _ & _ & _ & _ & ->).
    destruct (successor_spec st (normalizeLine l) p) as (b' & m & -> & _). done.
  - intros b. apply applyMove_withStarted.
  - intros i. unfold makeMove. apply isValidLine_spec in Hvalid.
    by rewrite Hvalid, Hstarted.
Qed.

Lemma applyMove_ignores_started_witness :
  (∃ st', applyMove board3 topLeft (Int 0) = Some st' ∧ started st' = false)
  ∧ (∀ b, applyMove (withStarted b board3) topLeft (Int 0)
          = withStarted b <$> applyMove board3 topLeft (Int 0))
  ∧ (∀ i, makeMove board3 topLeft i = inl GAME_NOT_STARTED).
Proof.
  apply applyMove_ignores_started.
  - reflexivity.
  - reflexivity.
  - reflexivity.
  - apply isValidLine_spec. reflexivity.
  - intros l _ Hl. simpl in Hl. by apply elem_of_nil in Hl.
Defined.

(** ** Counting edges *)

Section Counting.

Lemma wf_keys_incl (g : Z) (n : nat) (st : GameState) :
  wf g n st → lineSet st ⊆+ lineToKey <$> allLines g.
Proof.
  intros Hwf. apply NoDup_submseteq; [apply Hwf|].
  intros k. rewrite (wf_lineSet _ _ _ Hwf).
  intros (l & -> & Hl)%list_elem_of_fmap.
  apply list_elem_of_fmap_2. by apply (wf_lines _ _ _ Hwf).
Qed.

Lemma wf_length (g : Z) (n : nat) (st : GameState) :
  wf g n st → length (lineSet st) = length (lines st).
Proof. intros Hwf. by rewrite (wf_lineSet _ _ _ Hwf), length_fmap. Qed.

Lemma allLines_empty (g : Z) : g ≤ 1 → allLines g = [].
Proof.
  intros Hg. destruct (allLines g) as [|l ls] eqn:Heq; [done|].
  assert (l ∈ allLines g) as Hl by (rewrite Heq; apply list_elem_of_here).
  apply elem_of_allLines in Hl as [(? & ? & _ & ? & ?)|(? & ? & _ & ? & ?)]; lia.
Qed.

(** No more edges are drawn than the grid has. *)
Lemma wf_count (g : Z) (n : nat) (st : GameState) :
  wf g n st → Z.of_nat (length (lines st)) ≤ totalPossibleLines g.
Proof.
  intros Hwf. pose proof (submseteq_length _ _ (wf_keys_incl _ _ _ Hwf)) as Hle.
  rewrite (wf_length _ _ _ Hwf), length_fmap in Hle.
  destruct (decide (1 ≤ g)) as [Hg|Hg].
  - rewrite <-length_allLines by done. lia.
  - rewrite allLines_empty in Hle by lia. simpl in Hle.
    unfold totalPossibleLines. nia.
Qed.

(** Once as many edges are drawn as the grid has, every edge is drawn. *)
Lemma wf_full (g : Z) (n : nat) (st : GameState) (l : Line) :
  wf g n st → 1 ≤ g →
  totalPossibleLines g ≤ Z.of_nat (length (lines st)) →
  l ∈ allLines g → lineToKey l ∈ lineSet st.
Proof.
  intros Hwf Hg Hfull Hl.
  assert (lineSet st ≡ₚ lineToKey <$> allLines g) as ->.
  { apply submseteq_length_Permutation; [by eapply wf_keys_incl|].
    rewrite (wf_length _ _ _ Hwf), length_fmap.
    rewrite <-length_allLines in Hfull by done. lia. }
  by apply list_elem_of_fmap_2.
Qed.

Lemma size_drawn (g : Z) (n : nat) (st : GameState) :
  wf g n st →
  size (list_to_set (lineSet st) : gset string) = length (lines st).
Proof.
  intros Hwf. rewrite size_list_to_set by apply Hwf. by eapply wf_length.
Qed.

Lemma reachable_gameOver (g : Z) (n : nat) (st : GameState) :
  2 ≤ g → reachable g n st →
  gameOver st
  = bool_decide (Z.of_nat (length (lines st)) >= totalPossibleLines (gridSize st)).
Proof.
  intros Hg. induction 1 as [|st line p st' _ IH Hmove|st b _ IH]; [| |done].
  - simpl. rewrite bool_decide_eq_false_2; [done|].
    unfold totalPossibleLines. nia.
  - apply applyMove_Some in Hmove as (l & _ & _ & _ & _ & _ & ->).
    by destruct (successor_spec st (normalizeLine l) p) as (b' & m & -> & _).
Qed.

End Counting.

(** C5: every state reached from [createInitialState] by successful moves
    (the session layer may set [started] in between) on a grid of at least
    two by two dots with at least one player, in particular on every grid
    and player count the validators accept, has integer scores that add up
    to the number of boxes with an owner, a current player in
    [0, playerCount), and is over exactly when the number of drawn edges
    is [totalPossibleLines]. *)
Theorem reachable_invariant (g : Z) (n : nat) (st : GameState) :
  2 ≤ g → (1 ≤ n)%nat → reachable g n st →
  (∃ zs, scores st = ints zs ∧ length zs = n
         ∧ total zs = Z.of_nat (size (boxes st)))
  ∧ (∃ c, currentPlayer st = Int c ∧ 0 ≤ c < Z.of_nat n)
  ∧ (gameOver st = true ↔
     Z.of_nat (size (list_to_set (lineSet st) : gset string))
     = totalPossibleLines g).
Proof.
  intros Hg Hn Hreach. pose proof (reachable_wf _ _ _ Hn Hreach) as Hwf.
  split_and!; [apply Hwf..|].
  rewrite (reachable_gameOver g n) by done.
  rewrite (size_drawn _ _ _ Hwf), (wf_gridSize _ _ _ Hwf), bool_decide_eq_true.
  pose proof (wf_count _ _ _ Hwf). lia.
Qed.

Lemma reachable_invariant_witness :
  (∃ zs, scores afterTopLeft = ints zs ∧ length zs = 2%nat
         ∧ total zs = Z.of_nat (size (boxes afterTopLeft)))
  ∧ (∃ c, currentPlayer afterTopLeft = Int c ∧ 0 ≤ c < Z.of_nat 2)
  ∧ (gameOver afterTopLeft = true ↔
     Z.of_nat (size (list_to_set (lineSet afterTopLeft) : gset string))
     = totalPossibleLines 3).
Proof.
  apply (reachable_invariant 3 2); [lia|lia|].
  apply (reachable_move 3 2 board3 topLeft (Int 0)); [apply reachable_init|].
  reflexivity.
Defined.

(** ** Boxes and their sides *)

Section Boxes.

Lemma elem_of_sides (x y : Z) (l : Line) :
  l ∈ sides x y ↔
  l = (x, y, x + 1, y) ∨ l = (x, y + 1, x + 1, y + 1)
  ∨ l = (x, y, x, y + 1) ∨ l = (x + 1, y, x + 1, y + 1).
Proof. unfold sides. rewrite !elem_of_cons, elem_of_nil. tauto. Qed.

Lemma sides_allLines (g x y : Z) (l : Line) :
  0 ≤ x < g - 1 → 0 ≤ y < g - 1 → l ∈ sides x y → l ∈ allLines g.
Proof.
  intros Hx Hy [-> | [-> | [-> | ->]]]%elem_of_sides; apply elem_of_allLines.
  - left. exists x, y. split; [done|lia].
  - left. exists x, (y + 1). split; [done|lia].
  - right. exists x, y. split; [done|lia].
  - right. exists (x + 1), y. split; [done|lia].
Qed.

Lemma sides_key_inj (g x y : Z) (l l' : Line) :
  0 ≤ x < g - 1 → 0 ≤ y < g - 1 → l ∈ sides x y → l' ∈ sides x y →
  lineToKey l = lineToKey l' → l = l'.
Proof. intros. eapply lineToKey_inj_allLines; eauto using sides_allLines. Qed.

(** A box with a side [a] that is not drawn, and whose other sides are,
    has three sides drawn. *)
Lemma countBoxSides_missing (x y : Z) (a : Line) (T : gset string) :
  a ∈ sides x y → lineToKey a ∉ T →
  (∀ l, l ∈ sides x y → l ≠ a → lineToKey l ∈ T) →
  countBoxSides x y T = 3.
Proof.
  intros Ha Hout Hin. unfold countBoxSides.
  assert (∀ l, l ∈ sides x y →
    bool_decide (lineToKey l ∈ T) = bool_decide (l ≠ a)) as Hdec.
  { intros l Hl. apply bool_decide_ext. split.
    - intros Hk ->. done.
    - by apply Hin. }
  rewrite !Hdec by (apply elem_of_sides; tauto).
  apply elem_of_sides in Ha as [-> | [-> | [-> | ->]]];
    repeat case_bool_decide; simpl;
    try (exfalso; match goal with H : ?t ≠ ?t |- _ => by apply H end);
    try (exfalso; match goal with
                  | H : (_, _, _, _) = (_, _, _, _) |- _ =>
                      injection H; intros; lia
                  end);
    done.
Qed.


(** In a well-formed state the box an undrawn edge borders has no owner. *)
Lemma wf_unowned (g : Z) (n : nat) (st : GameState) (x y : Z) (a : Line) :
  wf g n st → 0 ≤ x < g - 1 → 0 ≤ y < g - 1 → a ∈ sides x y →
  lineToKey a ∉ lineSet st → boxes st !! boxKey x y = None.
Proof.
  intros Hwf Hx Hy Ha Hout.
  destruct (boxes st !! boxKey x y) as [v|] eqn:Hk; [|done].
  destruct (wf_boxes _ _ _ Hwf (boxKey x y)) as (x' & y' & Heq & ? & ? & Hcomp);
    [by eauto|].
  apply boxKey_inj in Heq as [<- <-]; [|lia..].
  rewrite isBoxComplete_sides in Hcomp. specialize (Hcomp a Ha).
  by apply elem_of_list_to_set in Hcomp.
Qed.

Lemma newlyCompleted_nonempty (st : GameState) (nl : Line) :
  newlyCompleted st nl ≠ [] ↔
  ∃ k, k ∈ completedBy st nl ∧ boxes st !! k = None.
Proof.
  unfold newlyCompleted. split.
  - destruct (List.filter _ _) as [|k ks] eqn:Heq; [done|]. intros _.
    assert (In k (List.filter (λ k, bool_decide (boxes st !! k = None))
                    (completedBy st nl))) as Hk by (rewrite Heq; by left).
    apply filter_In in Hk as [Hk Hnone]. exists k.
    split; [by apply list_elem_of_In|by apply bool_decide_eq_true in Hnone].
  - intros (k & Hk & Hnone) Heq.
    assert (In k (List.filter (λ k, bool_decide (boxes st !! k = None))
                    (completedBy st nl))) as Hin.
    { apply filter_In. split; [by apply list_elem_of_In|].
      by apply bool_decide_eq_true. }
    by rewrite Heq in Hin.
Qed.

(** The turn after a successful move, on any state: the mover stays when
    the move ends the game or claims a box, else the turn passes on. *)
Lemma applyMove_turn (st : GameState) (line : input) (l : Line) (p : num)
    (st' : GameState) :
  applyMove st line p = Some st' → asLine line = Some l →
  currentPlayer st' =
  if gameOver st' then p
  else if bool_decide (newlyCompleted st (normalizeLine l) ≠ []) then p
  else Num.rem (Num.add p (Int 1)) (maxPlayers st).
Proof.
  intros (l0 & Hl0 & _ & _ & _ & _ & ->)%applyMove_Some Hl.
  assert (l0 = l) as -> by congruence.
  pose proof (newlyCompleted_nonempty st (normalizeLine l)) as Hnew.
  destruct (successor_spec st (normalizeLine l) p)
    as (b' & m & -> & _ & _ & Hpos & _).
  simpl. destruct (bool_decide (_ >= _)); [done|].
  repeat case_bool_decide; try done; tauto.
Qed.

(** The edge that fills the grid completes a box that had no owner. *)
Lemma final_edge_completes (g : Z) (n : nat) (st : GameState) (nl : Line) :
  wf g n st → nl ∈ allLines g → lineToKey nl ∉ lineSet st →
  totalPossibleLines g ≤ Z.of_nat (length (lines st ++ [nl])) →
  ∃ k, k ∈ completedBy st nl ∧ boxes st !! k = None.
Proof.
  intros Hwf Hnl Hout Hfull.
  assert (∀ x y, 0 ≤ x < g - 1 → 0 ≤ y < g - 1 →
    isBoxComplete x y ({[lineToKey nl]} ∪ list_to_set (lineSet st)) = true)
    as Hcomplete.
  { intros x y Hx Hy. apply isBoxComplete_sides. intros l Hl.
    pose proof (sides_allLines g x y l Hx Hy Hl) as Hl'.
    destruct (decide (lineToKey l = lineToKey nl)) as [->|Hne]; [set_solver|].
    apply elem_of_union_r, elem_of_list_to_set.
    (* the state with [nl] drawn is full *)
    assert (lineToKey <$> (lines st ++ [nl]) ≡ₚ lineToKey <$> allLines g) as Hperm.
    { apply submseteq_length_Permutation.
      - apply NoDup_submseteq.
        + rewrite fmap_app, <-(wf_lineSet _ _ _ Hwf). apply NoDup_app.
          split_and!; [apply Hwf| |apply NoDup_singleton].
          by intros k Hk ->%list_elem_of_singleton.
        + intros k (l0 & -> & Hl0)%list_elem_of_fmap. apply list_elem_of_fmap_2.
          apply elem_of_app in Hl0 as [?| ->%list_elem_of_singleton]; [|done].
          by apply (wf_lines _ _ _ Hwf).
      - rewrite !length_fmap.
        assert (1 ≤ g) as Hg by lia.
        pose proof (length_allLines g Hg). lia. }
    assert (lineToKey l ∈ lineToKey <$> (lines st ++ [nl])) as Hin.
    { rewrite Hperm. by apply list_elem_of_fmap_2. }
    rewrite fmap_app, <-(wf_lineSet _ _ _ Hwf) in Hin.
    apply elem_of_app in Hin as [?|Hin]; [done|].
    by apply list_elem_of_singleton in Hin. }
  unfold completedBy. rewrite (wf_gridSize _ _ _ Hwf).
  apply elem_of_allLines in Hnl as Hcases.
  destruct Hcases as [(x & y & -> & Hy & Hx)|(x & y & -> & Hy & Hx)].
  - rewrite findCompletedBoxes_horizontal.
    destruct (decide (y < g - 1)) as [Hlt|Hge].
    + exists (boxKey x y). split.
      * apply elem_of_app. right.
        rewrite bool_decide_eq_true_2, Hcomplete by lia. apply list_elem_of_here.
      * eapply (wf_unowned g n st x y); [done|lia|lia| |done].
        apply elem_of_sides. tauto.
    + exists (boxKey x (y - 1)). split.
      * apply elem_of_app. left.
        rewrite bool_decide_eq_true_2, Hcomplete by lia. apply list_elem_of_here.
      * eapply (wf_unowned g n st x (y - 1)); [done|lia|lia| |done].
        apply elem_of_sides. replace (y - 1 + 1) with y by lia. tauto.
  - rewrite findCompletedBoxes_vertical.
    destruct (decide (x < g - 1)) as [Hlt|Hge].
    + exists (boxKey x y). split.
      * apply elem_of_app. right.
        rewrite bool_decide_eq_true_2, Hcomplete by lia. apply list_elem_of_here.
      * eapply (wf_unowned g n st x y); [done|lia|lia| |done].
        apply elem_of_sides. tauto.
    + exists (boxKey (x - 1) y). split.
      * apply elem_of_app. left.
        rewrite bool_decide_eq_true_2, Hcomplete by lia. apply list_elem_of_here.
      * eapply (wf_unowned g n st (x - 1) y); [done|lia|lia| |done].
        apply elem_of_sides. replace (x - 1 + 1) with x by lia. tauto.
Qed.

End Boxes.

Lemma reachable_threeSides : reachable 2 2 threeSides.
Proof.
  apply (reachable_move 2 2 twoSides (Arr [VInt 0; VInt 0; VInt 0; VInt 1]) (Int 0));
    [|reflexivity].
  apply (reachable_move 2 2 oneSide (Arr [VInt 0; VInt 1; VInt 1; VInt 1]) (Int 1));
    [|reflexivity].
  apply (reachable_move 2 2 board2 (Arr [VInt 0; VInt 0; VInt 1; VInt 0]) (Int 0));
    [|reflexivity].
  apply reachable_init.
Defined.

(** C2: in a game with at least two players, after every successful move
    the current player is the mover exactly when the move newly completed
    at least one box, and is [(mover + 1) mod playerCount] otherwise.  The
    move that draws the last edge is no exception: it always completes a
    box, so the mover [applyMove] keeps on a finished game is the player
    the rule names. *)
Theorem turn_retention (g : Z) (n : nat) (st : GameState) (line : input)
    (l : Line) (p : num) (st' : GameState) :
  (2 ≤ n)%nat → reachable g n st →
  applyMove st line p = Some st' → asLine line = Some l →
  (currentPlayer st' = p ↔ newlyCompleted st (normalizeLine l) ≠ [])
  ∧ (newlyCompleted st (normalizeLine l) = [] →
     ∃ c, p = Int c ∧ currentPlayer st' = Int ((c + 1) mod Z.of_nat n)).
Proof.
  intros Hn Hreach Hmove Hl.
  assert (wf g n st) as Hwf by (apply reachable_wf; [lia|done]).
  apply applyMove_Some in Hmove as (l0 & Hl0 & Hin & _ & Heq & Hfree & ->).
  assert (l0 = l) as -> by congruence.
  destruct (wf_current _ _ _ Hwf) as (c & Hc & Hcn).
  rewrite Hc in Heq. apply strictEq_Int in Heq as ->.
  rewrite (wf_gridSize _ _ _ Hwf) in Hin.
  rewrite <-lineToKey_normalizeLine in Hfree.
  set (nl := normalizeLine l) in *.
  rewrite newlyCompleted_nonempty.
  destruct (successor_spec st nl (Int c)) as (b' & m & -> & _ & _ & Hpos & _).
  simpl. rewrite (wf_gridSize _ _ _ Hwf), (wf_maxPlayers _ _ _ Hwf).
  case_bool_decide as Hover.
  - assert (∃ k, k ∈ completedBy st nl ∧ boxes st !! k = None) as Hbox.
    { eapply final_edge_completes; [done..|lia]. }
    split; [done|]. intros Hnil. exfalso.
    by apply (newlyCompleted_nonempty st nl).
  - rewrite <-Hpos. case_bool_decide as Hm.
    + split; [done|]. intros Hnil. exfalso.
      apply Hpos in Hm. by apply (newlyCompleted_nonempty st nl).
    + simpl. rewrite bool_decide_eq_false_2 by lia.
      rewrite Z.rem_mod_nonneg by lia.
      assert ((c + 1) mod Z.of_nat n ≠ c) as Hne.
      { destruct (decide (c + 1 < Z.of_nat n)).
        - rewrite Z.mod_small by lia. lia.
        - replace (c + 1) with (Z.of_nat n) by lia.
          rewrite Z.mod_same by lia. lia. }
      split.
      * split; [intros [= ?]; lia|lia].
      * intros _. by exists c.
Qed.

Lemma turn_retention_witness :
  (currentPlayer boxClosed = Int 1
   ↔ newlyCompleted threeSides (normalizeLine (1, 0, 1, 1)) ≠ [])
  ∧ (newlyCompleted threeSides (normalizeLine (1, 0, 1, 1)) = [] →
     ∃ c, Int 1 = Int c ∧ currentPlayer boxClosed = Int ((c + 1) mod Z.of_nat 2)).
Proof.
  apply (turn_retention 2 2 threeSides rightSide (1, 0, 1, 1) (Int 1) boxClosed).
  - lia.
  - apply reachable_threeSides.
  - reflexivity.
  - reflexivity.
Defined.

(** ** The winner *)

Section Winner.

Lemma mathMax_ints (zs : list Z) :
  zs ≠ [] →
  ∃ M, mathMax (ints zs) = Int M ∧ M ∈ zs ∧ ∀ v, v ∈ zs → v ≤ M.
Proof.
  induction zs as [|z zs IH]; [done|]. intros _.
  destruct zs as [|z' zs].
  - exists z. split_and!; [done|apply list_elem_of_here|].
    intros v ->%list_elem_of_singleton. lia.
  - destruct IH as (M & HM & Hin & Hmax); [done|].
    change (mathMax (ints (z :: z' :: zs)))
      with (Num.max (Int z) (mathMax (ints (z' :: zs)))).
    rewrite HM. simpl. case_bool_decide.
    + exists M. split_and!; [done|by apply list_elem_of_further|].
      intros v [->|?]%elem_of_cons; [lia|by apply Hmax].
    + exists z. split_and!; [done|apply list_elem_of_here|].
      intros v [->|Hv]%elem_of_cons; [lia|]. specialize (Hmax v Hv). lia.
Qed.

Lemma filter_two {A} (f : A → bool) (l : list A) :
  (1 < length (List.filter f l))%nat →
  ∃ i j a b, i ≠ j ∧ l !! i = Some a ∧ l !! j = Some b
             ∧ f a = true ∧ f b = true.
Proof.
  induction l as [|x l IH]; simpl; [lia|].
  destruct (f x) eqn:Hx; simpl.
  - intros Hlen. destruct (List.filter f l) as [|b bs] eqn:Hfl; simpl in Hlen; [lia|].
    assert (In b (List.filter f l)) as Hb by (rewrite Hfl; by left).
    apply filter_In in Hb as [Hb Hfb].
    apply list_elem_of_In, list_elem_of_lookup in Hb as [j Hj].
    exists 0%nat, (S j), x, b. by split_and!.
  - intros Hlen. destruct (IH Hlen) as (i & j & a & b & ? & ? & ? & ? & ?).
    exists (S i), (S j), a, b. split_and!; try done. lia.
Qed.

Lemma filter_le_one {A} (f : A → bool) (l : list A) (i j : nat) (a b : A) :
  (length (List.filter f l) ≤ 1)%nat →
  l !! i = Some a → l !! j = Some b → f a = true → f b = true → i = j.
Proof.
  revert i j. induction l as [|x l IH]; intros i j Hlen Hi Hj Ha Hb; [done|].
  assert (∀ k c, l !! k = Some c → f c = true →
                 (0 < length (List.filter f l))%nat) as Hpos.
  { intros k c Hk Hc.
    assert (In c (List.filter f l)) as Hin.
    { apply filter_In. split; [|done].
      apply list_elem_of_In, list_elem_of_lookup. eauto. }
    destruct (List.filter f l); simpl; [done|lia]. }
  simpl in Hlen. destruct i as [|i], j as [|j]; simpl in Hi, Hj; [done| | |].
  - injection Hi as ->. rewrite Ha in Hlen. simpl in Hlen.
    specialize (Hpos j b Hj Hb). lia.
  - injection Hj as ->. rewrite Hb in Hlen. simpl in Hlen.
    specialize (Hpos i a Hi Ha). lia.
  - f_equal. apply IH; try done. destruct (f x); simpl in Hlen; lia.
Qed.

Lemma slotIs_ints (M z : Z) :
  slotIs (Int M) (Some (Int z)) = true ↔ z = M.
Proof. simpl. apply bool_decide_eq_true. Qed.

Lemma indexOfFrom_ints (s M : Z) (zs : list Z) :
  M ∈ zs →
  ∃ i, indexOfFrom s (Int M) (ints zs) = s + Z.of_nat i ∧ zs !! i = Some M.
Proof.
  revert s. induction zs as [|z zs IH]; intros s Hin; [by apply elem_of_nil in Hin|].
  change (indexOfFrom s (Int M) (ints (z :: zs)))
    with (if slotIs (Int M) (Some (Int z)) then s
          else indexOfFrom (s + 1) (Int M) (ints zs)).
  destruct (slotIs _ _) eqn:Hz.
  - apply slotIs_ints in Hz as ->. exists 0%nat. split; [lia|done].
  - apply elem_of_cons in Hin as [->|Hin].
    + assert (slotIs (Int z) (Some (Int z)) = true) by by apply slotIs_ints.
      congruence.
    + destruct (IH (s + 1) Hin) as (i & -> & Hi). exists (S i). split; [lia|done].
Qed.

Lemma ints_lookup (zs : list Z) (i : nat) (a : option num) :
  ints zs !! i = Some a → ∃ z, a = Some (Int z) ∧ zs !! i = Some z.
Proof.
  unfold ints. rewrite list_lookup_fmap.
  destruct (zs !! i) as [z|]; simpl; [|done]. intros [= <-]. eauto.
Qed.

Lemma determineWinner_spec (zs : list Z) :
  zs ≠ [] → winnerSpec zs (determineWinner (ints zs)).
Proof.
  intros Hne. destruct (mathMax_ints zs Hne) as (M & HM & Hin & Hmax).
  assert (∀ k v, zs !! k = Some v → v ≤ M) as Hmax'.
  { intros k v Hk. apply Hmax. by eapply list_elem_of_lookup_2. }
  unfold determineWinner. rewrite HM. case_bool_decide as Hlen.
  - apply filter_two in Hlen as (i & j & a & b & Hij & Hi & Hj & Ha & Hb).
    apply ints_lookup in Hi as (zi & -> & Hi), Hj as (zj & -> & Hj).
    apply slotIs_ints in Ha as ->, Hb as ->.
    simpl. exists i, j, M. by split_and!.
  - destruct (indexOfFrom_ints 0 M zs Hin) as (i & Hidx & Hi).
    unfold indexOf. rewrite Hidx. simpl. split; [lia|].
    exists M. rewrite Z.add_0_l, Nat2Z.id. split; [done|].
    intros j v Hij Hj. specialize (Hmax' j v Hj).
    destruct (decide (v = M)) as [->|]; [|lia]. destruct Hij.
    apply (filter_le_one (slotIs (Int M)) (ints zs) j i (Some (Int M)) (Some (Int M)));
      [lia| | |by apply slotIs_ints..];
      unfold ints; rewrite list_lookup_fmap; by (rewrite Hj || rewrite Hi).
Qed.

End Winner.

(** C4: in a game with at least one player, after a successful move the
    game is over and the winner computed exactly when the number of drawn
    edges is [totalPossibleLines]: the winner is then the index of the
    player whose score is strictly the highest, or [null] when two or more
    players share the highest score; with fewer edges drawn the game is
    not over and the winner is [null]. *)
Theorem terminal_check (g : Z) (n : nat) (st : GameState) (line : input)
    (p : num) (st' : GameState) :
  (1 ≤ n)%nat → reachable g n st → applyMove st line p = Some st' →
  let drawn := Z.of_nat (size (list_to_set (lineSet st') : gset string)) in
  (drawn = totalPossibleLines (gridSize st') →
   gameOver st' = true
   ∧ ∃ zs, scores st' = ints zs ∧ winnerSpec zs (winner st'))
  ∧ (drawn ≠ totalPossibleLines (gridSize st') →
     gameOver st' = false ∧ winner st' = None).
Proof.
  intros Hn Hreach Hmove drawn.
  assert (wf g n st') as Hwf'.
  { apply reachable_wf; [done|]. by eapply reachable_move. }
  pose proof (wf_count _ _ _ Hwf') as Hcount.
  destruct (wf_scores _ _ _ Hwf') as (zs & Hzs & Hlen & _).
  assert (zs ≠ []) as Hne by (destruct zs; simpl in *; [lia|done]).
  subst drawn. rewrite (size_drawn _ _ _ Hwf'), (wf_gridSize _ _ _ Hwf').
  revert Hcount Hzs. clear Hwf'.
  apply applyMove_Some in Hmove as (l & _ & _ & _ & _ & _ & ->).
  destruct (successor_spec st (normalizeLine l) p) as (b' & m & -> & _).
  simpl. intros Hcount Hzs.
  assert (gridSize st = g) as Hg.
  { apply (wf_gridSize g n). apply reachable_wf; [done|done]. }
  rewrite Hg in *. split.
  - intros Heq. rewrite bool_decide_eq_true_2 by lia. split; [done|].
    exists zs. split; [done|]. rewrite Hzs. by apply determineWinner_spec.
  - intros Hneq. by rewrite bool_decide_eq_false_2 by lia.
Qed.

Lemma terminal_check_witness :
  let drawn := Z.of_nat (size (list_to_set (lineSet boxClosed) : gset string)) in
  (drawn = totalPossibleLines (gridSize boxClosed) →
   gameOver boxClosed = true
   ∧ ∃ zs, scores boxClosed = ints zs ∧ winnerSpec zs (winner boxClosed))
  ∧ (drawn ≠ totalPossibleLines (gridSize boxClosed) →
     gameOver boxClosed = false ∧ winner boxClosed = None).
Proof.
  apply (terminal_check 2 2 threeSides rightSide (Int 1) boxClosed).
  - lia.
  - apply reachable_threeSides.
  - reflexivity.
Defined.

(** ** Claiming boxes *)

Section Claiming.





Lemma later_owner (st st' : GameState) (k : string) (v : num) :
  later st st' → boxes st !! k = Some v → boxes st' !! k = Some v.
Proof.
  induction 1 as [|st st' line p st'' _ IH Hmove]; [done|]. intros Hk.
  apply applyMove_Some in Hmove as (l & _ & _ & _ & _ & _ & ->).
  destruct (successor_spec st' (normalizeLine l) p) as (b' & m & -> & _ & Hlk & _).
  simpl. by rewrite Hlk, (IH Hk).
Qed.




End Claiming.



(** ** Available moves *)

Section Available.

Lemma elem_of_getAvailableLines (st : GameState) (a : Line) :
  a ∈ getAvailableLines st ↔
  a ∈ allLines (gridSize st) ∧ lineToKey a ∉ lineSet st.
Proof.
  rewrite getAvailableLines_filter, list_elem_of_In, filter_In, <-list_elem_of_In.
  unfold isFree. rewrite negb_true_iff, bool_decide_eq_false, elem_of_list_to_set.
  done.
Qed.

(** A simulated move [applyMove(state, normalizeLine(line),
    state.currentPlayer)] on an available edge of a game that is not over
    succeeds. *)
Lemma available_move (g : Z) (n : nat) (st : GameState) (a : Line) :
  wf g n st → gameOver st = false → a ∈ getAvailableLines st →
  applyMove st (ofLine (normalizeLine a)) (currentPlayer st)
  = Some (successor st a (currentPlayer st)).
Proof.
  intros Hwf Hover [Ha Hfree]%elem_of_getAvailableLines.
  rewrite (wf_gridSize _ _ _ Hwf) in Ha.
  rewrite (allLines_normal g a Ha).
  apply applyMove_Some. exists a. destruct a as [[[x1 y1] x2] y2].
  split_and!; try done.
  - by rewrite (allLines_normal g _ Ha), (wf_gridSize _ _ _ Hwf).
  - destruct (wf_current _ _ _ Hwf) as (c & -> & _). simpl.
    by apply bool_decide_eq_true.
  - by rewrite (allLines_normal g _ Ha).
Qed.

(** While an edge is available the game is not over. *)
Lemma reachable_not_over (g : Z) (n : nat) (st : GameState) (a : Line) :
  (1 ≤ n)%nat → reachable g n st → a ∈ getAvailableLines st →
  gameOver st = false.
Proof.
  intros Hn Hreach [Ha Hfree]%elem_of_getAvailableLines.
  pose proof (reachable_wf _ _ _ Hn Hreach) as Hwf.
  rewrite (wf_gridSize _ _ _ Hwf) in Ha.
  assert (2 ≤ g) as Hg.
  { apply elem_of_allLines in Ha as [(? & ? & _ & ? & ?)|(? & ? & _ & ? & ?)]; lia. }
  rewrite (reachable_gameOver g n) by done.
  apply bool_decide_eq_false. intros Hfull. apply Hfree.
  rewrite (wf_gridSize _ _ _ Hwf) in Hfull.
  apply (wf_full g n); [done|lia|lia|done].
Qed.

End Available.

(** ** The greedy strategy *)

Section Greedy.

Lemma createsDanger_spec (st : GameState) (S : gset string) (a : Line) :
  createsDanger st S a = true ↔
  ∃ x y, 0 ≤ x < gridSize st - 1 ∧ 0 ≤ y < gridSize st - 1
         ∧ countBoxSides x y ({[lineToKey a]} ∪ S) = 3
         ∧ boxes st !! boxKey x y = None.
Proof.
  unfold createsDanger. rewrite lineToKey_normalizeLine, existsb_exists. split.
  - intros (y & Hy%list_elem_of_In%elem_of_seqZ & Hex).
    apply existsb_exists in Hex as (x & Hx%list_elem_of_In%elem_of_seqZ & Hxy).
    apply andb_true_iff in Hxy as [H3%bool_decide_eq_true Hn%bool_decide_eq_true].
    exists x, y. split_and!; try done; lia.
  - intros (x & y & Hx & Hy & H3 & Hn). exists y. split.
    + apply list_elem_of_In, elem_of_seqZ. lia.
    + apply existsb_exists. exists x. split.
      * apply list_elem_of_In, elem_of_seqZ. lia.
      * apply andb_true_iff. by rewrite !bool_decide_eq_true.
Qed.

Lemma countBoxSides_complete (x y : Z) (S : gset string) :
  isBoxComplete x y S = true → countBoxSides x y S = 4.
Proof.
  unfold isBoxComplete, countBoxSides. rewrite !andb_true_iff.
  intros (((-> & ->) & ->) & ->). done.
Qed.

(** The scan of [mediumAI] decides safety. *)
Lemma safeMove_code (g : Z) (n : nat) (st : GameState) (a : Line) :
  wf g n st → gameOver st = false → a ∈ getAvailableLines st →
  safeMove st a ↔ createsDanger st (list_to_set (lineSet st)) a = false.
Proof.
  intros Hwf Hover Ha. unfold safeMove.
  rewrite (available_move g n st a Hwf Hover Ha).
  apply elem_of_getAvailableLines in Ha as Ha'. destruct Ha' as [Hin Hfree].
  rewrite (wf_gridSize _ _ _ Hwf) in Hin.
  assert (leavesDanger (successor st a (currentPlayer st))
          ↔ createsDanger st (list_to_set (lineSet st)) a = true) as Hiff.
  { rewrite createsDanger_spec. unfold leavesDanger.
    destruct (successor_spec st a (currentPlayer st))
      as (b' & m & -> & _ & Hlk & _). simpl.
    rewrite (list_to_set_app_L (C:=gset string)), list_to_set_singleton_L.
    rewrite (union_comm_L (list_to_set (lineSet st))).
    apply exist_proper; intros x. apply exist_proper; intros y.
    split.
    - intros (Hx & Hy & H3 & Hnone). do 3 (split; [done|]).
      rewrite Hlk in Hnone. by destruct (boxes st !! _).
    - intros (Hx & Hy & H3 & Hnone). do 3 (split; [done|]).
      rewrite Hlk, Hnone. rewrite bool_decide_eq_false_2; [done|].
      intros Hk. unfold completedBy in Hk. rewrite (wf_gridSize _ _ _ Hwf) in *.
      apply findCompletedBoxes_sound in Hk
        as (x' & y' & Heq & ? & ? & Hcomp & _); [|done].
      apply boxKey_inj in Heq as [<- <-]; [|lia..].
      apply countBoxSides_complete in Hcomp. lia. }
  split.
  - intros (_ & st' & [= <-] & Hsafe).
    destruct (createsDanger _ _ _) eqn:Hd; [|done]. destruct Hsafe. by apply Hiff.
  - intros Hsafe. split; [done|]. eexists. split; [done|].
    intros Hd%Hiff. congruence.
Qed.

(** What [mediumAI] returns, in terms of its own scan: an available edge,
    and one the scan finds harmless as soon as it finds any edge
    harmless. *)
Lemma mediumAI_code (rnd : nat → nat) (g : Z) (n : nat) (st : GameState)
    (s mv : Line) :
  wf g n st → s ∈ getAvailableLines st →
  createsDanger st (list_to_set (lineSet st)) s = false →
  mediumAI rnd st = Some mv →
  mv ∈ getAvailableLines st
  ∧ createsDanger st (list_to_set (lineSet st)) mv = false.
Proof.
  intros Hwf Hs Hsafe. unfold mediumAI.
  rewrite bool_decide_eq_false_2
    by (destruct (getAvailableLines st); [by apply elem_of_nil in Hs|done]).
  set (S := list_to_set (lineSet st) : gset string) in *.
  destruct (find _ _) as [a|] eqn:Hfind.
  - intros [= <-]. apply find_some in Hfind as [Hin%list_elem_of_In Hcomp].
    split; [done|].
    apply elem_of_getAvailableLines in Hin as [Ha Hfree].
    rewrite (wf_gridSize _ _ _ Hwf) in Ha.
    unfold completesBox in Hcomp.
    rewrite (allLines_normal g a Ha), (wf_gridSize _ _ _ Hwf) in Hcomp.
    apply bool_decide_eq_true in Hcomp.
    destruct (findCompletedBoxes a g _) as [|k ks] eqn:Hk; simpl in Hcomp; [lia|].
    assert (k ∈ findCompletedBoxes a g ({[lineToKey a]} ∪ S)) as Hk'
      by (rewrite Hk; apply list_elem_of_here).
    apply findCompletedBoxes_sound in Hk'
      as (x & y & _ & Hx & Hy & Hbox & Hside); [|done].
    pose proof (wf_unowned g n st x y a Hwf Hx Hy Hside Hfree) as Hnone.
    destruct (decide (lineToKey s = lineToKey a)) as [Hkey|Hkey].
    + destruct (createsDanger st S a) eqn:Hd; [|done].
      apply createsDanger_spec in Hd. rewrite <-Hkey in Hd.
      apply createsDanger_spec in Hd. congruence.
    + assert (createsDanger st S s = true) as Hd; [|congruence].
      apply createsDanger_spec. exists x, y.
      rewrite (wf_gridSize _ _ _ Hwf). do 2 (split; [done|]). split; [|done].
      apply (countBoxSides_missing x y a); [done| |].
      * rewrite elem_of_union, elem_of_singleton.
        intros [?|?%elem_of_list_to_set]; [congruence|done].
      * intros l Hl Hne. apply elem_of_union_r.
        rewrite isBoxComplete_sides in Hbox. specialize (Hbox l Hl).
        apply elem_of_union in Hbox as [Heq%elem_of_singleton|?]; [|done].
        destruct Hne. exact (sides_key_inj g x y l a Hx Hy Hl Hside Heq).
  - set (safeMoves := List.filter _ _).
    assert (In s safeMoves) as Hin.
    { apply filter_In. split; [by apply list_elem_of_In|]. by rewrite Hsafe. }
    rewrite bool_decide_eq_true_2
      by (destruct safeMoves; [by destruct Hin|simpl; lia]).
    intros Hmv%list_elem_of_lookup_2%list_elem_of_In.
    apply filter_In in Hmv as [Hmv Hd]. split; [by apply list_elem_of_In|].
    by apply negb_true_iff in Hd.
Qed.

Lemma mediumAI_returns (rnd : nat → nat) (st : GameState) :
  (∀ k, (0 < k)%nat → (rnd k < k)%nat) → getAvailableLines st ≠ [] →
  ∃ mv, mediumAI rnd st = Some mv.
Proof.
  intros Hrnd Hne. unfold mediumAI.
  rewrite bool_decide_eq_false_2
    by (destruct (getAvailableLines st); [done|simpl; lia]).
  destruct (find _ _) as [a|]; [by eauto|].
  case_bool_decide as Hlen.
  - apply lookup_lt_is_Some_2. by apply Hrnd.
  - apply lookup_lt_is_Some_2. apply Hrnd.
    destruct (getAvailableLines st); [done|simpl; lia].
Qed.

End Greedy.

(** C9: in a game with at least one player, in every state in which some
    safe move exists, every move the greedy strategy returns is safe,
    whatever indices the random source picks; so an unsafe move is
    returned only when no safe move exists.  With a random source that
    picks an index inside the array, a move is returned. *)
Theorem greedy_never_unsafe (rnd : nat → nat) (g : Z) (n : nat)
    (st : GameState) :
  (1 ≤ n)%nat → reachable g n st → (∃ s, safeMove st s) →
  (∀ mv, mediumAI rnd st = Some mv → safeMove st mv)
  ∧ ((∀ k, (0 < k)%nat → (rnd k < k)%nat) → ∃ mv, mediumAI rnd st = Some mv).
Proof.
  intros Hn Hreach [s Hs]. pose proof (reachable_wf _ _ _ Hn Hreach) as Hwf.
  assert (s ∈ getAvailableLines st) as Hin by apply Hs.
  pose proof (reachable_not_over _ _ _ s Hn Hreach Hin) as Hover.
  apply (safeMove_code g n st s Hwf Hover Hin) in Hs.
  split.
  - intros mv Hmv.
    destruct (mediumAI_code rnd g n st s mv Hwf Hin Hs Hmv) as [Hmv' Hsafe].
    by apply (safeMove_code g n st mv Hwf Hover Hmv').
  - intros Hrnd. apply mediumAI_returns; [done|].
    intros Hnil. rewrite Hnil in Hin. by apply elem_of_nil in Hin.
Qed.

Lemma greedy_never_unsafe_witness :
  (∀ mv, mediumAI (λ _, 0%nat) board2 = Some mv → safeMove board2 mv)
  ∧ ((∀ k, (0 < k)%nat → ((λ _, 0%nat) k < k)%nat) →
     ∃ mv, mediumAI (λ _, 0%nat) board2 = Some mv).
Proof.
  apply (greedy_never_unsafe (λ _, 0%nat) 2 2 board2).
  - lia.
  - apply reachable_init.
  - exists (0, 0, 1, 0). split; [vm_compute; apply list_elem_of_here|].
    exists oneSide. split; [reflexivity|].
    intros (x & y & Hx & Hy & H3 & _).
    change (gridSize oneSide) with 2 in Hx, Hy.
    assert (x = 0) as -> by lia. assert (y = 0) as -> by lia.
    vm_compute in H3. discriminate.
Defined.

(** ** The minimax strategy: values *)

Section Values.

Lemma sumOthersFrom_ints (i ai s : Z) (zs : list Z) :
  ∃ v, sumOthersFrom i ai (Int s) (ints zs) = Int v.
Proof.
  revert i s. induction zs as [|z zs IH]; intros i s; [by eexists|].
  change (sumOthersFrom i ai (Int s) (ints (z :: zs)))
    with (sumOthersFrom (i + 1) ai
            (if bool_decide (i ≠ ai) then Num.add (Int s) (Int z) else Int s)
            (ints zs)).
  case_bool_decide; apply IH.
Qed.

Lemma evaluate_Int (g : Z) (n : nat) (st : GameState) (ai : Z) :
  wf g n st → 0 ≤ ai < Z.of_nat n → ∃ v, evaluate st ai = Int v.
Proof.
  intros Hwf Hai. destruct (wf_scores _ _ _ Hwf) as (zs & Hzs & Hlen & _).
  unfold evaluate, readAt. rewrite Hzs, bool_decide_eq_false_2 by lia.
  destruct (sumOthersFrom_ints 0 ai 0 zs) as (v & ->).
  unfold ints. rewrite list_lookup_fmap.
  destruct (zs !! Z.to_nat ai) as [z|] eqn:Hz.
  - simpl. by eexists.
  - apply lookup_ge_None in Hz. lia.
Qed.

Section LoopValues.

Variable recur : GameState → num → num → bool → num.
Variable st : GameState.
Variable ai : Z.
Variable good : GameState → Prop.
Hypothesis recur_Int : ∀ st' a b m, good st' → ∃ v, recur st' a b m = Int v.

Lemma maxLoop_Int (avail : list Line) (alpha beta acc : num) :
  (∀ a, a ∈ avail →
        ∃ st', applyMove st (ofLine (normalizeLine a)) (currentPlayer st)
               = Some st' ∧ good st') →
  (acc = NegInf ∧ avail ≠ [] ∨ ∃ v, acc = Int v) →
  ∃ v, maxLoop recur st ai avail alpha beta acc = Int v.
Proof.
  revert alpha beta acc.
  induction avail as [|a rest IH]; intros alpha beta acc Hmoves Hacc.
  - destruct Hacc as [[_ ?]|?]; done.
  - simpl. destruct (Hmoves a) as (st' & -> & Hgood); [apply list_elem_of_here|].
    destruct (recur_Int st' alpha beta
                (Num.strictEq (currentPlayer st') (Int ai)) Hgood) as (e & ->).
    assert (∃ v, Num.max acc (Int e) = Int v) as (v & Hv).
    { destruct Hacc as [[-> _]|(b & ->)]; simpl; [by eexists|].
      case_bool_decide; by eexists. }
    rewrite Hv. destruct (Num.le _ _); [by eexists|].
    apply IH; [|by eauto].
    intros a' Ha'. apply Hmoves. by apply list_elem_of_further.
Qed.

Lemma minLoop_Int (avail : list Line) (alpha beta acc : num) :
  (∀ a, a ∈ avail →
        ∃ st', applyMove st (ofLine (normalizeLine a)) (currentPlayer st)
               = Some st' ∧ good st') →
  (acc = PosInf ∧ avail ≠ [] ∨ ∃ v, acc = Int v) →
  ∃ v, minLoop recur st ai avail alpha beta acc = Int v.
Proof.
  revert alpha beta acc.
  induction avail as [|a rest IH]; intros alpha beta acc Hmoves Hacc.
  - destruct Hacc as [[_ ?]|?]; done.
  - simpl. destruct (Hmoves a) as (st' & -> & Hgood); [apply list_elem_of_here|].
    destruct (recur_Int st' alpha beta
                (Num.strictEq (currentPlayer st') (Int ai)) Hgood) as (e & ->).
    assert (∃ v, Num.min acc (Int e) = Int v) as (v & Hv).
    { destruct Hacc as [[-> _]|(b & ->)]; simpl; [by eexists|].
      case_bool_decide; by eexists. }
    rewrite Hv. destruct (Num.le _ _); [by eexists|].
    apply IH; [|by eauto].
    intros a' Ha'. apply Hmoves. by apply list_elem_of_further.
Qed.

End LoopValues.

Lemma minimax_S (d : nat) (st : GameState) (alpha beta : num) (isMax : bool)
    (ai : Z) :
  minimax (S d) st alpha beta isMax ai =
  if gameOver st then evaluate st ai
  else if bool_decide (length (getAvailableLines st) = 0%nat)
  then evaluate st ai
  else if isMax || Num.strictEq (currentPlayer st) (Int ai)
  then maxLoop (λ st a b m, minimax d st a b m ai) st ai
         (getAvailableLines st) alpha beta NegInf
  else minLoop (λ st a b m, minimax d st a b m ai) st ai
         (getAvailableLines st) alpha beta PosInf.
Proof. done. Qed.

(** On a game state, for a player of the game, every search value is an
    integer. *)
Lemma minimax_Int (g : Z) (n : nat) (ai : Z) (depth : nat) (st : GameState)
    (alpha beta : num) (isMax : bool) :
  wf g n st → 0 ≤ ai < Z.of_nat n →
  ∃ v, minimax depth st alpha beta isMax ai = Int v.
Proof.
  intros Hwf Hai. revert st alpha beta isMax Hwf.
  induction depth as [|d IH]; intros st alpha beta isMax Hwf.
  - by eapply evaluate_Int.
  - rewrite minimax_S.
    destruct (gameOver st) eqn:Hover; [by eapply evaluate_Int|].
    case_bool_decide as Hlen; [by eapply evaluate_Int|].
    assert (getAvailableLines st ≠ []) as Hne
      by (intros Heq; by rewrite Heq in Hlen).
    assert (∀ a, a ∈ getAvailableLines st →
      ∃ st', applyMove st (ofLine (normalizeLine a)) (currentPlayer st)
             = Some st' ∧ wf g n st') as Hmoves.
    { intros a Ha. eexists. split; [by eapply available_move|].
      eapply wf_step; [done|]. by eapply available_move. }
    destruct (_ || _).
    + apply (maxLoop_Int _ st ai (wf g n)); [|done|by left].
      intros st' a b m Hwf'. by apply IH.
    + apply (minLoop_Int _ st ai (wf g n)); [|done|by left].
      intros st' a b m Hwf'. by apply IH.
Qed.

(** The root loop of [hardAI] keeps the first move of the highest value.
    [f] gives the integer value of each child. *)
Lemma hardAI_fold (st : GameState) (D : nat) (ai : Z) (f : Line → Z)
    (l : list Line) (b : Z) (o : option Line) :
  (∀ a, a ∈ l →
     applyMove st (ofLine (normalizeLine a)) (currentPlayer st)
     = Some (successor st a (currentPlayer st))
     ∧ minimax (D - 1) (successor st a (currentPlayer st)) NegInf PosInf false ai
       = Int (f a)) →
  (foldl (considerMove st D ai) (Int b, o) l = (Int b, o)
   ∧ ∀ j x, l !! j = Some x → f x ≤ b)
  ∨ (∃ i a,
       foldl (considerMove st D ai) (Int b, o) l = (Int (f a), Some a)
       ∧ l !! i = Some a ∧ b < f a
       ∧ (∀ j x, (j < i)%nat → l !! j = Some x → f x < f a)
       ∧ (∀ j x, (i < j)%nat → l !! j = Some x → f x ≤ f a)).
Proof.
  revert b o. induction l as [|x l IH]; intros b o Hl.
  - left. split; [done|]. intros j y Hj. by rewrite lookup_nil in Hj.
  - destruct (Hl x) as [Hmove Hval]; [apply list_elem_of_here|].
    assert (∀ a, a ∈ l →
      applyMove st (ofLine (normalizeLine a)) (currentPlayer st)
      = Some (successor st a (currentPlayer st))
      ∧ minimax (D - 1) (successor st a (currentPlayer st)) NegInf PosInf false ai
        = Int (f a)) as Hl'.
    { intros a Ha. apply Hl. by apply list_elem_of_further. }
    assert (considerMove st D ai (Int b, o) x
            = if bool_decide (b < f x) then (Int (f x), Some x) else (Int b, o))
      as Hstep by (unfold considerMove; by rewrite Hmove, Hval).
    cbn [foldl]. rewrite !Hstep. case_bool_decide as Hlt.
    + destruct (IH (f x) (Some x) Hl') as [[-> Hle]|(i & a & -> & Hi & Hb & Hbefore & Hafter)].
      * right. exists 0%nat, x. split_and!; [done|done|lia| |].
        -- intros j y Hj. lia.
        -- intros [|j] y Hj Hy; [lia|]. by apply (Hle j).
      * right. exists (S i), a. split_and!; [done|done|lia| |].
        -- intros [|j] y Hj Hy; [by simplify_eq/=; lia|].
           apply (Hbefore j); [lia|done].
        -- intros [|j] y Hj Hy; [lia|]. apply (Hafter j); [lia|done].
    + destruct (IH b o Hl') as [[-> Hle]|(i & a & -> & Hi & Hb & Hbefore & Hafter)].
      * left. split; [done|].
        intros [|j] y Hy; [by simplify_eq/=; lia|]. by apply (Hle j).
      * right. exists (S i), a. split_and!; [done|done|lia| |].
        -- intros [|j] y Hj Hy; [by simplify_eq/=; lia|].
           apply (Hbefore j); [lia|done].
        -- intros [|j] y Hj Hy; [lia|]. apply (Hafter j); [lia|done].
Qed.

End Values.

(** C7: on a state of a game that has an edge left, for a player of the
    game, [hardAI] is a function of the state and the player that returns
    the first move, in the order of [getAvailableLines], whose child has
    the highest search value: every earlier move has a strictly lower
    value and every later move a value at most equal.  The values are
    integers, and no other move has this property, so two invocations
    return the same move. *)
Theorem hardAI_first_best (g : Z) (n : nat) (st : GameState) (ai : Z) :
  (1 ≤ n)%nat → reachable g n st → 0 ≤ ai < Z.of_nat n →
  getAvailableLines st ≠ [] →
  ∃ mv, hardAI st ai = Some mv
        ∧ firstBest (childValue st ai) (getAvailableLines st) mv
        ∧ (∀ a, a ∈ getAvailableLines st →
             applyMove st (ofLine (normalizeLine a)) (currentPlayer st)
             = Some (successor st a (currentPlayer st))
             ∧ ∃ v, childValue st ai a = Int v)
        ∧ (∀ mv', firstBest (childValue st ai) (getAvailableLines st) mv' →
                  mv' = mv).
Proof.
  intros Hn Hreach Hai Hne.
  pose proof (reachable_wf _ _ _ Hn Hreach) as Hwf.
  assert (gameOver st = false) as Hover.
  { destruct (getAvailableLines st) as [|a l] eqn:Hl; [done|].
    apply (reachable_not_over g n st a); [done..|].
    rewrite Hl. apply list_elem_of_here. }
  assert (∀ a, a ∈ getAvailableLines st →
    applyMove st (ofLine (normalizeLine a)) (currentPlayer st)
    = Some (successor st a (currentPlayer st))
    ∧ ∃ v, childValue st ai a = Int v) as Hchild.
  { intros a Ha. split; [by eapply available_move|].
    apply (minimax_Int g n); [|done].
    eapply wf_step; [done|]. by eapply available_move. }
  set (f := λ a, match childValue st ai a with Int v => v | _ => 0 end).
  assert (∀ a, a ∈ getAvailableLines st → childValue st ai a = Int (f a)) as Hf.
  { intros a Ha. destruct (Hchild a Ha) as [_ [v Hv]]. unfold f. by rewrite Hv. }
  assert (∀ a, a ∈ getAvailableLines st →
    applyMove st (ofLine (normalizeLine a)) (currentPlayer st)
    = Some (successor st a (currentPlayer st))
    ∧ minimax (maxDepthOf (getAvailableLines st) - 1)
        (successor st a (currentPlayer st)) NegInf PosInf false ai
      = Int (f a)) as Hfold.
  { intros a Ha. split; [by apply Hchild|]. by apply Hf. }
  assert (∃ mv i,
    hardAI st ai = Some mv
    ∧ getAvailableLines st !! i = Some mv
    ∧ (∀ j x, (j < i)%nat → getAvailableLines st !! j = Some x → f x < f mv)
    ∧ (∀ j x, (i < j)%nat → getAvailableLines st !! j = Some x → f x ≤ f mv))
    as (mv & i & Hhard & Hi & Hbefore & Hafter).
  { unfold hardAI.
    rewrite bool_decide_eq_false_2
      by (destruct (getAvailableLines st); [done|simpl; lia]).
    set (D := maxDepthOf (getAvailableLines st)) in *.
    destruct (getAvailableLines st) as [|x l] eqn:Hl; [done|].
    destruct (Hfold x) as [Hmove Hval]; [apply list_elem_of_here|].
    assert (considerMove st D ai (NegInf, None) x = (Int (f x), Some x))
      as Hstep by (unfold considerMove; by rewrite Hmove, Hval).
    cbn [foldl]. rewrite Hstep.
    destruct (hardAI_fold st D ai f l (f x) (Some x))
      as [[Heq Hle]|(i & a & Heq & Hi & Hb & Hbefore & Hafter)].
    { intros a Ha. apply Hfold. by apply list_elem_of_further. }
    - exists x, 0%nat. rewrite Heq. split_and!; [done|done| |].
      + intros j y Hj. lia.
      + intros [|j] y Hj Hy; [lia|]. by apply (Hle j).
    - exists a, (S i). rewrite Heq. split_and!; [done|done| |].
      + intros [|j] y Hj Hy; [by simplify_eq/=; lia|].
        apply (Hbefore j); [lia|done].
      + intros [|j] y Hj Hy; [lia|]. apply (Hafter j); [lia|done]. }
  exists mv.
  pose proof (list_elem_of_lookup_2 _ _ _ Hi) as Hmv.
  split_and!; [done| |done|].
  - exists i. split_and!; [done| |].
    + intros j x Hj Hx. pose proof (list_elem_of_lookup_2 _ _ _ Hx).
      rewrite !Hf by done. simpl. apply bool_decide_eq_true. by eapply Hbefore.
    + intros j x Hj Hx. pose proof (list_elem_of_lookup_2 _ _ _ Hx).
      rewrite !Hf by done. simpl. apply bool_decide_eq_true. by eapply Hafter.
  - intros mv' (i' & Hi' & Hbefore' & Hafter').
    pose proof (list_elem_of_lookup_2 _ _ _ Hi') as Hmv'.
    destruct (Nat.lt_trichotomy i i') as [Hlt|[->|Hgt]]; [|congruence|].
    + specialize (Hbefore' i mv Hlt Hi). specialize (Hafter i' mv' Hlt Hi').
      rewrite !Hf in Hbefore' by done. simpl in Hbefore'.
      apply bool_decide_eq_true in Hbefore'. lia.
    + specialize (Hafter' i mv Hgt Hi). specialize (Hbefore i' mv' Hgt Hi').
      rewrite !Hf in Hafter' by done. simpl in Hafter'.
      apply bool_decide_eq_true in Hafter'. lia.
Qed.

Lemma hardAI_first_best_witness :
  ∃ mv, hardAI board2 0 = Some mv
        ∧ firstBest (childValue board2 0) (getAvailableLines board2) mv
        ∧ (∀ a, a ∈ getAvailableLines board2 →
             applyMove board2 (ofLine (normalizeLine a)) (currentPlayer board2)
             = Some (successor board2 a (currentPlayer board2))
             ∧ ∃ v, childValue board2 0 a = Int v)
        ∧ (∀ mv', firstBest (childValue board2 0) (getAvailableLines board2) mv' →
                  mv' = mv).
Proof.
  apply (hardAI_first_best 2 2 board2 0).
  - lia.
  - apply reachable_init.
  - lia.
  - vm_compute. discriminate.
Defined.

(** ** The minimax strategy: depth *)

Section Depth.

Lemma settled_successor (st : GameState) (nl : Line) (p : num) :
  settled (successor st nl p).
Proof.
  unfold settled. by destruct (successor_spec st nl p) as (b' & m & -> & _).
Qed.

Lemma lines_successor (st : GameState) (nl : Line) (p : num) :
  lines (successor st nl p) = lines st ++ [nl].
Proof. by destruct (successor_spec st nl p) as (b' & m & -> & _). Qed.

Lemma settled_not_over (g : Z) (n : nat) (st : GameState) (a : Line) :
  wf g n st → settled st → a ∈ getAvailableLines st → gameOver st = false.
Proof.
  intros Hwf Hset [Ha Hfree]%elem_of_getAvailableLines.
  rewrite (wf_gridSize _ _ _ Hwf) in Ha.
  assert (2 ≤ g) as Hg.
  { apply elem_of_allLines in Ha as [(? & ? & _ & ? & ?)|(? & ? & _ & ? & ?)]; lia. }
  rewrite Hset. apply bool_decide_eq_false. intros Hfull. apply Hfree.
  rewrite (wf_gridSize _ _ _ Hwf) in Hfull.
  apply (wf_full g n); [done|lia|lia|done].
Qed.

Lemma settled_over (g : Z) (n : nat) (st : GameState) :
  1 ≤ g → wf g n st → settled st → getAvailableLines st = [] →
  gameOver st = true.
Proof.
  intros Hg Hwf Hset Hnil. rewrite Hset. apply bool_decide_eq_true.
  rewrite (wf_gridSize _ _ _ Hwf), <-length_allLines by done.
  assert (lineToKey <$> allLines g ⊆+ lineSet st) as Hsub.
  { apply NoDup_submseteq; [apply NoDup_allKeys|].
    intros k (l & -> & Hl)%list_elem_of_fmap.
    destruct (decide (lineToKey l ∈ lineSet st)) as [|Hout]; [done|].
    assert (l ∈ getAvailableLines st) as Hin.
    { apply elem_of_getAvailableLines. by rewrite (wf_gridSize _ _ _ Hwf). }
    rewrite Hnil in Hin. by apply elem_of_nil in Hin. }
  apply submseteq_length in Hsub.
  rewrite length_fmap, (wf_length _ _ _ Hwf) in Hsub. lia.
Qed.

Lemma filter_remove_one {A} `{EqDecision A} (f h : A → bool) (L : list A) (a : A) :
  NoDup L → a ∈ L → f a = true →
  (∀ l, l ∈ L → h l = f l && bool_decide (l ≠ a)) →
  (length (List.filter h L) + 1 = length (List.filter f L))%nat.
Proof.
  induction 1 as [|x L Hx Hnd IH]; intros Ha Hfa Hh; [by apply elem_of_nil in Ha|].
  simpl. rewrite (Hh x) by apply list_elem_of_here.
  destruct (decide (x = a)) as [->|Hne].
  - rewrite Hfa, bool_decide_eq_false_2 by (by intros []). simpl.
    rewrite (filter_ext_in h f); [lia|].
    intros l Hl%list_elem_of_In. rewrite (Hh l) by by apply list_elem_of_further.
    rewrite bool_decide_eq_true_2; [by rewrite andb_true_r|]. by intros ->.
  - rewrite bool_decide_eq_true_2, andb_true_r by done.
    apply elem_of_cons in Ha as [?|Ha]; [done|].
    assert (length (List.filter h L) + 1 = length (List.filter f L))%nat as IH'.
    { apply IH; [done..|]. intros l Hl. apply Hh. by apply list_elem_of_further. }
    destruct (f x); simpl; lia.
Qed.

(** Each ply leaves one edge less. *)
Lemma available_successor (g : Z) (n : nat) (st : GameState) (a : Line) (p : num) :
  wf g n st → a ∈ getAvailableLines st →
  (length (getAvailableLines (successor st a p)) + 1
   = length (getAvailableLines st))%nat.
Proof.
  intros Hwf [Ha Hfree]%elem_of_getAvailableLines.
  rewrite !getAvailableLines_filter.
  assert (gridSize (successor st a p) = gridSize st) as ->
    by by destruct (successor_spec st a p) as (b' & m & -> & _).
  apply (filter_remove_one _ _ _ a); [apply NoDup_allLines|done| |].
  - unfold isFree. rewrite negb_true_iff, bool_decide_eq_false.
    by rewrite elem_of_list_to_set.
  - intros l Hl. unfold isFree.
    assert (lineSet (successor st a p) = lineSet st ++ [lineToKey a]) as ->
      by by destruct (successor_spec st a p) as (b' & m & -> & _).
    rewrite (list_to_set_app_L (C:=gset string)), list_to_set_singleton_L.
    apply eq_true_iff_eq.
    rewrite andb_true_iff, !negb_true_iff, !bool_decide_eq_false,
      bool_decide_eq_true, elem_of_union, elem_of_singleton.
    split.
    + intros Hnot. split; [tauto|]. intros ->. tauto.
    + intros [Hout Hne] [?|Hk]; [done|]. apply Hne.
      by apply (lineToKey_inj_allLines (gridSize st)).
Qed.

Lemma minimaxT_S (d : nat) (st : GameState) (alpha beta : num) (isMax : bool)
    (ai : Z) :
  minimaxT (S d) st alpha beta isMax ai =
  if gameOver st then (evaluate st ai, [st])
  else if bool_decide (length (getAvailableLines st) = 0%nat)
  then (evaluate st ai, [st])
  else if isMax || Num.strictEq (currentPlayer st) (Int ai)
  then maxLoopT (λ st a b m, minimaxT d st a b m ai) st ai
         (getAvailableLines st) alpha beta NegInf []
  else minLoopT (λ st a b m, minimaxT d st a b m ai) st ai
         (getAvailableLines st) alpha beta PosInf [].
Proof. done. Qed.

Section TraceLoops.

Variable recurT : GameState → num → num → bool → num * list GameState.
Variable recur : GameState → num → num → bool → num.
Variable st : GameState.
Variable ai : Z.
Hypothesis recurT_fst : ∀ s a b m, (recurT s a b m).1 = recur s a b m.

Lemma maxLoopT_fst (avail : list Line) (alpha beta acc : num)
    (seen : list GameState) :
  (maxLoopT recurT st ai avail alpha beta acc seen).1
  = maxLoop recur st ai avail alpha beta acc.
Proof.
  revert alpha beta acc seen.
  induction avail as [|a rest IH]; intros alpha beta acc seen; [done|].
  simpl. destruct (applyMove _ _ _) as [st'|]; [|apply IH].
  rewrite <-recurT_fst. destruct (recurT _ _ _ _) as [e lv]. simpl.
  destruct (Num.le _ _); [done|apply IH].
Qed.

Lemma minLoopT_fst (avail : list Line) (alpha beta acc : num)
    (seen : list GameState) :
  (minLoopT recurT st ai avail alpha beta acc seen).1
  = minLoop recur st ai avail alpha beta acc.
Proof.
  revert alpha beta acc seen.
  induction avail as [|a rest IH]; intros alpha beta acc seen; [done|].
  simpl. destruct (applyMove _ _ _) as [st'|]; [|apply IH].
  rewrite <-recurT_fst. destruct (recurT _ _ _ _) as [e lv]. simpl.
  destruct (Num.le _ _); [done|apply IH].
Qed.

Variable P : GameState → Prop.

Lemma maxLoopT_leaves (avail : list Line) (alpha beta acc : num)
    (seen : list GameState) :
  (∀ a st', a ∈ avail →
     applyMove st (ofLine (normalizeLine a)) (currentPlayer st) = Some st' →
     ∀ al be m, Forall P (recurT st' al be m).2) →
  Forall P seen →
  Forall P (maxLoopT recurT st ai avail alpha beta acc seen).2.
Proof.
  revert alpha beta acc seen.
  induction avail as [|a rest IH]; intros alpha beta acc seen Hrec Hseen;
    [done|].
  assert (∀ a' st', a' ∈ rest →
     applyMove st (ofLine (normalizeLine a')) (currentPlayer st) = Some st' →
     ∀ al be m, Forall P (recurT st' al be m).2) as Hrec'.
  { intros a' st' Ha'. apply Hrec. by apply list_elem_of_further. }
  simpl. destruct (applyMove _ _ _) as [st'|] eqn:Hmove; [|by apply IH].
  pose proof (Hrec a st' (list_elem_of_here _ _) Hmove alpha beta
                (Num.strictEq (currentPlayer st') (Int ai))) as Hlv.
  destruct (recurT _ _ _ _) as [e lv]. simpl in Hlv.
  assert (Forall P (seen ++ lv)) by by apply Forall_app.
  destruct (Num.le _ _); [done|by apply IH].
Qed.

Lemma minLoopT_leaves (avail : list Line) (alpha beta acc : num)
    (seen : list GameState) :
  (∀ a st', a ∈ avail →
     applyMove st (ofLine (normalizeLine a)) (currentPlayer st) = Some st' →
     ∀ al be m, Forall P (recurT st' al be m).2) →
  Forall P seen →
  Forall P (minLoopT recurT st ai avail alpha beta acc seen).2.
Proof.
  revert alpha beta acc seen.
  induction avail as [|a rest IH]; intros alpha beta acc seen Hrec Hseen;
    [done|].
  assert (∀ a' st', a' ∈ rest →
     applyMove st (ofLine (normalizeLine a')) (currentPlayer st) = Some st' →
     ∀ al be m, Forall P (recurT st' al be m).2) as Hrec'.
  { intros a' st' Ha'. apply Hrec. by apply list_elem_of_further. }
  simpl. destruct (applyMove _ _ _) as [st'|] eqn:Hmove; [|by apply IH].
  pose proof (Hrec a st' (list_elem_of_here _ _) Hmove alpha beta
                (Num.strictEq (currentPlayer st') (Int ai))) as Hlv.
  destruct (recurT _ _ _ _) as [e lv]. simpl in Hlv.
  assert (Forall P (seen ++ lv)) by by apply Forall_app.
  destruct (Num.le _ _); [done|by apply IH].
Qed.

End TraceLoops.

(** The traced search computes the values of the search. *)
Lemma minimaxT_fst (d : nat) (st : GameState) (alpha beta : num) (isMax : bool)
    (ai : Z) :
  (minimaxT d st alpha beta isMax ai).1 = minimax d st alpha beta isMax ai.
Proof.
  revert st alpha beta isMax. induction d as [|d IH]; intros st alpha beta isMax;
    [done|].
  rewrite minimaxT_S, minimax_S.
  destruct (gameOver st); [done|]. case_bool_decide; [done|].
  destruct (_ || _).
  - by apply maxLoopT_fst.
  - by apply minLoopT_fst.
Qed.

Lemma considerMoveT_fold (st : GameState) (D : nat) (ai : Z) (l : list Line)
    (score : num) (move : option Line) (seen : list GameState) :
  ∃ seen',
    foldl (considerMoveT st D ai) (score, move, seen) l
    = (foldl (considerMove st D ai) (score, move) l, seen')
    ∧ ∀ P : GameState → Prop,
        Forall P seen →
        (∀ a st', a ∈ l →
           applyMove st (ofLine (normalizeLine a)) (currentPlayer st) = Some st' →
           Forall P (minimaxT (D - 1) st' NegInf PosInf false ai).2) →
        Forall P seen'.
Proof.
  revert score move seen.
  induction l as [|a l IH]; intros score move seen.
  - exists seen. split; [done|]. by intros P HP _.
  - cbn [foldl]. unfold considerMoveT at 2, considerMove at 2.
    destruct (applyMove _ _ _) as [st'|] eqn:Hmove.
    + rewrite <-minimaxT_fst.
      destruct (minimaxT _ _ _ _ _ _) as [e lv] eqn:Hlv. simpl.
      destruct (Num.gt e score).
      * destruct (IH e (Some a) (seen ++ lv)) as (seen' & -> & Hseen').
        exists seen'. split; [done|]. intros P HP Hrec. apply Hseen'.
        -- apply Forall_app. split; [done|].
           specialize (Hrec a st' (list_elem_of_here _ _) Hmove).
           by rewrite Hlv in Hrec.
        -- intros a' st'' Ha'. apply Hrec. by apply list_elem_of_further.
      * destruct (IH score move (seen ++ lv)) as (seen' & -> & Hseen').
        exists seen'. split; [by destruct (foldl _ _ _)|].
        intros P HP Hrec. apply Hseen'.
        -- apply Forall_app. split; [done|].
           specialize (Hrec a st' (list_elem_of_here _ _) Hmove).
           by rewrite Hlv in Hrec.
        -- intros a' st'' Ha'. apply Hrec. by apply list_elem_of_further.
    + destruct (IH score move seen) as (seen' & -> & Hseen').
      exists seen'. split; [done|]. intros P HP Hrec. apply Hseen'; [done|].
      intros a' st'' Ha'. apply Hrec. by apply list_elem_of_further.
Qed.

Lemma hardAIT_fst (st : GameState) (ai : Z) :
  (hardAIT st ai).1 = hardAI st ai.
Proof.
  unfold hardAIT, hardAI. case_bool_decide; [done|].
  destruct (considerMoveT_fold st (maxDepthOf (getAvailableLines st)) ai
              (getAvailableLines st) NegInf None []) as (seen' & -> & _).
  by destruct (foldl _ _ _).
Qed.

Lemma hardAIT_leaves (P : GameState → Prop) (st : GameState) (ai : Z) :
  (∀ a st', a ∈ getAvailableLines st →
     applyMove st (ofLine (normalizeLine a)) (currentPlayer st) = Some st' →
     Forall P (minimaxT (maxDepthOf (getAvailableLines st) - 1) st'
                 NegInf PosInf false ai).2) →
  Forall P (hardAIT st ai).2.
Proof.
  intros Hrec. unfold hardAIT. case_bool_decide; [done|].
  destruct (considerMoveT_fold st (maxDepthOf (getAvailableLines st)) ai
              (getAvailableLines st) NegInf None []) as (seen' & -> & Hseen').
  destruct (foldl _ _ _). simpl. by apply Hseen'.
Qed.

(** With at least as much depth as edges left, every leaf is a finished
    game. *)
Lemma leaves_exhaustive (g : Z) (n : nat) (ai : Z) (d : nat) (st : GameState)
    (alpha beta : num) (isMax : bool) :
  1 ≤ g → wf g n st → settled st →
  (length (getAvailableLines st) ≤ d)%nat →
  Forall (λ leaf, gameOver leaf = true ∧ getAvailableLines leaf = [])
    (minimaxT d st alpha beta isMax ai).2.
Proof.
  intros Hg. revert st alpha beta isMax.
  induction d as [|d IH]; intros st alpha beta isMax Hwf Hset Hlen.
  - assert (getAvailableLines st = []) as Hnil
      by (destruct (getAvailableLines st); [done|simpl in Hlen; lia]).
    repeat constructor; [by eapply settled_over|done].
  - rewrite minimaxT_S.
    destruct (gameOver st) eqn:Hover.
    { repeat constructor; [done|].
      destruct (getAvailableLines st) as [|a l] eqn:Hl; [done|].
      assert (gameOver st = false); [|congruence].
      eapply (settled_not_over g n st a); [done..|].
      rewrite Hl. apply list_elem_of_here. }
    case_bool_decide as Hzero.
    { assert (getAvailableLines st = []) as Hnil
        by (destruct (getAvailableLines st); [done|simpl in Hzero; lia]).
      repeat constructor; [by eapply settled_over|done]. }
    assert (∀ a st', a ∈ getAvailableLines st →
      applyMove st (ofLine (normalizeLine a)) (currentPlayer st) = Some st' →
      ∀ al be m,
        Forall (λ leaf, gameOver leaf = true ∧ getAvailableLines leaf = [])
          (minimaxT d st' al be m ai).2) as Hrec.
    { intros a st' Ha Hmove al be m.
      pose proof (wf_step _ _ _ _ _ _ Hwf Hmove) as Hwf'.
      rewrite (available_move g n st a Hwf Hover Ha) in Hmove.
      injection Hmove as <-.
      apply IH; [done|apply settled_successor|].
      pose proof (available_successor g n st a (currentPlayer st) Hwf Ha). lia. }
    destruct (_ || _).
    + by apply maxLoopT_leaves.
    + by apply minLoopT_leaves.
Qed.

(** With less depth than edges left, every leaf is exactly [d] plies
    down. *)
Lemma leaves_capped (g : Z) (n : nat) (ai : Z) (d : nat) (st : GameState)
    (alpha beta : num) (isMax : bool) :
  wf g n st → settled st →
  (d < length (getAvailableLines st))%nat →
  Forall (λ leaf, length (lines leaf) = (length (lines st) + d)%nat)
    (minimaxT d st alpha beta isMax ai).2.
Proof.
  revert st alpha beta isMax.
  induction d as [|d IH]; intros st alpha beta isMax Hwf Hset Hlen.
  - repeat constructor. simpl. lia.
  - rewrite minimaxT_S.
    destruct (getAvailableLines st) as [|a0 l0] eqn:Hl; [simpl in Hlen; lia|].
    assert (gameOver st = false) as Hover.
    { eapply (settled_not_over g n st a0); [done..|].
      rewrite Hl. apply list_elem_of_here. }
    rewrite Hover. rewrite bool_decide_eq_false_2 by done. rewrite <-Hl in *.
    assert (∀ a st', a ∈ getAvailableLines st →
      applyMove st (ofLine (normalizeLine a)) (currentPlayer st) = Some st' →
      ∀ al be m,
        Forall (λ leaf, length (lines leaf) = (length (lines st) + S d)%nat)
          (minimaxT d st' al be m ai).2) as Hrec.
    { intros a st' Ha Hmove al be m.
      pose proof (wf_step _ _ _ _ _ _ Hwf Hmove) as Hwf'.
      rewrite (available_move g n st a Hwf Hover Ha) in Hmove.
      injection Hmove as <-.
      eapply Forall_impl.
      - apply IH; [done|apply settled_successor|].
        pose proof (available_successor g n st a (currentPlayer st) Hwf Ha). lia.
      - intros leaf ->. simpl. rewrite lines_successor, length_app. simpl. lia. }
    destruct (_ || _).
    + by apply maxLoopT_leaves.
    + by apply minLoopT_leaves.
Qed.

End Depth.

(** C8: in a game with at least one player, the traced search is the
    search of [hardAI]; when at most 12 edges remain, every leaf it
    evaluates is a finished game with no edge left; when more remain,
    every leaf it evaluates lies exactly six moves below the root, the
    root move and five plies of [minimax]; and each ply leaves one edge
    less to branch on.  The recursion is on the depth, which goes down by
    one in every call, so [minimax] is total. *)
Theorem search_depth_policy (g : Z) (n : nat) (st : GameState) (ai : Z) :
  (1 ≤ n)%nat → reachable g n st →
  let k := length (getAvailableLines st) in
  (hardAIT st ai).1 = hardAI st ai
  ∧ ((k ≤ 12)%nat →
     ∀ leaf, leaf ∈ (hardAIT st ai).2 →
             gameOver leaf = true ∧ getAvailableLines leaf = [])
  ∧ ((12 < k)%nat →
     ∀ leaf, leaf ∈ (hardAIT st ai).2 →
             length (lines leaf) = (length (lines st) + 6)%nat)
  ∧ (∀ a, a ∈ getAvailableLines st →
          (length (getAvailableLines (successor st a (currentPlayer st))) + 1
           = k)%nat)
  ∧ (∀ d s alpha beta m,
       (minimaxT d s alpha beta m ai).1 = minimax d s alpha beta m ai).
Proof.
  intros Hn Hreach k. pose proof (reachable_wf _ _ _ Hn Hreach) as Hwf.
  assert (∀ a st', a ∈ getAvailableLines st →
    applyMove st (ofLine (normalizeLine a)) (currentPlayer st) = Some st' →
    st' = successor st a (currentPlayer st) ∧ wf g n st' ∧ 2 ≤ g
    ∧ (length (getAvailableLines st') + 1 = k)%nat) as Hchild.
  { intros a st' Ha Hmove.
    pose proof (wf_step _ _ _ _ _ _ Hwf Hmove) as Hwf'.
    pose proof (reachable_not_over _ _ _ a Hn Hreach Ha) as Hover.
    rewrite (available_move g n st a Hwf Hover Ha) in Hmove.
    injection Hmove as <-. split_and!; [done|done| |].
    - apply elem_of_getAvailableLines in Ha as [Ha _].
      rewrite (wf_gridSize _ _ _ Hwf) in Ha.
      apply elem_of_allLines in Ha as [(? & ? & _ & ? & ?)|(? & ? & _ & ? & ?)]; lia.
    - by apply (available_successor g n). }
  split_and!.
  - apply hardAIT_fst.
  - intros Hk. apply Forall_forall, hardAIT_leaves.
    intros a st' Ha Hmove.
    destruct (Hchild a st' Ha Hmove) as (-> & Hwf' & Hg & Hlen).
    apply (leaves_exhaustive g n); [lia|done|apply settled_successor|].
    unfold maxDepthOf. fold k. rewrite bool_decide_eq_true_2 by done. lia.
  - intros Hk. apply Forall_forall, hardAIT_leaves.
    intros a st' Ha Hmove.
    destruct (Hchild a st' Ha Hmove) as (-> & Hwf' & Hg & Hlen).
    unfold maxDepthOf. fold k. rewrite bool_decide_eq_false_2 by lia.
    eapply Forall_impl.
    + apply (leaves_capped g n); [done|apply settled_successor|]. simpl. lia.
    + intros leaf ->. simpl. rewrite lines_successor, length_app. simpl. lia.
  - intros a Ha. by apply (available_successor g n).
  - intros d s alpha beta m. apply minimaxT_fst.
Qed.

Lemma search_depth_policy_witness :
  let k := length (getAvailableLines board2) in
  (hardAIT board2 0).1 = hardAI board2 0
  ∧ ((k ≤ 12)%nat →
     ∀ leaf, leaf ∈ (hardAIT board2 0).2 →
             gameOver leaf = true ∧ getAvailableLines leaf = [])
  ∧ ((12 < k)%nat →
     ∀ leaf, leaf ∈ (hardAIT board2 0).2 →
             length (lines leaf) = (length (lines board2) + 6)%nat)
  ∧ (∀ a, a ∈ getAvailableLines board2 →
          (length (getAvailableLines
                     (successor board2 a (currentPlayer board2))) + 1
           = k)%nat)
  ∧ (∀ d s alpha beta m,
       (minimaxT d s alpha beta m 0).1 = minimax d s alpha beta m 0).
Proof.
  apply (search_depth_policy 2 2 board2 0).
  - lia.
  - apply reachable_init.
Defined.

(** * Properties of the rest of the code *)

(** ** Edges with arbitrary integer coordinates *)

Section AllKeys.

Lemma plain_lacks (s : string) : plain s ↔ lacks "," s ∧ lacks "-" s.
Proof. induction s as [|c s IH]; simpl; [tauto|]. rewrite IH. tauto. Qed.

Lemma lacks_split (c : ascii) (a a' r r' : string) :
  lacks c a → lacks c a' →
  a +:+ String c r = a' +:+ String c r' → a = a' ∧ r = r'.
Proof.
  revert a'. induction a as [|d a IH]; intros [|d' a'] Ha Ha' Heq; simpl in *.
  - by injection Heq as ->.
  - injection Heq as <- _. by destruct Ha' as [? _].
  - injection Heq as -> _. by destruct Ha as [? _].
  - injection Heq as -> Heq. destruct Ha as [_ Ha], Ha' as [_ Ha'].
    destruct (IH a' Ha Ha' Heq) as [-> ->]. done.
Qed.

Lemma pretty_N_go_grows (x : N) (s : string) :
  (0 < x)%N → (String.length s < String.length (pretty_N_go x s))%nat.
Proof.
  revert s. induction (N.lt_wf_0 x) as [x _ IH]; intros s Hx.
  rewrite pretty_N_go_step by done.
  destruct (decide (x `div` 10 = 0)%N) as [->|Hd].
  - rewrite pretty_N_go_0. simpl. lia.
  - assert (x `div` 10 < x)%N as H1 by (apply N.div_lt; lia).
    assert (0 < x `div` 10)%N as H2 by by apply N.neq_0_lt_0.
    pose proof (IH _ H1 (String (pretty_N_char (x `mod` 10)) s) H2) as Hlt.
    simpl in Hlt. lia.
Qed.

(** The decimal of a non-negative integer is a non-empty run of digits. *)
Lemma pretty_digits (z : Z) :
  0 ≤ z → ∃ c r, pretty z = String c r ∧ c ≠ "-"%char ∧ plain (pretty z).
Proof.
  intros Hz. pose proof (pretty_plain z Hz) as Hp.
  destruct (pretty z) as [|c r] eqn:Heq.
  - exfalso. destruct z as [|q|q]; [done| |lia].
    unfold pretty, pretty_Z, pretty, pretty_positive, pretty, pretty_N in Heq.
    case_decide; [done|].
    pose proof (pretty_N_go_grows (N.pos q) "" ltac:(lia)) as Hlen.
    rewrite Heq in Hlen. simpl in Hlen. lia.
  - exists c, r. split; [done|]. split; [|done]. by destruct Hp as (_ & ? & _).
Qed.

(** The decimal of a negative integer is a minus sign and such a run. *)
Lemma pretty_negative (z : Z) :
  z < 0 → pretty z = String "-" (pretty (- z)) ∧ plain (pretty (- z)).
Proof.
  destruct z as [|q|q]; [lia..|]. intros _. split; [done|].
  by apply pretty_plain.
Qed.

Lemma pretty_lacks_comma (z : Z) : lacks "," (pretty z).
Proof.
  destruct (decide (0 ≤ z)) as [Hz|Hz].
  - by apply plain_lacks, pretty_plain.
  - destruct (pretty_negative z) as [-> Hp]; [lia|].
    simpl. split; [done|]. by apply plain_lacks.
Qed.

Lemma pretty_dash_split (b b' : Z) (r r' : string) :
  pretty b +:+ String "-" r = pretty b' +:+ String "-" r' → b = b' ∧ r = r'.
Proof.
  intros Heq.
  destruct (decide (0 ≤ b)) as [Hb|Hb], (decide (0 ≤ b')) as [Hb'|Hb'].
  - apply plain_split in Heq as [Hp ->]; [|by right|by apply pretty_plain..].
    by apply (inj pretty) in Hp.
  - exfalso. destruct (pretty_digits b Hb) as (c & s & Hc & ? & _).
    destruct (pretty_negative b') as [Hn _]; [lia|].
    rewrite Hc, Hn in Heq. simpl in Heq. by injection Heq as ? _.
  - exfalso. destruct (pretty_digits b' Hb') as (c & s & Hc & ? & _).
    destruct (pretty_negative b) as [Hn _]; [lia|].
    rewrite Hc, Hn in Heq. simpl in Heq. by injection Heq as ? _.
  - destruct (pretty_negative b) as [Hn Hp]; [lia|].
    destruct (pretty_negative b') as [Hn' Hp']; [lia|].
    rewrite Hn, Hn' in Heq. simpl in Heq. injection Heq as Heq.
    apply plain_split in Heq as [Hq ->]; [|by right|done..].
    apply (inj pretty) in Hq. split; [lia|done].
Qed.

Lemma key_format_inj_all (a b c d a' b' c' d' : Z) :
  pretty a +:+ "," +:+ pretty b +:+ "-" +:+ pretty c +:+ "," +:+ pretty d
  = pretty a' +:+ "," +:+ pretty b' +:+ "-" +:+ pretty c' +:+ "," +:+ pretty d' →
  (a, b, c, d) = (a', b', c', d').
Proof.
  intros Heq. simpl in Heq.
  apply lacks_split in Heq as [Ha Heq]; [|apply pretty_lacks_comma..].
  apply pretty_dash_split in Heq as [-> Heq].
  apply lacks_split in Heq as [Hc Hd]; [|apply pretty_lacks_comma..].
  apply (inj pretty) in Ha, Hc, Hd. by subst.
Qed.

Lemma lineToKey_inj_all (l l' : Line) :
  lineToKey l = lineToKey l' → normalizeLine l = normalizeLine l'.
Proof.
  unfold lineToKey.
  destruct (normalizeLine l) as [[[a b] c] d].
  destruct (normalizeLine l') as [[[a' b'] c'] d'].
  apply key_format_inj_all.
Qed.

Lemma boxKey_inj_all (x y x' y' : Z) :
  boxKey x y = boxKey x' y' → x = x' ∧ y = y'.
Proof.
  unfold boxKey. simpl. intros Heq.
  apply lacks_split in Heq as [Hx Hy]; [|apply pretty_lacks_comma..].
  apply (inj pretty) in Hx, Hy. done.
Qed.

Lemma normalizeLine_cases (l : Line) :
  normalizeLine l = l ∨ normalizeLine l = reversed l.
Proof.
  destruct l as [[[x1 y1] x2] y2]. unfold normalizeLine, reversed.
  destruct (_ || _); auto.
Qed.

Lemma reversed_involutive (l : Line) : reversed (reversed l) = l.
Proof. by destruct l as [[[x1 y1] x2] y2]. Qed.

Lemma normalizeLine_reversed (l : Line) :
  normalizeLine (reversed l) = normalizeLine l.
Proof. destruct l as [[[x1 y1] x2] y2]. apply normalizeLine_reverse. Qed.

Lemma isValidLine_reversed (l : Line) (g : Z) :
  isValidLine (ofLine (reversed l)) g = isValidLine (ofLine l) g.
Proof.
  destruct l as [[[x1 y1] x2] y2]. apply eq_true_iff_eq.
  rewrite !isValidLine_spec. unfold validEdge. simpl.
  split; intros (a & b & c & d & [= -> -> -> ->] & ? & ? & ?);
    eexists _, _, _, _; (split; [done|]); split_and!; lia.
Qed.

Lemma isValidLine_normalizeLine (l : Line) (g : Z) :
  isValidLine (ofLine (normalizeLine l)) g = isValidLine (ofLine l) g.
Proof.
  destruct (normalizeLine_cases l) as [->| ->]; [done|].
  apply isValidLine_reversed.
Qed.

Lemma asLine_ofLine (l : Line) : asLine (ofLine l) = Some l.
Proof. by destruct l as [[[x1 y1] x2] y2]. Qed.

End AllKeys.

(** X1.  [normalizeLine] returns the edge it is given or the same edge
    with its endpoints exchanged: the one whose first endpoint has the
    smaller [y], or on equal [y] the smaller [x].  The result is a fixed
    point of [normalizeLine], and both directions of an edge have the same
    normal form.  This holds for all integer coordinates, on the board or
    off it. *)
Theorem normalizeLine_canonical (x1 y1 x2 y2 : Z) :
  let '(a, b, c, d) := normalizeLine (x1, y1, x2, y2) in
  (b < d ∨ (b = d ∧ a ≤ c))
  ∧ ((a, b, c, d) = (x1, y1, x2, y2) ∨ (a, b, c, d) = (x2, y2, x1, y1))
  ∧ normalizeLine (a, b, c, d) = (a, b, c, d)
  ∧ normalizeLine (x2, y2, x1, y1) = (a, b, c, d).
Proof.
  pose proof (normalizeLine_idemp (x1, y1, x2, y2)) as Hi.
  pose proof (normalizeLine_reverse x1 y1 x2 y2) as Hr.
  destruct (normalizeLine (x1, y1, x2, y2)) as [[[a b] c] d] eqn:Hn.
  split_and!; [| |done..].
  - unfold normalizeLine in Hn.
    repeat (case_bool_decide; simpl in Hn); injection Hn as <- <- <- <-; lia.
  - unfold normalizeLine in Hn. destruct (_ || _); injection Hn as <- <- <- <-; auto.
Qed.

(** X2.  [isSameLine] compares the keys of the normal forms, and the key
    is injective for all integer coordinates, negative ones included: two
    edges are the same exactly when their normal forms are equal, that is
    exactly when the second is the first or the first with its endpoints
    exchanged. *)
Theorem isSameLine_iff (a b : Line) :
  (isSameLine a b = true ↔ normalizeLine a = normalizeLine b)
  ∧ (isSameLine a b = true ↔ b = a ∨ b = reversed a).
Proof.
  assert (isSameLine a b = true ↔ normalizeLine a = normalizeLine b) as Hn.
  { unfold isSameLine. rewrite bool_decide_eq_true. split.
    - apply lineToKey_inj_all.
    - intros Heq. by rewrite <-(lineToKey_normalizeLine a), Heq,
        lineToKey_normalizeLine. }
  split; [done|]. rewrite Hn. split.
  - intros Heq.
    destruct (normalizeLine_cases a) as [Ha|Ha], (normalizeLine_cases b) as [Hb|Hb];
      rewrite Ha, Hb in Heq.
    + by left.
    + right. by rewrite Heq, reversed_involutive.
    + by right.
    + left. by rewrite <-(reversed_involutive a), Heq, reversed_involutive.
  - intros [->| ->]; [done|]. by rewrite normalizeLine_reversed.
Qed.

(** ** Valid edges, sides of a box, completed boxes *)

Section Geometry.

Lemma sides_normal (x y : Z) (l : Line) : l ∈ sides x y → normalizeLine l = l.
Proof.
  intros Hl%elem_of_sides. destruct Hl as [-> | [-> | [-> | ->]]];
    unfold normalizeLine; repeat (case_bool_decide; simpl); done || lia.
Qed.

Lemma sides_key_inj_all (x y : Z) (l l' : Line) :
  l ∈ sides x y → l' ∈ sides x y → lineToKey l = lineToKey l' → l = l'.
Proof.
  intros Hl Hl' Heq%lineToKey_inj_all.
  by rewrite (sides_normal x y l), (sides_normal x y l') in Heq.
Qed.

Lemma findCompletedBoxes_normalizeLine (l : Line) (g : Z) (S : gset string) :
  findCompletedBoxes (normalizeLine l) g S = findCompletedBoxes l g S.
Proof. unfold findCompletedBoxes. by rewrite normalizeLine_idemp. Qed.

Lemma findCompletedBoxes_complete (nl : Line) (g x y : Z) (S : gset string) :
  nl ∈ allLines g → 0 ≤ x < g - 1 → 0 ≤ y < g - 1 → nl ∈ sides x y →
  isBoxComplete x y S = true → boxKey x y ∈ findCompletedBoxes nl g S.
Proof.
  intros Hnl Hx Hy Hs Hc. apply elem_of_sides in Hs.
  apply elem_of_allLines in Hnl
    as [(a & b & -> & Hb & Ha)|(a & b & -> & Hb & Ha)].
  - rewrite findCompletedBoxes_horizontal.
    destruct Hs as [Hs | [Hs | [Hs | Hs]]]; injection Hs as ????; try lia.
    + subst a b. apply elem_of_app. right. rewrite Hc.
      rewrite bool_decide_true by lia. simpl. by apply list_elem_of_singleton.
    + subst a b. apply elem_of_app. left.
      replace (y + 1 - 1) with y by lia. rewrite Hc.
      rewrite bool_decide_true by lia. simpl. by apply list_elem_of_singleton.
  - rewrite findCompletedBoxes_vertical.
    destruct Hs as [Hs | [Hs | [Hs | Hs]]]; injection Hs as ????; try lia.
    + subst a b. apply elem_of_app. right. rewrite Hc.
      rewrite bool_decide_true by lia. simpl. by apply list_elem_of_singleton.
    + subst a b. apply elem_of_app. left.
      replace (x + 1 - 1) with x by lia. rewrite Hc.
      rewrite bool_decide_true by lia. simpl. by apply list_elem_of_singleton.
Qed.

Lemma findCompletedBoxes_length (nl : Line) (g : Z) (S : gset string) :
  nl ∈ allLines g → (length (findCompletedBoxes nl g S) ≤ 2)%nat.
Proof.
  intros [(a & b & -> & _)|(a & b & -> & _)]%elem_of_allLines.
  - rewrite findCompletedBoxes_horizontal, length_app.
    destruct (_ && _), (_ && _); simpl; lia.
  - rewrite findCompletedBoxes_vertical, length_app.
    destruct (_ && _), (_ && _); simpl; lia.
Qed.

Lemma valid_normal (l : Line) (g : Z) :
  isValidLine (ofLine l) g = true → normalizeLine l ∈ allLines g.
Proof.
  intros (l' & Hl' & Hin)%isValidLine_allLines.
  rewrite asLine_ofLine in Hl'. by injection Hl' as <-.
Qed.

Lemma sublist_List_filter {A} (f : A → bool) (l : list A) :
  List.filter f l `sublist_of` l.
Proof.
  induction l as [|a l IH]; simpl; [done|].
  destruct (f a); by constructor.
Qed.

Lemma getAvailableLines_init (g : Z) (n : nat) :
  getAvailableLines (createInitialState g n) = allLines g.
Proof.
  rewrite getAvailableLines_filter. simpl.
  induction (allLines g) as [|a l IH]; [done|]. simpl.
  unfold isFree at 1. simpl. rewrite bool_decide_false by set_solver.
  simpl. by rewrite IH.
Qed.

End Geometry.

(** X3.  [isValidLine] and the enumeration of [getAvailableLines] agree:
    an edge is valid exactly when its normal form is enumerated on the
    empty board.  Validity does not depend on the direction of the edge.
    The empty board of a grid of at least one dot has
    [totalPossibleLines] edges, and a grid of at most one dot has none. *)
Theorem isValidLine_enumerated (l : Line) (g : Z) (n : nat) :
  (isValidLine (ofLine l) g = true
   ↔ normalizeLine l ∈ getAvailableLines (createInitialState g n))
  ∧ isValidLine (ofLine (reversed l)) g = isValidLine (ofLine l) g
  ∧ isValidLine (ofLine (normalizeLine l)) g = isValidLine (ofLine l) g
  ∧ (1 ≤ g →
     Z.of_nat (length (getAvailableLines (createInitialState g n)))
     = totalPossibleLines g)
  ∧ (g ≤ 1 → getAvailableLines (createInitialState g n) = []).
Proof.
  rewrite getAvailableLines_init. split_and!.
  - split; [apply valid_normal|]. intros Hin.
    rewrite <-isValidLine_normalizeLine. apply isValidLine_allLines.
    exists (normalizeLine l). rewrite asLine_ofLine, normalizeLine_idemp. done.
  - apply isValidLine_reversed.
  - apply isValidLine_normalizeLine.
  - apply length_allLines.
  - apply allLines_empty.
Qed.

Ltac side_clash H :=
  apply H;
  [ apply elem_of_sides; auto 6 | apply elem_of_sides; auto 6
  | intros [=]; lia | done | done ].

Ltac key_cases l k :=
  destruct (decide (lineToKey l = k));
  [ rewrite (bool_decide_true (lineToKey l = k)) by done
  | rewrite (bool_decide_false (lineToKey l = k)) by done ].

(** X4.  [countBoxSides] lies between 0 and 4, [isBoxComplete] holds
    exactly when it is 4, and one more key in the set never lowers the
    count and raises it by at most one. *)
Theorem countBoxSides_facts (x y : Z) (k : string) (S : gset string) :
  0 ≤ countBoxSides x y S ≤ 4
  ∧ (isBoxComplete x y S = true ↔ countBoxSides x y S = 4)
  ∧ countBoxSides x y S ≤ countBoxSides x y ({[k]} ∪ S)
    ≤ countBoxSides x y S + 1.
Proof.
  split; [|split].
  { unfold countBoxSides. repeat case_bool_decide; simpl; lia. }
  { unfold countBoxSides, isBoxComplete.
    repeat case_bool_decide; simpl; split; done || lia. }
  assert (∀ l l', l ∈ sides x y → l' ∈ sides x y → l ≠ l' →
                  lineToKey l = k → lineToKey l' = k → False) as Hdiff.
  { intros l l' Hl Hl' Hne <- Heq. apply Hne. symmetry.
    by apply (sides_key_inj_all x y). }
  assert (∀ l, bool_decide (lineToKey l ∈ {[k]} ∪ S)
               = bool_decide (lineToKey l = k) || bool_decide (lineToKey l ∈ S))
    as Hin.
  { intros l. apply eq_true_iff_eq.
    rewrite orb_true_iff, !bool_decide_eq_true. set_solver. }
  unfold countBoxSides. rewrite !Hin.
  pose proof (Hdiff (x, y, x + 1, y) (x, y + 1, x + 1, y + 1)) as H12.
  pose proof (Hdiff (x, y, x + 1, y) (x, y, x, y + 1)) as H13.
  pose proof (Hdiff (x, y, x + 1, y) (x + 1, y, x + 1, y + 1)) as H14.
  pose proof (Hdiff (x, y + 1, x + 1, y + 1) (x, y, x, y + 1)) as H23.
  pose proof (Hdiff (x, y + 1, x + 1, y + 1) (x + 1, y, x + 1, y + 1)) as H24.
  pose proof (Hdiff (x, y, x, y + 1) (x + 1, y, x + 1, y + 1)) as H34.
  key_cases (x, y, x + 1, y) k; key_cases (x, y + 1, x + 1, y + 1) k;
  key_cases (x, y, x, y + 1) k; key_cases (x + 1, y, x + 1, y + 1) k;
  try (exfalso;
       first [ side_clash H12 | side_clash H13 | side_clash H14
             | side_clash H23 | side_clash H24 | side_clash H34 ]);
  simpl; repeat case_bool_decide; simpl; lia.
Qed.

(** X5.  For a valid edge, [findCompletedBoxes] returns exactly the keys
    of the boxes of the board that have the edge as a side and are
    complete in the set of keys; it returns nothing when the key of the
    edge itself is not in the set, and never more than two keys. *)
Theorem findCompletedBoxes_exact (l : Line) (g : Z) (S : gset string) :
  isValidLine (ofLine l) g = true →
  (∀ k, k ∈ findCompletedBoxes l g S ↔
     ∃ x y, k = boxKey x y ∧ 0 ≤ x < g - 1 ∧ 0 ≤ y < g - 1
            ∧ normalizeLine l ∈ sides x y ∧ isBoxComplete x y S = true)
  ∧ (lineToKey l ∉ S → findCompletedBoxes l g S = [])
  ∧ (length (findCompletedBoxes l g S) ≤ 2)%nat.
Proof.
  intros Hnl%valid_normal. rewrite <-findCompletedBoxes_normalizeLine.
  assert (∀ k, k ∈ findCompletedBoxes (normalizeLine l) g S →
     ∃ x y, k = boxKey x y ∧ 0 ≤ x < g - 1 ∧ 0 ≤ y < g - 1
            ∧ normalizeLine l ∈ sides x y ∧ isBoxComplete x y S = true) as Hsound.
  { intros k Hk.
    destruct (findCompletedBoxes_sound _ _ _ _ Hnl Hk)
      as (x & y & -> & ? & ? & ? & ?). by exists x, y. }
  split_and!.
  - intros k. split; [apply Hsound|].
    intros (x & y & -> & ? & ? & ? & ?). by apply findCompletedBoxes_complete.
  - intros Hfree.
    destruct (findCompletedBoxes (normalizeLine l) g S) as [|k ks] eqn:Hf; [done|].
    destruct (Hsound k) as (x & y & _ & _ & _ & Hs & Hc); [by left|].
    exfalso. apply Hfree. rewrite <-lineToKey_normalizeLine.
    by apply (proj1 (isBoxComplete_sides x y S) Hc).
  - by apply findCompletedBoxes_length.
Qed.

Lemma findCompletedBoxes_exact_witness :
  (∀ k, k ∈ findCompletedBoxes (1, 1, 1, 0) 3 (drawn (sides 0 0)) ↔
     ∃ x y, k = boxKey x y ∧ 0 ≤ x < 3 - 1 ∧ 0 ≤ y < 3 - 1
            ∧ normalizeLine (1, 1, 1, 0) ∈ sides x y
            ∧ isBoxComplete x y (drawn (sides 0 0)) = true)
  ∧ (lineToKey (1, 1, 1, 0) ∉ drawn (sides 0 0) →
     findCompletedBoxes (1, 1, 1, 0) 3 (drawn (sides 0 0)) = [])
  ∧ (length (findCompletedBoxes (1, 1, 1, 0)%Z 3%Z (drawn (sides 0%Z 0%Z)))
     ≤ 2)%nat.
Proof. apply findCompletedBoxes_exact. reflexivity. Defined.

(** ** The course of a game *)

Section Play.

Lemma getAvailableLines_withStarted (b : bool) (st : GameState) :
  getAvailableLines (withStarted b st) = getAvailableLines st.
Proof. done. Qed.

Lemma later_reachable (g : Z) (n : nat) (st st' : GameState) :
  reachable g n st → later st st' → reachable g n st'.
Proof.
  intros Hr. induction 1 as [|st st' line p st'' _ IH Hmove]; [done|].
  eapply reachable_move; [by apply IH|done].
Qed.

Lemma mathMax_NaN (xs : list (option num)) :
  None ∈ xs ∨ Some NaN ∈ xs → mathMax xs = NaN.
Proof.
  assert (∀ a, Num.max a NaN = NaN) as Hr by (by intros []).
  induction xs as [|s xs IH]; intros Hin.
  - destruct Hin as [Hin|Hin]; by apply elem_of_nil in Hin.
  - unfold mathMax. simpl. fold (mathMax xs).
    destruct (decide (s = None)) as [->|Hn]; [done|].
    destruct (decide (s = Some NaN)) as [->|Hn']; [done|].
    rewrite IH; [apply Hr|].
    destruct Hin as [Hin|Hin]; apply elem_of_cons in Hin as [?|?];
      try done; auto.
Qed.

Lemma no_slot_matches (m : num) (i : Z) (xs : list (option num)) :
  (∀ s, s ∈ xs → slotIs m s = false) →
  List.filter (slotIs m) xs = [] ∧ indexOfFrom i m xs = -1.
Proof.
  revert i. induction xs as [|s xs IH]; intros i Hall; [done|].
  simpl. rewrite Hall by left.
  apply IH. intros s' Hs'. apply Hall. by right.
Qed.

Lemma reachable_boxClosed : reachable 2 2 boxClosed.
Proof.
  apply (reachable_move 2 2 threeSides rightSide (Int 1)); [|reflexivity].
  apply reachable_threeSides.
Defined.

End Play.

(** X7.  In every state of a game on a grid of at least one dot, the
    available edges and the drawn edges together number
    [totalPossibleLines]. *)
Theorem available_plus_drawn (g : Z) (n : nat) (st : GameState) :
  1 ≤ g → (1 ≤ n)%nat → reachable g n st →
  Z.of_nat (length (getAvailableLines st)) + Z.of_nat (length (lines st))
  = totalPossibleLines g.
Proof.
  intros Hg Hn. induction 1 as [|st line p st' Hr IH Hmove|st b _ IH].
  - rewrite getAvailableLines_init, length_allLines by done. simpl. lia.
  - pose proof (reachable_wf g n st Hn Hr) as Hwf.
    apply applyMove_Some in Hmove as (l & _ & Hin & _ & _ & Hfree & ->).
    rewrite lines_successor, length_app. simpl.
    assert (normalizeLine l ∈ getAvailableLines st) as Ha.
    { apply elem_of_getAvailableLines. by rewrite lineToKey_normalizeLine. }
    pose proof (available_successor g n st (normalizeLine l) p Hwf Ha). lia.
  - by rewrite getAvailableLines_withStarted.
Qed.

Lemma available_plus_drawn_witness :
  Z.of_nat (length (getAvailableLines threeSides))
  + Z.of_nat (length (lines threeSides))
  = totalPossibleLines 2.
Proof.
  apply (available_plus_drawn 2 2); [lia|lia|apply reachable_threeSides].
Defined.

(** X6.  [getAvailableLines] returns exactly the edges that are valid on
    the grid of the state, in normal form and not taken, each of them
    once, also when compared by key. *)
Theorem getAvailableLines_exact (st : GameState) :
  (∀ l, l ∈ getAvailableLines st ↔
        isValidLine (ofLine l) (gridSize st) = true
        ∧ normalizeLine l = l
        ∧ isLineTaken (lineSet st) l = false)
  ∧ NoDup (getAvailableLines st)
  ∧ NoDup (lineToKey <$> getAvailableLines st).
Proof.
  split_and!.
  - intros l. rewrite elem_of_getAvailableLines. unfold isLineTaken.
    rewrite bool_decide_eq_false. split.
    + intros [Hin Hfree]. split_and!; [|by eapply allLines_normal|done].
      apply isValidLine_allLines. exists l.
      rewrite asLine_ofLine, (allLines_normal _ _ Hin). done.
    + intros (Hv%valid_normal & Hn & Hfree). by rewrite Hn in Hv.
  - rewrite getAvailableLines_filter.
    eapply sublist_NoDup; [apply NoDup_allLines|apply sublist_List_filter].
  - rewrite getAvailableLines_filter.
    eapply sublist_NoDup; [apply NoDup_allKeys|apply fmap_sublist, sublist_List_filter].
Qed.

(** X8.  On a grid of at least two dots, [isGameOver], which counts the
    drawn edges, agrees with the [gameOver] flag in every state of a game,
    and the flag is set exactly when no edge is available. *)
Theorem isGameOver_flag (g : Z) (n : nat) (st : GameState) :
  2 ≤ g → (1 ≤ n)%nat → reachable g n st →
  isGameOver st = gameOver st
  ∧ (gameOver st = true ↔ getAvailableLines st = []).
Proof.
  intros Hg Hn Hr.
  pose proof (reachable_wf g n st Hn Hr) as Hwf.
  pose proof (reachable_gameOver g n st Hg Hr) as Hset.
  split; [done|]. split.
  - intros Hover. destruct (getAvailableLines st) as [|a ls] eqn:Ha; [done|].
    assert (gameOver st = false); [|congruence].
    apply (settled_not_over g n st a Hwf Hset). rewrite Ha. by left.
  - apply (settled_over g n); [lia|done..].
Qed.

Lemma isGameOver_flag_witness :
  isGameOver boxClosed = gameOver boxClosed
  ∧ (gameOver boxClosed = true ↔ getAvailableLines boxClosed = []).
Proof.
  apply (isGameOver_flag 2 2); [lia|lia|apply reachable_boxClosed].
Defined.

(** X9.  For an empty score array, and for one that has an empty slot
    or a NaN, whatever the other scores are, [determineWinner] returns
    -1, which is neither the index of a player nor the [null] of a draw:
    no entry is strictly equal to the maximum, so [indexOf] finds
    none. *)
Theorem determineWinner_not_a_number (scores : list (option num)) :
  scores = [] ∨ None ∈ scores ∨ Some NaN ∈ scores →
  determineWinner scores = Some (-1).
Proof.
  intros Hs. unfold determineWinner, indexOf.
  assert (∀ s, s ∈ scores → slotIs (mathMax scores) s = false) as Hno.
  { destruct Hs as [->|Hs]; [by intros s ?%elem_of_nil|].
    rewrite (mathMax_NaN _ Hs). intros [[]|] _; done. }
  destruct (no_slot_matches (mathMax scores) 0 scores Hno) as [-> ->].
  done.
Qed.

Lemma determineWinner_not_a_number_witness :
  determineWinner [Some (Int 2); None; Some (Int 1)] = Some (-1).
Proof.
  apply determineWinner_not_a_number. right. left.
  apply list_elem_of_further, list_elem_of_here.
Defined.

(** X10.  [applyMove] does not depend on the direction of the edge: the
    edge, the edge with its endpoints exchanged and its normal form give
    the same result.  Hence [makeLocalMove], which normalises first,
    accepts exactly when [applyMove] accepts the edge as given, with the
    state [applyMove] returns, and keeps its state otherwise. *)
Theorem applyMove_direction (st : GameState) (l : Line) (p : num) :
  applyMove st (ofLine (reversed l)) p = applyMove st (ofLine l) p
  ∧ applyMove st (ofLine (normalizeLine l)) p = applyMove st (ofLine l) p
  ∧ makeLocalMove st l p
    = match applyMove st (ofLine l) p with
      | Some st' => (true, st')
      | None => (false, st)
      end.
Proof.
  assert (applyMove st (ofLine (normalizeLine l)) p = applyMove st (ofLine l) p)
    as Hn.
  { rewrite !applyMove_unfold, isValidLine_normalizeLine, !asLine_ofLine,
      normalizeLine_idemp. done. }
  split_and!; [|done|].
  - rewrite !applyMove_unfold, isValidLine_reversed, !asLine_ofLine,
      normalizeLine_reversed. done.
  - unfold makeLocalMove. rewrite Hn. by destruct (applyMove _ _ _).
Qed.

(** X11.  An accepted move draws a free edge.  After it the taken edges
    are those taken before and the edge of the move, in either direction;
    the normal form of the edge is appended to [lines]; and the same move
    is refused from then on, for every player. *)
Theorem applyMove_marks_edge (st : GameState) (line : input) (l : Line)
    (p : num) (st' : GameState) :
  applyMove st line p = Some st' → asLine line = Some l →
  isLineTaken (lineSet st) l = false
  ∧ (∀ l', isLineTaken (lineSet st') l'
           = isLineTaken (lineSet st) l' || isSameLine l' l)
  ∧ lines st' = lines st ++ [normalizeLine l]
  ∧ (∀ q, applyMove st' line q = None).
Proof.
  intros (l0 & Hl0 & _ & _ & _ & Hfree & ->)%applyMove_Some Hl.
  rewrite Hl in Hl0. injection Hl0 as <-.
  assert (lineSet (successor st (normalizeLine l) p)
          = lineSet st ++ [lineToKey l]) as Hset.
  { destruct (successor_spec st (normalizeLine l) p) as (b' & m & -> & _).
    simpl. by rewrite lineToKey_normalizeLine. }
  split_and!.
  - unfold isLineTaken. by apply bool_decide_eq_false.
  - intros l'. unfold isLineTaken, isSameLine. rewrite Hset.
    apply eq_true_iff_eq.
    rewrite orb_true_iff, !bool_decide_eq_true, elem_of_app,
      list_elem_of_singleton. done.
  - apply lines_successor.
  - intros q. apply applyMove_None. exists EdgeAlreadyDrawn. simpl.
    exists l. split; [done|]. rewrite Hset. apply elem_of_app. right.
    by apply list_elem_of_singleton.
Qed.

Lemma applyMove_marks_edge_witness :
  isLineTaken (lineSet board3) (0, 0, 1, 0) = false
  ∧ (∀ l', isLineTaken (lineSet afterTopLeft) l'
           = isLineTaken (lineSet board3) l' || isSameLine l' (0, 0, 1, 0))
  ∧ lines afterTopLeft = lines board3 ++ [normalizeLine (0, 0, 1, 0)]
  ∧ (∀ q, applyMove afterTopLeft topLeft q = None).
Proof.
  apply (applyMove_marks_edge board3 topLeft (0, 0, 1, 0) (Int 0) afterTopLeft);
    reflexivity.
Defined.

(** X12.  A game that is not over can go on: on a grid of at least two
    dots, every state of a game whose [gameOver] flag is not set has an
    available edge, [applyMove] accepts it for the current player, and the
    result is a state of the game with one more drawn edge. *)
Theorem no_deadlock (g : Z) (n : nat) (st : GameState) :
  2 ≤ g → (1 ≤ n)%nat → reachable g n st → gameOver st = false →
  ∃ a st', a ∈ getAvailableLines st
           ∧ applyMove st (ofLine a) (currentPlayer st) = Some st'
           ∧ reachable g n st'
           ∧ length (lines st') = S (length (lines st)).
Proof.
  intros Hg Hn Hr Hover.
  pose proof (reachable_wf g n st Hn Hr) as Hwf.
  pose proof (reachable_gameOver g n st Hg Hr) as Hset.
  destruct (getAvailableLines st) as [|a ls] eqn:Ha.
  { rewrite (settled_over g n st) in Hover; [done|lia|done..]. }
  assert (a ∈ getAvailableLines st) as Hin by (rewrite Ha; by left).
  pose proof (available_move g n st a Hwf Hover Hin) as Hmove.
  assert (normalizeLine a = a) as Hnorm.
  { apply elem_of_getAvailableLines in Hin as [Hin _].
    by eapply allLines_normal. }
  rewrite Hnorm in Hmove.
  exists a, (successor st a (currentPlayer st)). split_and!; [by left|done| |].
  - by eapply reachable_move.
  - rewrite lines_successor, length_app. simpl. lia.
Qed.

Lemma no_deadlock_witness :
  ∃ a st', a ∈ getAvailableLines threeSides
           ∧ applyMove threeSides (ofLine a) (currentPlayer threeSides) = Some st'
           ∧ reachable 2 2 st'
           ∧ length (lines st') = S (length (lines threeSides)).
Proof.
  apply (no_deadlock 2 2);
    [lia|lia|apply reachable_threeSides|reflexivity].
Defined.

(** ** Owners and scores *)

Section Tally.

Lemma readAt_ints (c : Z) (zs : list Z) :
  0 ≤ c → readAt c (ints zs) = Int <$> zs !! Z.to_nat c.
Proof.
  intros Hc. unfold readAt, ints. rewrite bool_decide_eq_false_2 by lia.
  rewrite list_lookup_fmap. by destruct (zs !! Z.to_nat c).
Qed.

Lemma size_filter_split {A} (P : string * A → Prop) `{!∀ x, Decision (P x)}
    (m : gmap string A) :
  size m = (size (filter P m) + size (filter (λ v, ¬ P v) m))%nat.
Proof.
  rewrite <-map_size_disj_union by apply map_disjoint_filter_complement.
  by rewrite map_filter_union_complement.
Qed.

(** What the claiming loop does to the boxes one player owns. *)
Lemma owned_after (b b' : gmap string num) (ks : list string) (c : Z) (m : nat) :
  (∀ k, b' !! k = match b !! k with
                  | Some v => Some v
                  | None => if bool_decide (k ∈ ks) then Some (Int c) else None
                  end) →
  size b' = (size b + m)%nat →
  (∀ c', c' ≠ c →
     filter (λ kv : string * num, kv.2 = Int c') b'
     = filter (λ kv : string * num, kv.2 = Int c') b)
  ∧ size (filter (λ kv : string * num, kv.2 = Int c) b')
    = (size (filter (λ kv : string * num, kv.2 = Int c) b) + m)%nat.
Proof.
  intros Hlk Hsz. split.
  - intros c' Hc'. apply map_filter_strong_ext. intros k v. simpl.
    rewrite Hlk. destruct (b !! k) as [w|]; [done|].
    case_bool_decide; split; intros [-> Heq]; try done.
    injection Heq as [= ->]. done.
  - pose proof (size_filter_split (λ kv : string * num, kv.2 = Int c) b') as H1.
    pose proof (size_filter_split (λ kv : string * num, kv.2 = Int c) b) as H2.
    cbv beta in H1, H2.
    match type of H1 with
    | _ = (_ + size ?X)%nat =>
        match type of H2 with
        | _ = (_ + size ?Y)%nat => assert (X = Y) as Hrest
        end
    end.
    { apply map_filter_strong_ext. intros k v. simpl.
      rewrite Hlk. destruct (b !! k) as [w|]; [done|].
      case_bool_decide; split; intros [Hne Heq]; try done.
      injection Heq as <-. done. }
    rewrite Hrest in H1. lia.
Qed.

Lemma isBoxComplete_empty (x y : Z) : isBoxComplete x y ∅ = false.
Proof. unfold isBoxComplete. by rewrite bool_decide_eq_false_2 by set_solver. Qed.

Lemma tally_init (g : Z) (n : nat) : tally g n (createInitialState g n).
Proof.
  split; simpl.
  - intros x y _ _. by rewrite isBoxComplete_empty.
  - intros k v. by rewrite lookup_empty.
  - intros c Hc. unfold readAt, ownedBy. simpl.
    rewrite bool_decide_eq_false_2 by lia.
    rewrite lookup_replicate_2 by lia. simpl.
    by rewrite map_filter_empty, map_size_empty.
Qed.

Lemma tally_step (g : Z) (n : nat) (st : GameState) (line : input) (p : num)
    (st' : GameState) :
  wf g n st → tally g n st → applyMove st line p = Some st' → tally g n st'.
Proof.
  intros [Hg Hn (zs & Hzs & Hlen & Htot) (c & Hc & Hcn) Hset Hnd Hlines Hboxes].
  intros [Hcomplete Howner Hscores].
  intros (l & _ & Hin & _ & Heq & Hfree & ->)%applyMove_Some.
  rewrite Hc in Heq. apply strictEq_Int in Heq as ->. rewrite Hg in Hin.
  rewrite <-lineToKey_normalizeLine in Hfree.
  set (nl := normalizeLine l) in *.
  destruct (successor_spec st nl (Int c)) as (b' & m & -> & Hsz & Hlk & _).
  destruct (owned_after (boxes st) b' (completedBy st nl) c m Hlk Hsz)
    as [Hother Hmover].
  split; simpl.
  - intros x y Hx Hy Hnew. rewrite Hlk.
    destruct (boxes st !! boxKey x y) as [v|] eqn:Hold; [by eauto|].
    rewrite list_to_set_app_L in Hnew.
    assert (isBoxComplete x y ({[lineToKey nl]} ∪ list_to_set (lineSet st)) = true)
      as Hnew'.
    { eapply isBoxComplete_mono; [|done]. set_solver. }
    assert (nl ∈ sides x y) as Hside.
    { destruct (decide (nl ∈ sides x y)) as [|Hno]; [done|]. exfalso.
      assert (is_Some (boxes st !! boxKey x y)) as [v Hv]; [|congruence].
      apply Hcomplete; [done..|]. apply isBoxComplete_sides. intros a Ha.
      pose proof (proj1 (isBoxComplete_sides _ _ _) Hnew' a Ha) as Hk.
      apply elem_of_union in Hk as [Hk%elem_of_singleton|Hk]; [|done].
      exfalso. apply Hno.
      apply lineToKey_inj_all in Hk.
      rewrite (sides_normal x y a Ha), (allLines_normal g nl Hin) in Hk.
      by subst. }
    rewrite bool_decide_eq_true_2; [by eauto|].
    unfold completedBy. rewrite Hg.
    by apply findCompletedBoxes_complete.
  - intros k v. rewrite Hlk.
    destruct (boxes st !! k) as [w|] eqn:Hold.
    + intros [= <-]. by eapply Howner.
    + case_bool_decide; [|done]. intros [= <-]. by exists c.
  - intros c' Hc'. unfold ownedBy. simpl.
    rewrite Hzs, iter_incrementAt_ints by lia.
    rewrite readAt_ints by lia.
    pose proof (Hscores c' Hc') as Hold.
    rewrite Hzs, readAt_ints in Hold by lia. unfold ownedBy in Hold.
    destruct (decide (c' = c)) as [->|Hne].
    + rewrite list_lookup_alter, decide_True by done.
      destruct (zs !! Z.to_nat c) as [z|]; [|done]. simpl in *.
      injection Hold as [= ->]. rewrite Hmover. do 2 f_equal. lia.
    + rewrite list_lookup_alter_ne by lia. by rewrite Hother.
Qed.

Lemma reachable_tally (g : Z) (n : nat) (st : GameState) :
  (1 ≤ n)%nat → reachable g n st → tally g n st.
Proof.
  intros Hn. induction 1 as [|st line p st' Hr IH Hmove|st b _ IH].
  - apply tally_init.
  - eapply tally_step; [by apply reachable_wf|done..].
  - by destruct IH.
Qed.

Lemma elem_of_allBoxes (g : Z) (k : string) :
  k ∈ allBoxes g ↔ ∃ x y, k = boxKey x y ∧ 0 ≤ x < g - 1 ∧ 0 ≤ y < g - 1.
Proof.
  unfold allBoxes. rewrite list_elem_of_bind. split.
  - intros (y & (x & Hk & Hx)%list_elem_of_bind & Hy).
    apply list_elem_of_singleton in Hk. apply elem_of_seqZ in Hx, Hy.
    exists x, y. split_and!; [done|lia..].
  - intros (x & y & -> & ? & ?). exists y. split; [|apply elem_of_seqZ; lia].
    apply list_elem_of_bind. exists x. split; [by apply list_elem_of_singleton|].
    apply elem_of_seqZ; lia.
Qed.

Lemma NoDup_allBoxes (g : Z) : NoDup (allBoxes g).
Proof.
  unfold allBoxes. apply NoDup_bind; [| |apply NoDup_seqZ].
  - intros y1 y2 k _ _ (x1 & Hk1 & _)%list_elem_of_bind
      (x2 & Hk2 & _)%list_elem_of_bind.
    apply list_elem_of_singleton in Hk1, Hk2. subst k.
    by apply boxKey_inj_all in Hk2 as [_ ?].
  - intros y _. apply NoDup_bind; [| |apply NoDup_seqZ].
    + intros x1 x2 k _ _ Hk1%list_elem_of_singleton Hk2%list_elem_of_singleton.
      subst k. by apply boxKey_inj_all in Hk2 as [? _].
    + intros; apply NoDup_singleton.
Qed.

Lemma length_allBoxes (g : Z) :
  1 ≤ g → Z.of_nat (length (allBoxes g)) = (g - 1) * (g - 1).
Proof.
  intros Hg. unfold allBoxes.
  rewrite (length_bind_const _ (Z.to_nat (g - 1))), length_seqZ; [nia|].
  intros y. rewrite (length_bind_const _ 1%nat), length_seqZ; [lia|done].
Qed.

(** The owned boxes are boxes of the grid, so there are at most
    [(g - 1)²] of them. *)
Lemma wf_size_boxes (g : Z) (n : nat) (st : GameState) :
  1 ≤ g → wf g n st → Z.of_nat (size (boxes st)) ≤ (g - 1) * (g - 1).
Proof.
  intros Hg Hwf. rewrite <-length_allBoxes by done.
  rewrite <-(size_list_to_set (C := gset string)) by apply NoDup_allBoxes.
  rewrite <-(size_dom (D := gset string)).
  apply Nat2Z.inj_le, subseteq_size. intros k Hk%elem_of_dom.
  apply elem_of_list_to_set, elem_of_allBoxes.
  destruct (wf_boxes _ _ _ Hwf k Hk) as (x & y & -> & ? & ? & _). eauto.
Qed.

End Tally.

(** X13.  In every state of a game a box of the board has an owner in
    [boxes] exactly when its four sides are drawn, and every entry of
    [boxes] is a box of the board owned by the index of a player. *)
Theorem owned_iff_complete (g : Z) (n : nat) (st : GameState) :
  (1 ≤ n)%nat → reachable g n st →
  (∀ x y, 0 ≤ x < g - 1 → 0 ≤ y < g - 1 →
     (is_Some (boxes st !! boxKey x y)
      ↔ isBoxComplete x y (list_to_set (lineSet st)) = true))
  ∧ (∀ k v, boxes st !! k = Some v →
       ∃ x y c, k = boxKey x y ∧ 0 ≤ x < g - 1 ∧ 0 ≤ y < g - 1
                ∧ v = Int c ∧ 0 ≤ c < Z.of_nat n).
Proof.
  intros Hn Hr.
  pose proof (reachable_wf g n st Hn Hr) as Hwf.
  pose proof (reachable_tally g n st Hn Hr) as Ht.
  split.
  - intros x y Hx Hy. split; [|by apply (tally_complete _ _ _ Ht)].
    intros Hsome.
    destruct (wf_boxes _ _ _ Hwf _ Hsome) as (x' & y' & Hk & _ & _ & Hc).
    by apply boxKey_inj_all in Hk as [-> ->].
  - intros k v Hk.
    destruct (wf_boxes _ _ _ Hwf k) as (x & y & -> & ? & ? & _); [by eauto|].
    destruct (tally_owner _ _ _ Ht _ _ Hk) as (c & -> & ?).
    by exists x, y, c.
Qed.

Lemma owned_iff_complete_witness :
  (∀ x y, 0 ≤ x < 2 - 1 → 0 ≤ y < 2 - 1 →
     (is_Some (boxes boxClosed !! boxKey x y)
      ↔ isBoxComplete x y (list_to_set (lineSet boxClosed)) = true))
  ∧ (∀ k v, boxes boxClosed !! k = Some v →
       ∃ x y c, k = boxKey x y ∧ 0 ≤ x < 2 - 1 ∧ 0 ≤ y < 2 - 1
                ∧ v = Int c ∧ 0 ≤ c < Z.of_nat 2).
Proof. apply (owned_iff_complete 2 2); [lia|apply reachable_boxClosed]. Defined.

(** X14.  In every state of a game the score of a player is the number
    of boxes that [boxes] gives to that player. *)
Theorem score_counts_owned (g : Z) (n : nat) (st : GameState) (c : Z) :
  (1 ≤ n)%nat → reachable g n st → 0 ≤ c < Z.of_nat n →
  readAt c (scores st) = Some (Int (Z.of_nat (ownedBy st c))).
Proof.
  intros Hn Hr Hc. by apply (tally_scores g n st (reachable_tally g n st Hn Hr)).
Qed.

Lemma score_counts_owned_witness :
  readAt 1 (scores boxClosed) = Some (Int (Z.of_nat (ownedBy boxClosed 1))).
Proof.
  apply (score_counts_owned 2 2); [lia|apply reachable_boxClosed|lia].
Defined.

(** X15.  On a grid of [g] dots a side, [g] at least two, a state of a
    game never has more than (g - 1) * (g - 1) owned boxes; when the game
    is over every box of the board is owned and the scores add up to
    (g - 1) * (g - 1). *)
Theorem final_scores_total (g : Z) (n : nat) (st : GameState) :
  2 ≤ g → (1 ≤ n)%nat → reachable g n st →
  Z.of_nat (size (boxes st)) ≤ (g - 1) * (g - 1)
  ∧ (gameOver st = true →
     (∀ x y, 0 ≤ x < g - 1 → 0 ≤ y < g - 1 → is_Some (boxes st !! boxKey x y))
     ∧ ∃ zs, scores st = ints zs ∧ total zs = (g - 1) * (g - 1)).
Proof.
  intros Hg Hn Hr.
  pose proof (reachable_wf g n st Hn Hr) as Hwf.
  pose proof (reachable_tally g n st Hn Hr) as Ht.
  split; [apply (wf_size_boxes g n); [lia|done]|].
  intros Hover.
  assert (∀ x y, 0 ≤ x < g - 1 → 0 ≤ y < g - 1 →
                 is_Some (boxes st !! boxKey x y)) as Hall.
  { intros x y Hx Hy. apply (tally_complete _ _ _ Ht); [done..|].
    apply isBoxComplete_sides. intros a Ha. apply elem_of_list_to_set.
    apply (wf_full g n); [done|lia| |by apply (sides_allLines g x y)].
    rewrite (reachable_gameOver g n st Hg Hr), bool_decide_eq_true in Hover.
    rewrite (wf_gridSize _ _ _ Hwf) in Hover. lia. }
  split; [done|].
  destruct (wf_scores _ _ _ Hwf) as (zs & Hzs & _ & Htot).
  exists zs. split; [done|]. rewrite Htot.
  rewrite <-length_allBoxes by lia.
  rewrite <-(size_list_to_set (C := gset string)) by apply NoDup_allBoxes.
  rewrite <-(size_dom (D := gset string)). do 2 f_equal.
  apply set_eq. intros k. rewrite elem_of_dom, elem_of_list_to_set, elem_of_allBoxes.
  split.
  - intros Hk. destruct (wf_boxes _ _ _ Hwf k Hk) as (x & y & -> & ? & ? & _).
    eauto.
  - intros (x & y & -> & ? & ?). by apply Hall.
Qed.

Lemma final_scores_total_witness :
  Z.of_nat (size (boxes boxClosed)) ≤ (2 - 1) * (2 - 1)
  ∧ (gameOver boxClosed = true →
     (∀ x y, 0 ≤ x < 2 - 1 → 0 ≤ y < 2 - 1 →
             is_Some (boxes boxClosed !! boxKey x y))
     ∧ ∃ zs, scores boxClosed = ints zs ∧ total zs = (2 - 1) * (2 - 1)).
Proof.
  apply (final_scores_total 2 2); [lia|lia|apply reachable_boxClosed].
Defined.

(** ** Histories; the greedy and the searching strategy *)

Section History.

Lemma later_lines (st st' : GameState) :
  later st st' →
  lines st `prefix_of` lines st'
  ∧ gridSize st' = gridSize st ∧ maxPlayers st' = maxPlayers st
  ∧ started st' = started st.
Proof.
  induction 1 as [|st st' line p st'' _ (Hpre & Hg & Hn & Hs) Hmove]; [done|].
  apply applyMove_Some in Hmove as (l & _ & _ & _ & _ & _ & ->).
  destruct (successor_spec st' (normalizeLine l) p) as (b' & m & -> & _).
  simpl. split_and!; [|done..].
  etrans; [done|]. by apply prefix_app_r.
Qed.

Lemma later_boxes (st st' : GameState) : later st st' → boxes st ⊆ boxes st'.
Proof.
  intros Hl. apply map_subseteq_spec. intros k v. by apply later_owner.
Qed.

Lemma later_ownedBy (st st' : GameState) (c : Z) :
  later st st' → (ownedBy st c ≤ ownedBy st' c)%nat.
Proof.
  intros Hl. unfold ownedBy.
  by apply map_subseteq_size, map_filter_subseteq_mono, later_boxes.
Qed.

End History.

(** X16.  Moves only add: in a state that follows a state of a game
    after any number of accepted moves, the earlier [lines] are a prefix
    of the later ones, [gridSize], [maxPlayers] and [started] are
    unchanged, and no player's score has decreased. *)
Theorem game_history (g : Z) (n : nat) (st st' : GameState) (c : Z) :
  (1 ≤ n)%nat → reachable g n st → later st st' → 0 ≤ c < Z.of_nat n →
  lines st `prefix_of` lines st'
  ∧ gridSize st' = gridSize st ∧ maxPlayers st' = maxPlayers st
  ∧ started st' = started st
  ∧ ∃ z z', readAt c (scores st) = Some (Int z)
            ∧ readAt c (scores st') = Some (Int z') ∧ 0 ≤ z ≤ z'.
Proof.
  intros Hn Hr Hl Hc.
  destruct (later_lines st st' Hl) as (? & ? & ? & ?).
  do 4 (split; [done|]).
  exists (Z.of_nat (ownedBy st c)), (Z.of_nat (ownedBy st' c)).
  split_and!.
  - by apply (tally_scores g n st (reachable_tally g n st Hn Hr)).
  - apply (tally_scores g n st'); [|done].
    apply reachable_tally; [done|]. by eapply later_reachable.
  - lia.
  - apply Nat2Z.inj_le. by apply later_ownedBy.
Qed.

Lemma later_boxClosed : later threeSides boxClosed.
Proof.
  apply (later_move threeSides threeSides rightSide (Int 1));
    [apply later_now|reflexivity].
Defined.

Lemma game_history_witness :
  lines threeSides `prefix_of` lines boxClosed
  ∧ gridSize boxClosed = gridSize threeSides
  ∧ maxPlayers boxClosed = maxPlayers threeSides
  ∧ started boxClosed = started threeSides
  ∧ ∃ z z', readAt 1 (scores threeSides) = Some (Int z)
            ∧ readAt 1 (scores boxClosed) = Some (Int z') ∧ 0 ≤ z ≤ z'.
Proof.
  apply (game_history 2 2);
    [lia|apply reachable_threeSides|apply later_boxClosed|lia].
Defined.

Section Strategies.

Lemma nonempty_length {A} (l : list A) :
  l ≠ [] → bool_decide (length l = 0%nat) = false.
Proof. intros Hl. apply bool_decide_eq_false_2. by destruct l. Qed.

(** A box with three sides drawn: the side that is missing. *)
Lemma countBoxSides_three (x y : Z) (S : gset string) :
  countBoxSides x y S = 3 →
  ∃ a, a ∈ sides x y ∧ (lineToKey a ∉ S)
       ∧ isBoxComplete x y ({[lineToKey a]} ∪ S) = true.
Proof.
  unfold countBoxSides, isBoxComplete. intros H3.
  repeat case_bool_decide; simpl in H3; try lia.
  - exists (x + 1, y, x + 1, y + 1). split; [apply elem_of_sides; auto 6|].
    split; [done|]. rewrite !bool_decide_eq_true_2 by set_solver. done.
  - exists (x, y, x, y + 1). split; [apply elem_of_sides; auto 6|].
    split; [done|]. rewrite !bool_decide_eq_true_2 by set_solver. done.
  - exists (x, y + 1, x + 1, y + 1). split; [apply elem_of_sides; auto 6|].
    split; [done|]. rewrite !bool_decide_eq_true_2 by set_solver. done.
  - exists (x, y, x + 1, y). split; [apply elem_of_sides; auto 6|].
    split; [done|]. rewrite !bool_decide_eq_true_2 by set_solver. done.
Qed.

(** The test of priority 1 in [mediumAI], on a state of a game: the edge
    newly completes a box. *)
Lemma completesBox_claims (g : Z) (n : nat) (st : GameState) (a : Line) :
  wf g n st → a ∈ getAvailableLines st →
  completesBox st (list_to_set (lineSet st)) a = true →
  newlyCompleted st a ≠ [].
Proof.
  intros Hwf [Hin Hfree]%elem_of_getAvailableLines Hcomp.
  rewrite (wf_gridSize _ _ _ Hwf) in Hin.
  unfold completesBox in Hcomp.
  rewrite (allLines_normal g a Hin), (wf_gridSize _ _ _ Hwf) in Hcomp.
  apply bool_decide_eq_true in Hcomp.
  apply newlyCompleted_nonempty. unfold completedBy.
  rewrite (wf_gridSize _ _ _ Hwf).
  destruct (findCompletedBoxes a g _) as [|k ks] eqn:Hk; simpl in Hcomp; [lia|].
  exists k. split; [by left|].
  assert (k ∈ findCompletedBoxes a g
            ({[lineToKey a]} ∪ list_to_set (lineSet st))) as Hk'
    by (rewrite Hk; by left).
  apply findCompletedBoxes_sound in Hk'
    as (x & y & -> & Hx & Hy & _ & Hside); [|done].
  by apply (wf_unowned g n st x y a).
Qed.

Lemma considerMove_fold_legal (st : GameState) (D : nat) (ai : Z)
    (L l : list Line) (best : num * option Line) :
  (∀ a, a ∈ l → a ∈ L) →
  (∀ mv, best.2 = Some mv →
     mv ∈ L
     ∧ is_Some (applyMove st (ofLine (normalizeLine mv)) (currentPlayer st))) →
  ∀ mv, (foldl (considerMove st D ai) best l).2 = Some mv →
        mv ∈ L
        ∧ is_Some (applyMove st (ofLine (normalizeLine mv)) (currentPlayer st)).
Proof.
  revert best. induction l as [|a l IH]; intros best Hl Hbest mv; simpl.
  - apply Hbest.
  - apply IH; [intros a' Ha'; apply Hl; by right|].
    intros mv'. unfold considerMove.
    destruct (applyMove st (ofLine (normalizeLine a)) _) as [st'|] eqn:Ha;
      [|apply Hbest].
    destruct (Num.gt _ _); simpl; [|apply Hbest].
    intros [= <-]. split; [apply Hl; by left|]. by rewrite Ha.
Qed.

(** Without a score for [ai] the leaf evaluation is NaN. *)
Lemma evaluate_outsider (g : Z) (n : nat) (st : GameState) (ai : Z) :
  wf g n st → ¬ (0 ≤ ai < Z.of_nat n) → evaluate st ai = NaN.
Proof.
  intros Hwf Hai. destruct (wf_scores _ _ _ Hwf) as (zs & Hzs & Hlen & _).
  unfold evaluate. rewrite Hzs.
  assert (readAt ai (ints zs) = None) as ->; [|done].
  unfold readAt. case_bool_decide; [done|].
  rewrite (lookup_ge_None_2 (ints zs)); [done|].
  unfold ints. rewrite length_fmap. lia.
Qed.

Section LoopsNaN.

Variable recur : GameState → num → num → bool → num.
Variable st : GameState.
Variable ai : Z.
Hypothesis recur_NaN :
  ∀ a st', applyMove st (ofLine (normalizeLine a)) (currentPlayer st) = Some st' →
           ∀ al be m, recur st' al be m = NaN.

Lemma maxLoop_NaN (avail : list Line) (alpha beta acc : num) :
  (∀ a, a ∈ avail →
     is_Some (applyMove st (ofLine (normalizeLine a)) (currentPlayer st))) →
  avail ≠ [] ∨ acc = NaN →
  maxLoop recur st ai avail alpha beta acc = NaN.
Proof.
  revert alpha acc. induction avail as [|a avail IH]; intros alpha acc Hall Hacc.
  - by destruct Hacc.
  - simpl. destruct (Hall a) as [st' Hst']; [by left|].
    rewrite Hst', (recur_NaN a st' Hst').
    assert (Num.max acc NaN = NaN) as -> by (by destruct acc).
    assert (Num.max alpha NaN = NaN) as -> by (by destruct alpha).
    assert (Num.le beta NaN = false) as -> by (by destruct beta).
    apply IH; [|by right]. intros a' Ha'. apply Hall. by right.
Qed.

Lemma minLoop_NaN (avail : list Line) (alpha beta acc : num) :
  (∀ a, a ∈ avail →
     is_Some (applyMove st (ofLine (normalizeLine a)) (currentPlayer st))) →
  avail ≠ [] ∨ acc = NaN →
  minLoop recur st ai avail alpha beta acc = NaN.
Proof.
  revert beta acc. induction avail as [|a avail IH]; intros beta acc Hall Hacc.
  - by destruct Hacc.
  - simpl. destruct (Hall a) as [st' Hst']; [by left|].
    rewrite Hst', (recur_NaN a st' Hst').
    assert (Num.min acc NaN = NaN) as -> by (by destruct acc).
    assert (Num.min beta NaN = NaN) as -> by (by destruct beta).
    assert (Num.le NaN alpha = false) as -> by done.
    apply IH; [|by right]. intros a' Ha'. apply Hall. by right.
Qed.

End LoopsNaN.

Lemma wf_settled_successor (g : Z) (n : nat) (st : GameState) (a : Line) :
  wf g n st → gameOver st = false → a ∈ getAvailableLines st →
  applyMove st (ofLine (normalizeLine a)) (currentPlayer st)
  = Some (successor st a (currentPlayer st))
  ∧ wf g n (successor st a (currentPlayer st))
  ∧ settled (successor st a (currentPlayer st)).
Proof.
  intros Hwf Hover Ha.
  pose proof (available_move g n st a Hwf Hover Ha) as Hmove.
  split_and!; [done|by eapply wf_step|apply settled_successor].
Qed.

Lemma minimax_outsider (g : Z) (n : nat) (ai : Z) (d : nat) (st : GameState)
    (alpha beta : num) (isMax : bool) :
  wf g n st → settled st → ¬ (0 ≤ ai < Z.of_nat n) →
  minimax d st alpha beta isMax ai = NaN.
Proof.
  intros Hwf Hset Hai. revert st alpha beta isMax Hwf Hset.
  induction d as [|d IH]; intros st alpha beta isMax Hwf Hset.
  { by apply (evaluate_outsider g n). }
  rewrite minimax_S.
  destruct (gameOver st) eqn:Hover; [by apply (evaluate_outsider g n)|].
  case_bool_decide as Hlen; [by apply (evaluate_outsider g n)|].
  assert (∀ a st',
    applyMove st (ofLine (normalizeLine a)) (currentPlayer st) = Some st' →
    ∀ al be m, minimax d st' al be m ai = NaN) as Hrec.
  { intros a st' Hst' al be m.
    apply applyMove_Some in Hst' as Hst''.
    destruct Hst'' as (l & _ & _ & _ & _ & _ & ->).
    apply IH; [by eapply wf_step|apply settled_successor]. }
  assert (∀ a, a ∈ getAvailableLines st →
    is_Some (applyMove st (ofLine (normalizeLine a)) (currentPlayer st))) as Hall.
  { intros a Ha. by rewrite (available_move g n st a Hwf Hover Ha). }
  assert (getAvailableLines st ≠ []) as Hne.
  { intros Heq. by rewrite Heq in Hlen. }
  destruct (_ || _).
  - apply maxLoop_NaN; [done..|by left].
  - apply minLoop_NaN; [done..|by left].
Qed.

End Strategies.

(** X17.  When a box of the board has exactly three sides drawn,
    [mediumAI] returns an available edge that completes a box, the same
    one whatever the random source; [applyMove] accepts it for the current
    player, who keeps the turn. *)
Theorem mediumAI_takes_box (rnd : nat → nat) (g : Z) (n : nat)
    (st : GameState) (x y : Z) :
  (1 ≤ n)%nat → reachable g n st →
  0 ≤ x < g - 1 → 0 ≤ y < g - 1 →
  countBoxSides x y (list_to_set (lineSet st)) = 3 →
  ∃ mv st',
    mediumAI rnd st = Some mv
    ∧ mv ∈ getAvailableLines st
    ∧ newlyCompleted st mv ≠ []
    ∧ applyMove st (ofLine (normalizeLine mv)) (currentPlayer st) = Some st'
    ∧ currentPlayer st' = currentPlayer st
    ∧ ∀ rnd', mediumAI rnd' st = Some mv.
Proof.
  intros Hn Hr Hx Hy H3. pose proof (reachable_wf g n st Hn Hr) as Hwf.
  set (S := list_to_set (lineSet st) : gset string) in *.
  destruct (countBoxSides_three x y S H3) as (a & Hside & Hfree & Hcomp).
  assert (a ∈ allLines g) as Hin by by apply (sides_allLines g x y).
  assert (a ∈ getAvailableLines st) as Ha.
  { apply elem_of_getAvailableLines. rewrite (wf_gridSize _ _ _ Hwf).
    split; [done|]. intros Hk. apply Hfree. by apply elem_of_list_to_set. }
  assert (completesBox st S a = true) as Hca.
  { unfold completesBox.
    rewrite (allLines_normal g a Hin), (wf_gridSize _ _ _ Hwf).
    apply bool_decide_eq_true.
    pose proof (findCompletedBoxes_complete a g x y _ Hin Hx Hy Hside Hcomp) as Hk.
    destruct (findCompletedBoxes a g _); [by apply elem_of_nil in Hk|].
    simpl. lia. }
  destruct (find (completesBox st S) (getAvailableLines st)) as [mv|] eqn:Hfind.
  2: { pose proof (find_none _ _ Hfind a (proj1 (list_elem_of_In _ _) Ha)).
       congruence. }
  apply find_some in Hfind as Hmv. destruct Hmv as [Hmv%list_elem_of_In Hcm].
  assert (∀ rnd', mediumAI rnd' st = Some mv) as Hall.
  { intros rnd'. unfold mediumAI. fold S. rewrite Hfind.
    rewrite nonempty_length; [done|]. intros Heq. rewrite Heq in Ha.
    by apply elem_of_nil in Ha. }
  pose proof (completesBox_claims g n st mv Hwf Hmv Hcm) as Hnew.
  pose proof (reachable_not_over g n st mv Hn Hr Hmv) as Hover.
  pose proof (available_move g n st mv Hwf Hover Hmv) as Hmove.
  exists mv, (successor st mv (currentPlayer st)).
  split_and!; [done..| |done].
  assert (normalizeLine mv = mv) as Hnorm.
  { apply elem_of_getAvailableLines in Hmv as [Hmv' _].
    by eapply allLines_normal. }
  rewrite (applyMove_turn st _ (normalizeLine mv) _ _ Hmove (asLine_ofLine _)).
  rewrite !normalizeLine_idemp, Hnorm.
  rewrite (bool_decide_eq_true_2 _ Hnew).
  by destruct (gameOver (successor st mv (currentPlayer st))).
Qed.

Lemma mediumAI_takes_box_witness :
  ∃ mv st',
    mediumAI (λ _, 0%nat) threeSides = Some mv
    ∧ mv ∈ getAvailableLines threeSides
    ∧ newlyCompleted threeSides mv ≠ []
    ∧ applyMove threeSides (ofLine (normalizeLine mv))
        (currentPlayer threeSides) = Some st'
    ∧ currentPlayer st' = currentPlayer threeSides
    ∧ ∀ rnd', mediumAI rnd' threeSides = Some mv.
Proof.
  apply (mediumAI_takes_box _ 2 2 threeSides 0 0);
    [lia|apply reachable_threeSides|lia|lia|reflexivity].
Defined.

(** X18.  When [aiPlayerIndex] is not the index of a player, [hardAI]
    returns no move in any state of a game, also when edges are
    available: on a grid of at least two dots every search evaluates to
    NaN, which no comparison with the best score accepts. *)
Theorem hardAI_outsider (g : Z) (n : nat) (st : GameState) (ai : Z) :
  (1 ≤ n)%nat → reachable g n st → ¬ (0 ≤ ai < Z.of_nat n) →
  hardAI st ai = None
  ∧ ∀ d alpha beta m, 2 ≤ g → minimax d st alpha beta m ai = NaN.
Proof.
  intros Hn Hr Hai. pose proof (reachable_wf g n st Hn Hr) as Hwf.
  split.
  - unfold hardAI. case_bool_decide; [done|].
    assert (∀ l best, best.2 = None →
      (∀ a, a ∈ l → a ∈ getAvailableLines st) →
      (foldl (considerMove st (maxDepthOf (getAvailableLines st)) ai) best l).2
      = None) as Hfold; [|by apply Hfold].
    induction l as [|a l IH]; intros best Hbest Hl; [done|]. simpl.
    apply IH; [|intros a' Ha'; apply Hl; by right].
    assert (a ∈ getAvailableLines st) as Ha by (apply Hl; by left).
    pose proof (reachable_not_over g n st a Hn Hr Ha) as Hover.
    destruct (wf_settled_successor g n st a Hwf Hover Ha) as (Hmove & Hwf' & Hset').
    unfold considerMove. rewrite Hmove.
    rewrite (minimax_outsider g n) by done.
    by assert (Num.gt NaN best.1 = false) as -> by (by destruct best.1).
  - intros d alpha beta m Hg. apply (minimax_outsider g n); [done| |done].
    by apply (reachable_gameOver g n).
Qed.

Lemma hardAI_outsider_witness :
  hardAI threeSides 2 = None
  ∧ ∀ d alpha beta m, 2 ≤ 2 → minimax d threeSides alpha beta m 2 = NaN.
Proof.
  apply (hardAI_outsider 2 2); [lia|apply reachable_threeSides|simpl; lia].
Defined.

(** ** The values of the search *)

Section LeafValues.

Lemma later_first (st st' leaf : GameState) (line : input) (p : num) :
  applyMove st line p = Some st' → later st' leaf → later st leaf.
Proof.
  intros Hmove. induction 1 as [|s s' line' p' s'' _ IH Hmove'].
  - eapply later_move; [apply later_now|done].
  - eapply later_move; [by apply IH|done].
Qed.

Lemma sumOthersFrom_total (i ai s : Z) (zs : list Z) :
  sumOthersFrom i ai (Int s) (ints zs)
  = Int (s + total zs
         - (if bool_decide (i ≤ ai)
            then default 0 (zs !! Z.to_nat (ai - i)) else 0)).
Proof.
  revert i s. induction zs as [|z zs IH]; intros i s.
  - simpl. f_equal. unfold total. simpl. case_bool_decide; lia.
  - change (sumOthersFrom i ai (Int s) (ints (z :: zs)))
      with (sumOthersFrom (i + 1) ai
              (if bool_decide (i ≠ ai) then Num.add (Int s) (Int z) else Int s)
              (ints zs)).
    change (total (z :: zs)) with (z + total zs).
    case_bool_decide as Hi; simpl; rewrite IH; f_equal.
    + repeat case_bool_decide; try lia.
      replace (Z.to_nat (ai - i)) with (S (Z.to_nat (ai - (i + 1)))) by lia.
      simpl. lia.
    + subst i.
      rewrite bool_decide_eq_false_2, bool_decide_eq_true_2 by lia.
      replace (Z.to_nat (ai - ai)) with 0%nat by lia. simpl. lia.
Qed.

Lemma total_ge_lookup (zs : list Z) (i : nat) (z : Z) :
  (∀ j v, zs !! j = Some v → 0 ≤ v) → zs !! i = Some z → 0 ≤ z ≤ total zs.
Proof.
  revert i. induction zs as [|a zs IH]; intros i Hpos Hi; [done|].
  change (total (a :: zs)) with (a + total zs).
  assert (0 ≤ a) by (by apply (Hpos 0%nat)).
  assert (0 ≤ total zs).
  { clear -Hpos. induction zs as [|b zs IH]; [done|].
    change (total (b :: zs)) with (b + total zs).
    assert (0 ≤ b) by (by apply (Hpos 1%nat)).
    assert (0 ≤ total zs); [|lia].
    apply IH. intros [|j] v Hv; [by apply (Hpos 0%nat)|].
    by apply (Hpos (S (S j))). }
  destruct i as [|i]; simpl in Hi.
  - injection Hi as ->. lia.
  - assert (0 ≤ z ≤ total zs); [|lia].
    apply (IH i); [|done]. intros j v Hv. by apply (Hpos (S j)).
Qed.

(** The leaf evaluation in a state of a game: the score of [ai] minus the
    scores of the others, within the number of boxes of the grid. *)
Lemma evaluate_bounded (g : Z) (n : nat) (st : GameState) (ai : Z) :
  1 ≤ g → wf g n st → tally g n st → 0 ≤ ai < Z.of_nat n →
  ∃ v, evaluate st ai = Int v ∧ - ((g - 1) * (g - 1)) ≤ v ≤ (g - 1) * (g - 1).
Proof.
  intros Hg Hwf Ht Hai.
  pose proof (wf_size_boxes g n st Hg Hwf) as Hsize.
  destruct (wf_scores _ _ _ Hwf) as (zs & Hzs & Hlen & Htot).
  assert (∀ j v, zs !! j = Some v → 0 ≤ v) as Hpos.
  { intros j v Hv.
    pose proof (lookup_lt_Some _ _ _ Hv) as Hj.
    pose proof (tally_scores _ _ _ Ht (Z.of_nat j) ltac:(lia)) as Hread.
    rewrite Hzs, readAt_ints, Nat2Z.id, Hv in Hread by lia.
    injection Hread as ->. lia. }
  destruct (zs !! Z.to_nat ai) as [z|] eqn:Hz.
  2: { apply lookup_ge_None in Hz. lia. }
  pose proof (total_ge_lookup zs _ z Hpos Hz) as Hzt.
  unfold evaluate. rewrite Hzs, readAt_ints, Hz, sumOthersFrom_total by lia.
  rewrite bool_decide_eq_true_2, Z.sub_0_r, Hz by lia. simpl.
  eexists. split; [done|]. lia.
Qed.

Section LoopsAmong.

Variable recur : GameState → num → num → bool → num.
Variable st : GameState.
Variable ai : Z.
Variable Q : num → Prop.
Hypothesis Q_Int : ∀ v, Q v → ∃ z, v = Int z.

Lemma maxLoop_among (avail : list Line) (alpha beta acc : num) :
  (∀ a, a ∈ avail →
     ∃ st', applyMove st (ofLine (normalizeLine a)) (currentPlayer st) = Some st'
            ∧ ∀ al be m, Q (recur st' al be m)) →
  (acc = NegInf ∧ avail ≠ [] ∨ Q acc) →
  Q (maxLoop recur st ai avail alpha beta acc).
Proof.
  revert alpha beta acc.
  induction avail as [|a rest IH]; intros alpha beta acc Hmoves Hacc.
  - destruct Hacc as [[_ ?]|?]; done.
  - simpl. destruct (Hmoves a) as (st' & -> & Hrec); [by left|].
    pose proof (Hrec alpha beta (Num.strictEq (currentPlayer st') (Int ai))) as Hr.
    assert (Q (Num.max acc (recur st' alpha beta
                 (Num.strictEq (currentPlayer st') (Int ai))))) as Hq.
    { destruct (Q_Int _ Hr) as (e & He). rewrite He in *.
      destruct Hacc as [[-> _]|Hacc]; [done|].
      destruct (Q_Int _ Hacc) as (b & ->). simpl. by case_bool_decide. }
    destruct (Num.le _ _); [done|].
    apply IH; [|by right].
    intros a' Ha'. apply Hmoves. by right.
Qed.

Lemma minLoop_among (avail : list Line) (alpha beta acc : num) :
  (∀ a, a ∈ avail →
     ∃ st', applyMove st (ofLine (normalizeLine a)) (currentPlayer st) = Some st'
            ∧ ∀ al be m, Q (recur st' al be m)) →
  (acc = PosInf ∧ avail ≠ [] ∨ Q acc) →
  Q (minLoop recur st ai avail alpha beta acc).
Proof.
  revert alpha beta acc.
  induction avail as [|a rest IH]; intros alpha beta acc Hmoves Hacc.
  - destruct Hacc as [[_ ?]|?]; done.
  - simpl. destruct (Hmoves a) as (st' & -> & Hrec); [by left|].
    pose proof (Hrec alpha beta (Num.strictEq (currentPlayer st') (Int ai))) as Hr.
    assert (Q (Num.min acc (recur st' alpha beta
                 (Num.strictEq (currentPlayer st') (Int ai))))) as Hq.
    { destruct (Q_Int _ Hr) as (e & He). rewrite He in *.
      destruct Hacc as [[-> _]|Hacc]; [done|].
      destruct (Q_Int _ Hacc) as (b & ->). simpl. by case_bool_decide. }
    destruct (Num.le _ _); [done|].
    apply IH; [|by right].
    intros a' Ha'. apply Hmoves. by right.
Qed.

End LoopsAmong.

(** The value of a search is the leaf evaluation of a position at most
    [d] moves further on. *)
Lemma minimax_leaf (g : Z) (n : nat) (ai : Z) (d : nat) (st : GameState)
    (alpha beta : num) (isMax : bool) :
  wf g n st → 0 ≤ ai < Z.of_nat n →
  ∃ leaf v,
    later st leaf
    ∧ (length (lines leaf) ≤ length (lines st) + d)%nat
    ∧ minimax d st alpha beta isMax ai = Int v
    ∧ evaluate leaf ai = Int v.
Proof.
  intros Hwf Hai. revert st alpha beta isMax Hwf.
  induction d as [|d IH]; intros st alpha beta isMax Hwf.
  { destruct (evaluate_Int g n st ai Hwf Hai) as (v & Hv).
    exists st, v. split_and!; [apply later_now|lia|done..]. }
  rewrite minimax_S.
  assert (∃ leaf v, later st leaf
    ∧ (length (lines leaf) ≤ length (lines st) + S d)%nat
    ∧ evaluate st ai = Int v ∧ evaluate leaf ai = Int v) as Hhere.
  { destruct (evaluate_Int g n st ai Hwf Hai) as (v & Hv).
    exists st, v. split_and!; [apply later_now|lia|done..]. }
  destruct (gameOver st) eqn:Hover; [done|].
  case_bool_decide as Hlen; [done|]. clear Hhere.
  assert (getAvailableLines st ≠ []) as Hne
    by (intros Heq; by rewrite Heq in Hlen).
  set (Q := λ v : num, ∃ leaf z, later st leaf
    ∧ (length (lines leaf) ≤ length (lines st) + S d)%nat
    ∧ v = Int z ∧ evaluate leaf ai = Int z).
  assert (∀ v, Q v → ∃ z, v = Int z) as HQ.
  { intros v (_ & z & _ & _ & -> & _). by eexists. }
  assert (∀ a, a ∈ getAvailableLines st →
    ∃ st', applyMove st (ofLine (normalizeLine a)) (currentPlayer st) = Some st'
           ∧ ∀ al be m, Q (minimax d st' al be m ai)) as Hmoves.
  { intros a Ha.
    pose proof (available_move g n st a Hwf Hover Ha) as Hmove.
    eexists. split; [done|]. intros al be m.
    destruct (IH (successor st a (currentPlayer st)) al be m)
      as (leaf & z & Hl & Hlen' & Hv & He); [by eapply wf_step|].
    exists leaf, z. split_and!; [by eapply later_first| |done..].
    rewrite lines_successor, length_app in Hlen'. simpl in Hlen'. lia. }
  destruct (_ || _).
  - by apply (maxLoop_among _ st ai Q HQ); [|left].
  - by apply (minLoop_among _ st ai Q HQ); [|left].
Qed.

End LeafValues.

(** X19.  For the index of a player, the value of [minimax] in a state
    of a game is an integer: the evaluation of a position that follows
    the state after at most [depth] moves, and it lies between minus and
    plus the number of boxes of the board. *)
Theorem minimax_value (g : Z) (n : nat) (st : GameState) (ai : Z) (d : nat)
    (alpha beta : num) (isMax : bool) :
  1 ≤ g → (1 ≤ n)%nat → reachable g n st → 0 ≤ ai < Z.of_nat n →
  ∃ leaf v,
    later st leaf
    ∧ (length (lines leaf) ≤ length (lines st) + d)%nat
    ∧ minimax d st alpha beta isMax ai = Int v
    ∧ evaluate leaf ai = Int v
    ∧ - ((g - 1) * (g - 1)) ≤ v ≤ (g - 1) * (g - 1).
Proof.
  intros Hg Hn Hr Hai. pose proof (reachable_wf g n st Hn Hr) as Hwf.
  destruct (minimax_leaf g n ai d st alpha beta isMax Hwf Hai)
    as (leaf & v & Hl & Hlen & Hv & He).
  exists leaf, v. do 4 (split; [done|]).
  pose proof (later_reachable g n st leaf Hr Hl) as Hr'.
  destruct (evaluate_bounded g n leaf ai Hg (reachable_wf g n leaf Hn Hr')
              (reachable_tally g n leaf Hn Hr') Hai) as (v' & Hv' & Hb).
  rewrite He in Hv'. by injection Hv' as <-.
Qed.

Lemma minimax_value_witness :
  ∃ leaf v,
    later board2 leaf
    ∧ (length (lines leaf) ≤ length (lines board2) + 4)%nat
    ∧ minimax 4 board2 NegInf PosInf false 1 = Int v
    ∧ evaluate leaf 1 = Int v
    ∧ - ((2 - 1) * (2 - 1)) ≤ v ≤ (2 - 1) * (2 - 1).
Proof.
  apply (minimax_value 2 2); [lia|lia|apply reachable_init|lia].
Defined.

(** ** Alpha-beta pruning *)

Ltac use_tests :=
  repeat match goal with
  | H : ?x = ?x → _ |- _ => specialize (H eq_refl)
  | H : true = false → _ |- _ => clear H
  | H : false = true → _ |- _ => clear H
  | H : _ ∧ _ |- _ => destruct H
  | H : Int _ = Int _ |- _ => injection H as H
  end.

Ltac num_cases :=
  unfold brackets in *; simpl in *;
  repeat (use_tests; try (exfalso; lia); case_bool_decide; simpl in * );
  use_tests; try done; try lia.

Section Pruning.

Lemma numMax_assoc (a b c : num) :
  Num.max (Num.max a b) c = Num.max a (Num.max b c).
Proof. destruct a, b, c; num_cases; f_equal; lia. Qed.

Lemma numMin_assoc (a b c : num) :
  Num.min (Num.min a b) c = Num.min a (Num.min b c).
Proof. destruct a, b, c; num_cases; f_equal; lia. Qed.

(** One iteration of the maximizing loop. *)
Lemma max_step (alpha beta E M0 : num) (r v : Z) :
  Num.lt (Num.max alpha E) beta = true →
  (E = NegInf ∧ M0 = NegInf)
  ∨ (∃ e m0, E = Int e ∧ M0 = Int m0
             ∧ (Num.le (Int e) alpha = true → m0 ≤ e)
             ∧ (Num.lt alpha (Int e) = true → m0 = e)) →
  brackets (Num.max alpha E) beta v r →
  ∃ e' m0',
    Num.max E (Int r) = Int e' ∧ Num.max M0 (Int v) = Int m0'
    ∧ Num.lt alpha beta = true
    ∧ if Num.le beta (Num.max alpha (Int e'))
      then Num.le beta (Int e') = true ∧ e' ≤ m0'
      else Num.lt (Num.max alpha (Int e')) beta = true
           ∧ (Num.le (Int e') alpha = true → m0' ≤ e')
           ∧ (Num.lt alpha (Int e') = true → m0' = e').
Proof.
  intros Hlt [[-> ->]|(e & m0 & -> & -> & H1 & H2)] Hb.
  - exists r, v. destruct alpha, beta; num_cases.
  - destruct (decide (e < r)), (decide (m0 < v));
      [exists r, v|exists r, m0|exists e, v|exists e, m0];
      destruct alpha, beta; num_cases; split_and?; try done; intros; lia.
Qed.

Lemma max_done (alpha beta : num) (e m0 : Z) :
  Num.lt (Num.max alpha (Int e)) beta = true →
  (Num.le (Int e) alpha = true → m0 ≤ e) →
  (Num.lt alpha (Int e) = true → m0 = e) →
  brackets alpha beta m0 e.
Proof. intros Hlt H1 H2. destruct alpha, beta; num_cases. Qed.

(** One iteration of the minimizing loop. *)
Lemma min_step (alpha beta E M0 : num) (r v : Z) :
  Num.lt alpha (Num.min beta E) = true →
  (E = PosInf ∧ M0 = PosInf)
  ∨ (∃ e m0, E = Int e ∧ M0 = Int m0
             ∧ (Num.le beta (Int e) = true → e ≤ m0)
             ∧ (Num.lt (Int e) beta = true → m0 = e)) →
  brackets alpha (Num.min beta E) v r →
  ∃ e' m0',
    Num.min E (Int r) = Int e' ∧ Num.min M0 (Int v) = Int m0'
    ∧ Num.lt alpha beta = true
    ∧ if Num.le (Num.min beta (Int e')) alpha
      then Num.le (Int e') alpha = true ∧ m0' ≤ e'
      else Num.lt alpha (Num.min beta (Int e')) = true
           ∧ (Num.le beta (Int e') = true → e' ≤ m0')
           ∧ (Num.lt (Int e') beta = true → m0' = e').
Proof.
  intros Hlt [[-> ->]|(e & m0 & -> & -> & H1 & H2)] Hb.
  - exists r, v. destruct alpha, beta; num_cases.
  - destruct (decide (r < e)), (decide (v < m0));
      [exists r, v|exists r, m0|exists e, v|exists e, m0];
      destruct alpha, beta; num_cases; split_and?; try done; intros; lia.
Qed.

Lemma min_done (alpha beta : num) (e m0 : Z) :
  Num.lt alpha (Num.min beta (Int e)) = true →
  (Num.le beta (Int e) = true → e ≤ m0) →
  (Num.lt (Int e) beta = true → m0 = e) →
  brackets alpha beta m0 e.
Proof. intros Hlt H1 H2. destruct alpha, beta; num_cases. Qed.

Section PrunedLoops.

Variable recur : GameState → num → num → bool → num.
Variable ex : GameState → num.
Variable st : GameState.
Variable ai : Z.

Lemma childValues_cons (a : Line) (avail : list Line) (st' : GameState) :
  applyMove st (ofLine (normalizeLine a)) (currentPlayer st) = Some st' →
  childValues ex st (a :: avail) = ex st' :: childValues ex st avail.
Proof. intros Ha. unfold childValues. simpl. by rewrite Ha. Qed.

Lemma childValues_max (avail : list Line) :
  (∀ a, a ∈ avail → childOK recur ex st ai a) →
  foldr Num.max NegInf (childValues ex st avail) = NegInf
  ∨ ∃ z, foldr Num.max NegInf (childValues ex st avail) = Int z.
Proof.
  induction avail as [|a avail IH]; intros Hok; [by left|].
  destruct (Hok a) as (st' & v & Ha & Hv & _); [by left|].
  rewrite (childValues_cons a avail st' Ha), Hv. simpl. right.
  destruct IH as [->|[z ->]]; [intros a' Ha'; apply Hok; by right| |].
  - by eexists.
  - simpl. case_bool_decide; by eexists.
Qed.

Lemma childValues_min (avail : list Line) :
  (∀ a, a ∈ avail → childOK recur ex st ai a) →
  foldr Num.min PosInf (childValues ex st avail) = PosInf
  ∨ ∃ z, foldr Num.min PosInf (childValues ex st avail) = Int z.
Proof.
  induction avail as [|a avail IH]; intros Hok; [by left|].
  destruct (Hok a) as (st' & v & Ha & Hv & _); [by left|].
  rewrite (childValues_cons a avail st' Ha), Hv. simpl. right.
  destruct IH as [->|[z ->]]; [intros a' Ha'; apply Hok; by right| |].
  - by eexists.
  - simpl. case_bool_decide; by eexists.
Qed.

Lemma maxLoop_sound (avail : list Line) (alpha beta E M0 : num) :
  (∀ a, a ∈ avail → childOK recur ex st ai a) →
  Num.lt (Num.max alpha E) beta = true →
  (E = NegInf ∧ M0 = NegInf ∧ avail ≠ [])
  ∨ (∃ e m0, E = Int e ∧ M0 = Int m0
             ∧ (Num.le (Int e) alpha = true → m0 ≤ e)
             ∧ (Num.lt alpha (Int e) = true → m0 = e)) →
  ∃ r v,
    maxLoop recur st ai avail (Num.max alpha E) beta E = Int r
    ∧ Num.max M0 (foldr Num.max NegInf (childValues ex st avail)) = Int v
    ∧ brackets alpha beta v r.
Proof.
  revert E M0. induction avail as [|a avail IH]; intros E M0 Hok Hlt Hinv.
  - destruct Hinv as [(_ & _ & ?)|(e & m0 & -> & -> & H1 & H2)]; [done|].
    exists e, m0. split_and!; [done|done|]. by apply max_done.
  - destruct (Hok a) as (st' & v & Ha & Hv & Hrec); [by left|].
    destruct (Hrec _ _ Hlt) as (r & Hr & Hb).
    rewrite (childValues_cons a avail st' Ha), Hv.
    cbn [maxLoop foldr]. rewrite Ha, Hr.
    destruct (max_step alpha beta E M0 r v Hlt) as (e' & m0' & He & Hm & Hab & Hif);
      [destruct Hinv as [(? & ? & _)|?]; by eauto|done|].
    rewrite <-numMax_assoc, Hm, numMax_assoc, He.
    assert (∀ a', a' ∈ avail → childOK recur ex st ai a') as Hok'
      by (intros a' Ha'; apply Hok; by right).
    destruct (Num.le beta (Num.max alpha (Int e'))) eqn:Hbreak.
    + destruct Hif as [Hbe Hem].
      destruct (childValues_max avail Hok') as [->|[z ->]].
      * exists e', m0'. split_and!; [done|done|].
        destruct alpha, beta; num_cases.
      * exists e', (Z.max m0' z). split_and!; [done| |].
        { simpl. case_bool_decide; f_equal; lia. }
        destruct alpha, beta; num_cases.
    + destruct Hif as (Hlt' & H1' & H2').
      apply (IH (Int e') (Int m0')); [done|done|].
      right. by exists e', m0'.
Qed.

Lemma minLoop_sound (avail : list Line) (alpha beta E M0 : num) :
  (∀ a, a ∈ avail → childOK recur ex st ai a) →
  Num.lt alpha (Num.min beta E) = true →
  (E = PosInf ∧ M0 = PosInf ∧ avail ≠ [])
  ∨ (∃ e m0, E = Int e ∧ M0 = Int m0
             ∧ (Num.le beta (Int e) = true → e ≤ m0)
             ∧ (Num.lt (Int e) beta = true → m0 = e)) →
  ∃ r v,
    minLoop recur st ai avail alpha (Num.min beta E) E = Int r
    ∧ Num.min M0 (foldr Num.min PosInf (childValues ex st avail)) = Int v
    ∧ brackets alpha beta v r.
Proof.
  revert E M0. induction avail as [|a avail IH]; intros E M0 Hok Hlt Hinv.
  - destruct Hinv as [(_ & _ & ?)|(e & m0 & -> & -> & H1 & H2)]; [done|].
    exists e, m0. split_and!; [done|done|]. by apply min_done.
  - destruct (Hok a) as (st' & v & Ha & Hv & Hrec); [by left|].
    destruct (Hrec _ _ Hlt) as (r & Hr & Hb).
    rewrite (childValues_cons a avail st' Ha), Hv.
    cbn [minLoop foldr]. rewrite Ha, Hr.
    destruct (min_step alpha beta E M0 r v Hlt) as (e' & m0' & He & Hm & Hab & Hif);
      [destruct Hinv as [(? & ? & _)|?]; by eauto|done|].
    rewrite <-numMin_assoc, Hm, numMin_assoc, He.
    assert (∀ a', a' ∈ avail → childOK recur ex st ai a') as Hok'
      by (intros a' Ha'; apply Hok; by right).
    destruct (Num.le (Num.min beta (Int e')) alpha) eqn:Hbreak.
    + destruct Hif as [Hbe Hem].
      destruct (childValues_min avail Hok') as [->|[z ->]].
      * exists e', m0'. split_and!; [done|done|].
        destruct alpha, beta; num_cases.
      * exists e', (Z.min m0' z). split_and!; [done| |].
        { simpl. case_bool_decide; f_equal; lia. }
        destruct alpha, beta; num_cases.
    + destruct Hif as (Hlt' & H1' & H2').
      apply (IH (Int e') (Int m0')); [done|done|].
      right. by exists e', m0'.
Qed.

End PrunedLoops.

Lemma exhaustive_S (d : nat) (st : GameState) (isMax : bool) (ai : Z) :
  exhaustive (S d) st isMax ai =
  if gameOver st then evaluate st ai
  else if bool_decide (length (getAvailableLines st) = 0%nat)
  then evaluate st ai
  else if isMax || Num.strictEq (currentPlayer st) (Int ai)
  then foldr Num.max NegInf
         (childValues (λ st', exhaustive d st'
                         (Num.strictEq (currentPlayer st') (Int ai)) ai)
            st (getAvailableLines st))
  else foldr Num.min PosInf
         (childValues (λ st', exhaustive d st'
                         (Num.strictEq (currentPlayer st') (Int ai)) ai)
            st (getAvailableLines st)).
Proof. done. Qed.

Lemma brackets_refl (alpha beta : num) (v : Z) : brackets alpha beta v v.
Proof. unfold brackets. split_and!; intros; lia. Qed.

(** The pruned search brackets the value of the exhaustive one. *)
Lemma minimax_brackets (g : Z) (n : nat) (ai : Z) (d : nat) (st : GameState)
    (alpha beta : num) (isMax : bool) :
  wf g n st → 0 ≤ ai < Z.of_nat n → Num.lt alpha beta = true →
  ∃ v r, exhaustive d st isMax ai = Int v
         ∧ minimax d st alpha beta isMax ai = Int r
         ∧ brackets alpha beta v r.
Proof.
  intros Hwf Hai. revert st alpha beta isMax Hwf.
  induction d as [|d IH]; intros st alpha beta isMax Hwf Hlt.
  { destruct (evaluate_Int g n st ai Hwf Hai) as (v & Hv).
    exists v, v. split_and!; [done..|apply brackets_refl]. }
  rewrite minimax_S, exhaustive_S.
  assert (∃ v r, evaluate st ai = Int v ∧ evaluate st ai = Int r
                 ∧ brackets alpha beta v r) as Hhere.
  { destruct (evaluate_Int g n st ai Hwf Hai) as (v & Hv).
    exists v, v. split_and!; [done..|apply brackets_refl]. }
  destruct (gameOver st) eqn:Hover; [done|].
  case_bool_decide as Hlen; [done|]. clear Hhere.
  assert (getAvailableLines st ≠ []) as Hne
    by (intros Heq; by rewrite Heq in Hlen).
  set (ex := λ st', exhaustive d st' (Num.strictEq (currentPlayer st') (Int ai)) ai).
  assert (∀ a, a ∈ getAvailableLines st →
    childOK (λ s a b m, minimax d s a b m ai) ex st ai a) as Hok.
  { intros a Ha.
    pose proof (available_move g n st a Hwf Hover Ha) as Hmove.
    assert (wf g n (successor st a (currentPlayer st))) as Hwf'
      by by eapply wf_step.
    destruct (IH _ NegInf PosInf
                (Num.strictEq (currentPlayer (successor st a (currentPlayer st)))
                   (Int ai)) Hwf' eq_refl) as (v & _ & Hv & _).
    exists (successor st a (currentPlayer st)), v. split_and!; [done..|].
    intros al be Hl.
    destruct (IH _ al be
                (Num.strictEq (currentPlayer (successor st a (currentPlayer st)))
                   (Int ai)) Hwf' Hl) as (v' & r & Hv' & Hr & Hb).
    unfold ex in Hv. rewrite Hv in Hv'. injection Hv' as <-. by exists r. }
  assert (alpha ≠ NaN ∧ beta ≠ NaN) as [Ha Hb] by (by destruct alpha, beta).
  destruct (_ || _).
  - destruct (maxLoop_sound _ ex st ai (getAvailableLines st) alpha beta
                NegInf NegInf Hok) as (r & v & Hr & Hv & Hbr).
    + by destruct alpha, beta.
    + by left.
    + assert (Num.max alpha NegInf = alpha) as Hal by (by destruct alpha).
      rewrite Hal in Hr. exists v, r. split_and!; [|done..].
      destruct (childValues_max _ ex st ai _ Hok) as [Heq|[z Heq]];
        rewrite Heq in Hv |- *; done.
  - destruct (minLoop_sound _ ex st ai (getAvailableLines st) alpha beta
                PosInf PosInf Hok) as (r & v & Hr & Hv & Hbr).
    + by destruct alpha, beta.
    + by left.
    + assert (Num.min beta PosInf = beta) as Hbe by (by destruct beta).
      rewrite Hbe in Hr. exists v, r. split_and!; [|done..].
      destruct (childValues_min _ ex st ai _ Hok) as [Heq|[z Heq]];
        rewrite Heq in Hv |- *; done.
Qed.

End Pruning.

(** X20.  The pruning of [minimax] loses nothing.  With the window from
    [-Infinity] to [Infinity] the search returns the value of the search
    without pruning; with any window [alpha < beta] it returns that value
    when the result lies strictly inside the window, and otherwise a
    bound: a result at or below [alpha] is at least the value, a result at
    or above [beta] is at most the value.  The score [hardAI] gives to a
    move is therefore the unpruned value of the position after the
    move. *)
Theorem pruning_is_sound (g : Z) (n : nat) (st : GameState) (ai : Z) (d : nat)
    (isMax : bool) :
  (1 ≤ n)%nat → reachable g n st → 0 ≤ ai < Z.of_nat n →
  minimax d st NegInf PosInf isMax ai = exhaustive d st isMax ai
  ∧ (∀ alpha beta, Num.lt alpha beta = true →
       ∃ v r, exhaustive d st isMax ai = Int v
              ∧ minimax d st alpha beta isMax ai = Int r
              ∧ brackets alpha beta v r)
  ∧ (∀ a, a ∈ getAvailableLines st →
       childValue st ai a
       = exhaustive (maxDepthOf (getAvailableLines st) - 1)
           (successor st a (currentPlayer st)) false ai).
Proof.
  intros Hn Hr Hai. pose proof (reachable_wf g n st Hn Hr) as Hwf.
  assert (∀ d s m, wf g n s →
    minimax d s NegInf PosInf m ai = exhaustive d s m ai) as Hfull.
  { intros d' s m Hs.
    destruct (minimax_brackets g n ai d' s NegInf PosInf m Hs Hai eq_refl)
      as (v & r & -> & -> & _ & _ & H3). f_equal. symmetry. by apply H3. }
  split_and!.
  - by apply Hfull.
  - intros alpha beta Hlt. by apply (minimax_brackets g n).
  - intros a Ha. unfold childValue. apply Hfull.
    pose proof (reachable_not_over g n st a Hn Hr Ha) as Hover.
    eapply wf_step; [done|]. by eapply available_move.
Qed.

Lemma pruning_is_sound_witness :
  minimax 4 board2 NegInf PosInf false 0 = exhaustive 4 board2 false 0
  ∧ (∀ alpha beta, Num.lt alpha beta = true →
       ∃ v r, exhaustive 4 board2 false 0 = Int v
              ∧ minimax 4 board2 alpha beta false 0 = Int r
              ∧ brackets alpha beta v r)
  ∧ (∀ a, a ∈ getAvailableLines board2 →
       childValue board2 0 a
       = exhaustive (maxDepthOf (getAvailableLines board2) - 1)
           (successor board2 a (currentPlayer board2)) false 0).
Proof.
  apply (pruning_is_sound 2 2); [lia|apply reachable_init|lia].
Defined.

(** ** The hook of the computer player and the move handler *)

Section Hook.

Lemma considerMove_fold_keeps (st : GameState) (D : nat) (ai : Z)
    (l : list Line) (best : num * option Line) :
  is_Some best.2 → is_Some (foldl (considerMove st D ai) best l).2.
Proof.
  revert best. induction l as [|a l IH]; intros best Hbest; [done|].
  simpl. apply IH. unfold considerMove.
  destruct (applyMove _ _ _); [|done]. by destruct (Num.gt _ _).
Qed.

(** [hardAI] answers with a move whenever an edge is left in a state of a
    game and [ai] is one of the players. *)
Lemma hardAI_returns (g : Z) (n : nat) (st : GameState) (ai : Z) :
  wf g n st → gameOver st = false → 0 ≤ ai < Z.of_nat n →
  getAvailableLines st ≠ [] → is_Some (hardAI st ai).
Proof.
  intros Hwf Hover Hai Hne. unfold hardAI.
  rewrite nonempty_length by done.
  destruct (getAvailableLines st) as [|a l] eqn:Hl; [done|].
  cbn [foldl]. apply considerMove_fold_keeps.
  assert (a ∈ getAvailableLines st) as Ha by (rewrite Hl; by left).
  pose proof (available_move g n st a Hwf Hover Ha) as Hmove.
  unfold considerMove. rewrite Hmove.
  destruct (minimax_Int g n ai (maxDepthOf (a :: l) - 1)
              (successor st a (currentPlayer st)) NegInf PosInf false)
    as (v & ->); [by eapply wf_step|done|]. done.
Qed.

Lemma makeLocalMove_started (st : GameState) (line : Line) (p : num) :
  started (makeLocalMove st line p).2 = started st.
Proof.
  unfold makeLocalMove.
  destruct (applyMove _ _ _) as [st'|] eqn:Hmove; [|done]. simpl.
  apply applyMove_Some in Hmove as (l & _ & _ & _ & _ & _ & ->).
  by destruct (successor_spec st (normalizeLine l) p) as (b' & m & -> & _).
Qed.

Lemma hookState_started (st : GameState) : hookState st → started st = false.
Proof.
  induction 1 as [| st line p _ IH |]; [done| |done].
  by rewrite makeLocalMove_started.
Qed.

End Hook.

(** X21.  Whatever the difficulty, the random source and the index of
    the computer player, a move [computeMove] hands to [onMove] in a state
    of a game is an available edge, [applyMove] accepts it for the current
    player, and [aiMoveHandler] applies it; with no edge available
    [computeMove] finds no move. *)
Theorem computeMove_legal (rnd : nat → nat) (g : Z) (n : nat)
    (st : GameState) (ai : Z) (difficulty : AIDifficulty) :
  (1 ≤ n)%nat → reachable g n st →
  (∀ mv, computeMove rnd difficulty st ai = Some mv →
     mv ∈ getAvailableLines st
     ∧ ∃ st', applyMove st (ofLine (normalizeLine mv)) (currentPlayer st)
              = Some st'
              ∧ aiMoveHandler st mv = (true, st'))
  ∧ (getAvailableLines st = [] → computeMove rnd difficulty st ai = None).
Proof.
  intros Hn Hr. pose proof (reachable_wf g n st Hn Hr) as Hwf. split.
  - intros mv Hmv.
    assert (mv ∈ getAvailableLines st) as Hin.
    { destruct difficulty; simpl in Hmv.
      - unfold easyAI in Hmv. case_bool_decide; [done|].
        by eapply list_elem_of_lookup_2.
      - unfold mediumAI in Hmv. case_bool_decide; [done|].
        destruct (find _ _) as [a|] eqn:Hfind.
        + injection Hmv as <-.
          by apply find_some in Hfind as [Hin%list_elem_of_In _].
        + case_bool_decide.
          * apply list_elem_of_lookup_2, list_elem_of_In, filter_In in Hmv
              as [Hmv _]. by apply list_elem_of_In.
          * by eapply list_elem_of_lookup_2.
      - unfold hardAI in Hmv. case_bool_decide; [done|].
        destruct (considerMove_fold_legal st
                    (maxDepthOf (getAvailableLines st)) ai
                    (getAvailableLines st) (getAvailableLines st) (NegInf, None))
          with (mv := mv) as [Hin _]; done. }
    split; [done|].
    pose proof (reachable_not_over g n st mv Hn Hr Hin) as Hover.
    pose proof (available_move g n st mv Hwf Hover Hin) as Hmove.
    eexists. split; [done|].
    unfold aiMoveHandler, makeLocalMove.
    by rewrite !normalizeLine_idemp, Hmove.
  - intros Hnil. destruct difficulty; simpl.
    + unfold easyAI. by rewrite Hnil.
    + unfold mediumAI. by rewrite Hnil.
    + unfold hardAI. by rewrite Hnil.
Qed.

Lemma computeMove_legal_witness :
  (∀ mv, computeMove (λ _, 0%nat) medium threeSides 1 = Some mv →
     mv ∈ getAvailableLines threeSides
     ∧ ∃ st', applyMove threeSides (ofLine (normalizeLine mv))
                (currentPlayer threeSides) = Some st'
              ∧ aiMoveHandler threeSides mv = (true, st'))
  ∧ (getAvailableLines threeSides = [] →
     computeMove (λ _, 0%nat) medium threeSides 1 = None).
Proof. apply (computeMove_legal _ 2 2); [lia|apply reachable_threeSides]. Defined.

(** X22.  A state that the [useGameState] hook has built with
    [createInitialState], [makeLocalMove] and [resetGame] has its
    [started] flag unset, so the effect of [useAI] returns at its fourth
    guard and does not schedule [computeMove], whatever [enabled] and the
    index of the computer player are. *)
Theorem local_ai_never_scheduled (st : GameState) (enabled : bool) (ai : Z) :
  hookState st →
  started st = false ∧ aiScheduled enabled st ai = false.
Proof.
  intros Hst%hookState_started. split; [done|].
  unfold aiScheduled. rewrite Hst.
  destruct enabled; [simpl|done]. destruct (gameOver st); [done|].
  by destruct (Num.strictEq (currentPlayer st) (Int ai)).
Qed.

Lemma local_ai_never_scheduled_witness :
  started (makeLocalMove board3 (0, 0, 1, 0) (Int 0)).2 = false
  ∧ aiScheduled true (makeLocalMove board3 (0, 0, 1, 0) (Int 0)).2 1 = false.
Proof.
  apply local_ai_never_scheduled. apply hook_move, hook_init.
Defined.

(** X23.  When the effect of [useAI] does schedule [computeMove], in a
    state of a game on a grid of at least two dots and with a random
    source that stays in range, [computeMove] finds a move and
    [aiMoveHandler] applies it: the new state is a state of the game with
    one more drawn edge. *)
Theorem useAI_move_accepted (rnd : nat → nat) (g : Z) (n : nat)
    (st : GameState) (ai : Z) (difficulty : AIDifficulty) :
  2 ≤ g → (1 ≤ n)%nat → reachable g n st →
  (∀ k, (0 < k)%nat → (rnd k < k)%nat) →
  aiScheduled true st ai = true →
  ∃ mv st',
    computeMove rnd difficulty st ai = Some mv
    ∧ aiMoveHandler st mv = (true, st')
    ∧ reachable g n st'
    ∧ length (lines st') = S (length (lines st)).
Proof.
  intros Hg Hn Hr Hrnd Hguard.
  pose proof (reachable_wf g n st Hn Hr) as Hwf.
  unfold aiScheduled in Hguard. simpl in Hguard.
  destruct (gameOver st) eqn:Hover; [done|].
  destruct (Num.strictEq _ _) eqn:Hturn; [|done]. clear Hguard.
  assert (0 ≤ ai < Z.of_nat n) as Hai.
  { destruct (wf_current _ _ _ Hwf) as (c & Hc & Hcn). rewrite Hc in Hturn.
    apply bool_decide_eq_true in Hturn. by subst. }
  assert (getAvailableLines st ≠ []) as Hne.
  { intros Heq. rewrite (settled_over g n st) in Hover; [done|lia|done| |done].
    by apply (reachable_gameOver g n). }
  assert (∃ mv, computeMove rnd difficulty st ai = Some mv
                ∧ mv ∈ getAvailableLines st) as (mv & Hmv & Hin).
  { destruct difficulty; simpl.
    - unfold easyAI. rewrite nonempty_length by done.
      destruct (getAvailableLines st !! rnd (length (getAvailableLines st)))
        as [mv|] eqn:Hmv.
      + exists mv. split; [done|]. by eapply list_elem_of_lookup_2.
      + apply lookup_ge_None in Hmv.
        assert (0 < length (getAvailableLines st))%nat
          by (destruct (getAvailableLines st); [done|simpl; lia]).
        pose proof (Hrnd _ H). lia.
    - destruct (mediumAI_returns rnd st Hrnd Hne) as (mv & Hmv).
      exists mv. split; [done|].
      unfold mediumAI in Hmv. rewrite nonempty_length in Hmv by done.
      destruct (find _ _) as [a|] eqn:Hfind.
      + injection Hmv as <-.
        by apply find_some in Hfind as [Hin%list_elem_of_In _].
      + case_bool_decide.
        * apply list_elem_of_lookup_2, list_elem_of_In, filter_In in Hmv
            as [Hmv _]. by apply list_elem_of_In.
        * by eapply list_elem_of_lookup_2.
    - destruct (hardAI_returns g n st ai Hwf Hover Hai Hne) as (mv & Hmv).
      exists mv. split; [done|].
      unfold hardAI in Hmv. rewrite nonempty_length in Hmv by done.
      destruct (considerMove_fold_legal st (maxDepthOf (getAvailableLines st)) ai
                  (getAvailableLines st) (getAvailableLines st) (NegInf, None))
        with (mv := mv) as [Hin _]; done. }
  pose proof (available_move g n st mv Hwf Hover Hin) as Hmove.
  exists mv, (successor st mv (currentPlayer st)).
  split_and!; [done| | |].
  - unfold aiMoveHandler, makeLocalMove.
    by rewrite !normalizeLine_idemp, Hmove.
  - by eapply reachable_move.
  - rewrite lines_successor, length_app. simpl. lia.
Qed.

Lemma reachable_started : reachable 2 2 (withStarted true board2).
Proof. apply reachable_start, reachable_init. Defined.

Lemma useAI_move_accepted_witness :
  ∃ mv st',
    computeMove (λ _, 0%nat) hard (withStarted true board2) 0 = Some mv
    ∧ aiMoveHandler (withStarted true board2) mv = (true, st')
    ∧ reachable 2 2 st'
    ∧ length (lines st') = S (length (lines (withStarted true board2))).
Proof.
  apply (useAI_move_accepted _ 2 2);
    [lia|lia|apply reachable_started|intros k Hk; exact Hk|reflexivity].
Defined.

(** ** The move handler *)

Section Handler.

Lemma makeMove_inr (st : GameState) (line : input) (i : Z) (st' : GameState) :
  makeMove st line i = inr st' ↔
  started st = true ∧ i ≠ -1 ∧ applyMove st line (Int i) = Some st'.
Proof.
  unfold makeMove.
  destruct (isValidLine line (gridSize st)) eqn:Hv; simpl.
  2: { split; [done|]. intros (_ & _ & Hm).
       rewrite applyMove_unfold, Hv in Hm. done. }
  destruct (started st); simpl; [|split; [done|by intros [? _]]].
  destruct (gameOver st) eqn:Hover.
  { split; [done|]. intros (_ & _ & Hm).
    rewrite applyMove_unfold, Hv, Hover in Hm. done. }
  case_bool_decide as Hi; [split; [done|by intros (_ & ? & _)]|].
  destruct (Num.strictEq (currentPlayer st) (Int i)) eqn:Hturn; simpl.
  2: { split; [done|]. intros (_ & _ & Hm).
       rewrite applyMove_unfold, Hv, Hover, Hturn in Hm. done. }
  destruct (asLine line) as [l|] eqn:Hl.
  2: { split; [done|]. intros (_ & _ & Hm).
       rewrite applyMove_unfold, Hv, Hover, Hturn, Hl in Hm. done. }
  assert (applyMove st (ofLine (normalizeLine l)) (Int i) = applyMove st line (Int i))
    as ->.
  { rewrite !applyMove_unfold, isValidLine_normalizeLine, asLine_ofLine,
      normalizeLine_idemp, Hl, Hv.
    assert (isValidLine (ofLine l) (gridSize st) = true) as ->; [|done].
    destruct line as [vs|]; [|done].
    by destruct vs as [|[x1|] [|[y1|] [|[x2|] [|[y2|] [|? ?]]]]];
      simplify_eq/=. }
  destruct (applyMove st line (Int i)); split; try done.
  - by intros [= ->].
  - by intros (_ & _ & [= ->]).
  - by intros (_ & _ & ?).
Qed.

End Handler.



(** ** The edge lookup of the board *)

Section BoardKeys.

Lemma takenKey_inj (l l' : Line) : Board.takenKey l = Board.takenKey l' → l = l'.
Proof.
  destruct l as [[[a b] c] d], l' as [[[a' b'] c'] d']. unfold Board.takenKey.
  simpl. intros Heq.
  apply lacks_split in Heq as [Ha Heq]; [|apply pretty_lacks_comma..].
  apply lacks_split in Heq as [Hb Heq]; [|apply pretty_lacks_comma..].
  apply lacks_split in Heq as [Hc Hd]; [|apply pretty_lacks_comma..].
  apply (inj pretty) in Ha, Hb, Hc, Hd. by subst.
Qed.

End BoardKeys.

(** X30.  The board component looks edges up in its own set of keys,
    built from [lines]; in every state of a game this lookup agrees with
    [isLineTaken] of the rules, and [isLastLine] is [isSameLine] with the
    last line when there is one. *)
Theorem board_agrees (g : Z) (n : nat) (st : GameState) (line : Line)
    (lastLine : option Line) :
  (1 ≤ n)%nat → reachable g n st →
  Board.isLineTaken (Board.takenSet (lines st)) line
  = isLineTaken (lineSet st) line
  ∧ Board.isLastLine lastLine line
    = match lastLine with
      | Some l => isSameLine line l
      | None => false
      end.
Proof.
  intros Hn Hr. pose proof (reachable_wf g n st Hn Hr) as Hwf. split.
  - unfold Board.isLineTaken, Board.takenSet, isLineTaken.
    rewrite (wf_lineSet _ _ _ Hwf). apply eq_true_iff_eq.
    rewrite !bool_decide_eq_true, elem_of_list_to_set, !list_elem_of_fmap.
    split.
    + intros (l & Heq%takenKey_inj & Hl). exists (normalizeLine line).
      rewrite lineToKey_normalizeLine. split; [done|]. by rewrite Heq.
    + intros (l & Hk%lineToKey_inj_all & Hl). exists l. split; [|done].
      by rewrite Hk, (allLines_normal g l (wf_lines _ _ _ Hwf l Hl)).
  - destruct lastLine as [l|]; [|done]. simpl. unfold isSameLine.
    by rewrite !lineToKey_normalizeLine.
Qed.

Lemma board_agrees_witness :
  Board.isLineTaken (Board.takenSet (lines threeSides)) (1, 1, 0, 1)
  = isLineTaken (lineSet threeSides) (1, 1, 0, 1)
  ∧ Board.isLastLine (Some (0, 0, 1, 0)) (1, 1, 0, 1)
    = match Some (0, 0, 1, 0) with
      | Some l => isSameLine (1, 1, 0, 1) l
      | None => false
      end.
Proof.
  apply (board_agrees 2 2); [lia|apply reachable_threeSides].
Defined.

(** ** The rate limiter and the rooms *)

Section RateLimit.

Lemma limitOf_positive (e : string) (maxE W : Z) :
  limitOf e = Some (maxE, W) → 0 < maxE ∧ 0 < W.
Proof.
  unfold limitOf, RATE_LIMIT_MOVES_PER_SECOND, RATE_LIMIT_ROOMS_PER_MINUTE.
  repeat case_bool_decide; intros [= <- <-]; lia.
Qed.

Lemma bucketsOK_empty : bucketsOK ∅.
Proof. intros s e em bk Hs. by rewrite lookup_empty in Hs. Qed.

Lemma bucketsOK_cleanup (b : gmap string (gmap string RateBucket)) (s : string) :
  bucketsOK b → bucketsOK (cleanupRateLimit b s).
Proof.
  intros Hok s' e em bk Hs. unfold cleanupRateLimit in Hs.
  apply lookup_delete_Some in Hs as [_ Hs]. by apply (Hok s').
Qed.

(** One call, seen from the bucket it reads. *)
Lemma checkRateLimit_bucket (b : gmap string (gmap string RateBucket))
    (s e : string) (now maxE W : Z) :
  limitOf e = Some (maxE, W) → bucketsOK b →
  let kept := List.filter (λ t, bool_decide (now - t < W)) (bucketOf b s e) in
  checkRateLimit b s e now
  = (negb (bool_decide (Z.of_nat (length kept) >= maxE)),
     (checkRateLimit b s e now).2)
  ∧ bucketOf (checkRateLimit b s e now).2 s e
    = (if bool_decide (Z.of_nat (length kept) >= maxE)
       then kept else kept ++ [now])
  ∧ bucketsOK (checkRateLimit b s e now).2.
Proof.
  intros Hlim Hok. unfold checkRateLimit, getBucket, bucketOf. rewrite Hlim.
  rewrite lookup_insert_eq. simpl.
  set (em := default ∅ (b !! s)).
  assert (b !! s ≫= (λ eventMap, eventMap !! e) = em !! e) as Hem.
  { unfold em. destruct (b !! s); [done|]. simpl. by rewrite lookup_empty. }
  rewrite Hem.
  set (bucket := default {| timestamps := []; windowMs := W; maxEvents := maxE |}
                         (em !! e)).
  assert (windowMs bucket = W ∧ maxEvents bucket = maxE
          ∧ timestamps bucket
            = match em !! e with Some bk => timestamps bk | None => [] end)
    as (HW & HM & HT).
  { unfold bucket. destruct (em !! e) as [bk|] eqn:Hbk; [|done]. simpl.
    unfold em in Hbk. destruct (b !! s) as [em'|] eqn:Hs; [|done].
    pose proof (Hok s e em' bk Hs Hbk) as Hl. rewrite Hlim in Hl.
    by injection Hl as -> ->. }
  rewrite HW, HM, HT.
  set (kept := List.filter _ _).
  assert (∀ bk' : RateBucket,
    windowMs bk' = W → maxEvents bk' = maxE →
    bucketsOK (<[s := <[e := bk']> (<[e := bucket]> em)]>
                 (<[s := <[e := bucket]> em]> b))) as Hok'.
  { intros bk' HW' HM' s' e' em' bk Hs' He'.
    destruct (decide (s' = s)) as [->|Hne].
    - rewrite lookup_insert_eq in Hs'. injection Hs' as <-.
      destruct (decide (e' = e)) as [->|Hne'].
      + rewrite lookup_insert_eq in He'. injection He' as <-.
        by rewrite HW', HM'.
      + rewrite !lookup_insert_ne in He' by done.
        unfold em in He'. destruct (b !! s) as [em0|] eqn:Hs; [|done].
        by apply (Hok s e' em0).
    - rewrite !lookup_insert_ne in Hs' by done. by apply (Hok s' e' em'). }
  case_bool_decide; simpl.
  - split_and!; [done| |by apply Hok'].
    by rewrite lookup_insert_eq; simpl; rewrite lookup_insert_eq.
  - split_and!; [done| |by apply Hok'].
    by rewrite lookup_insert_eq; simpl; rewrite lookup_insert_eq.
Qed.

Lemma filter_length_le {A} (f h : A → bool) (l : list A) :
  (∀ a, a ∈ l → f a = true → h a = true) →
  (length (List.filter f l) ≤ length (List.filter h l))%nat.
Proof.
  induction l as [|a l IH]; intros Himp; [done|]. simpl.
  assert (length (List.filter f l) ≤ length (List.filter h l))%nat as Hle.
  { apply IH. intros a' Ha'. apply Himp. by right. }
  destruct (f a) eqn:Hf.
  - rewrite (Himp a) by (done || by left). simpl. lia.
  - destruct (h a); simpl; lia.
Qed.

Lemma filter_filter_weaker {A} (f h : A → bool) (l : list A) :
  (∀ a, f a = true → h a = true) →
  List.filter f (List.filter h l) = List.filter f l.
Proof.
  intros Himp. induction l as [|a l IH]; [done|]. simpl.
  destruct (h a) eqn:Hh; simpl.
  - by rewrite IH.
  - destruct (f a) eqn:Hf; [|done]. by rewrite (Himp a Hf) in Hh.
Qed.

(** The sliding window, over a series of calls: [acc] are the calls
    allowed so far, none later than [lo], and the bucket holds those of
    them that the window of a call at [lo] keeps. *)
Lemma allowedCalls_window (e s : string) (maxE W : Z) (nows : list Z) :
  limitOf e = Some (maxE, W) →
  ∀ (b : gmap string (gmap string RateBucket)) (lo : Z) (acc : list Z),
    bucketsOK b → Sorted Z.le nows → Forall (λ t, lo ≤ t) nows →
    Forall (λ a, a ≤ lo) acc →
    bucketOf b s e = List.filter (λ a, bool_decide (lo - a < W)) acc →
    (∀ t, Z.of_nat (length (List.filter
                              (λ a, bool_decide (t - W < a ∧ a ≤ t)) acc))
          ≤ maxE) →
    ∀ t, Z.of_nat (length (List.filter
                             (λ a, bool_decide (t - W < a ∧ a ≤ t))
                             (acc ++ allowedCalls b s e nows)))
         ≤ maxE.
Proof.
  intros Hlim. pose proof (limitOf_positive e maxE W Hlim) as [HM HW].
  induction nows as [|now rest IH]; intros b lo acc Hok Hsort Hlo Hacc Hbk Hwin t.
  { simpl. rewrite app_nil_r. apply Hwin. }
  apply Sorted_StronglySorted in Hsort; [|intros x y z; lia].
  apply StronglySorted_inv in Hsort as [Hsort Hrest].
  apply StronglySorted_Sorted in Hsort.
  apply Forall_cons in Hlo as [Hnow _].
  destruct (checkRateLimit_bucket b s e now maxE W Hlim Hok)
    as (Hres & Hbk' & Hok').
  assert (List.filter (λ t, bool_decide (now - t < W)) (bucketOf b s e)
          = List.filter (λ a, bool_decide (now - a < W)) acc) as Hkept.
  { rewrite Hbk. apply filter_filter_weaker.
    intros a Ha%bool_decide_eq_true. apply bool_decide_eq_true. lia. }
  cbv zeta in Hres, Hbk'. rewrite Hkept in Hres, Hbk'.
  cbn [allowedCalls]. rewrite Hres.
  set (kept := List.filter (λ a, bool_decide (now - a < W)) acc) in *.
  case_bool_decide as Hfull; simpl.
  - apply (IH _ now acc); try done.
    eapply Forall_impl; [done|]. simpl. intros; lia.
  - rewrite cons_middle, (assoc_L (++) acc [now]).
    apply (IH _ now (acc ++ [now])); try done.
    + apply Forall_app. split; [|by repeat constructor].
      eapply Forall_impl; [done|]. simpl. intros; lia.
    + rewrite List.filter_app. simpl.
      by rewrite bool_decide_eq_true_2 by lia.
    + intros t'. destruct (decide (t' < now)) as [Hlt|Hge].
      * rewrite List.filter_app. simpl.
        rewrite bool_decide_eq_false_2 by lia. rewrite app_nil_r. apply Hwin.
      * etrans.
        { apply Nat2Z.inj_le.
          apply (filter_length_le _ (λ a, bool_decide (now - a < W))).
          intros a Ha [? ?]%bool_decide_eq_true. apply bool_decide_eq_true.
          apply elem_of_app in Ha as [Ha| ->%list_elem_of_singleton]; [|lia].
          lia. }
        rewrite List.filter_app, length_app. simpl.
        rewrite bool_decide_eq_true_2 by lia. simpl. fold kept. lia.
Qed.

End RateLimit.

(** X28.  The rate limiter keeps its promise for every window: when a
    socket calls [checkRateLimit] for a limited event at non-decreasing
    times, starting from an empty bucket, then among the calls it allows
    at most [maxEvents] fall into any interval of [windowMs]
    milliseconds. *)
Theorem rate_limit_window (b : gmap string (gmap string RateBucket))
    (s e : string) (maxE W : Z)
    (nows : list Z) (t : Z) :
  limitOf e = Some (maxE, W) → bucketsOK b → bucketOf b s e = [] →
  Sorted Z.le nows →
  Z.of_nat (length (List.filter (λ a, bool_decide (t - W < a ∧ a ≤ t))
                                (allowedCalls b s e nows)))
  ≤ maxE.
Proof.
  intros Hlim Hok Hempty Hsort.
  pose proof (limitOf_positive e maxE W Hlim) as [HM HW].
  apply (allowedCalls_window e s maxE W nows Hlim b (hd 0 nows) []); try done.
  - destruct nows as [|now rest]; [done|]. simpl.
    apply Sorted_StronglySorted in Hsort; [|intros x y z; lia].
    apply StronglySorted_inv in Hsort as [_ Hrest].
    constructor; [lia|done].
  - intros t'. simpl. lia.
Qed.

Lemma rate_limit_window_witness :
  Z.of_nat (length (List.filter (λ a, bool_decide (1000 - 1000 < a ∧ a ≤ 1000))
                      (allowedCalls ∅ "s1" "makeMove"
                         [10; 20; 30; 40; 50; 60; 1000])))
  ≤ RATE_LIMIT_MOVES_PER_SECOND.
Proof.
  apply (rate_limit_window ∅ "s1" "makeMove" RATE_LIMIT_MOVES_PER_SECOND 1000);
    [reflexivity|apply bucketsOK_empty|reflexivity|].
  repeat constructor; lia.
Defined.

(** X29.  [checkRateLimit] allows every event that has no limit and
    leaves the buckets as they are; a call changes no bucket but the one
    of its socket and event; a refused call records no timestamp; the
    limits stored in the buckets stay those of the events;
    [cleanupRateLimit] empties the buckets of a socket, and the first
    limited call after it is allowed. *)
Theorem rate_limit_isolated (b : gmap string (gmap string RateBucket))
    (s e : string) (now : Z) :
  (limitOf e = None → checkRateLimit b s e now = (true, b))
  ∧ (∀ s' e', (s', e') ≠ (s, e) →
       bucketOf (checkRateLimit b s e now).2 s' e' = bucketOf b s' e')
  ∧ ((checkRateLimit b s e now).1 = false →
     ∀ t, t ∈ bucketOf (checkRateLimit b s e now).2 s e → t ∈ bucketOf b s e)
  ∧ (bucketsOK b → bucketsOK (checkRateLimit b s e now).2)
  ∧ (∀ e', bucketOf (cleanupRateLimit b s) s e' = [])
  ∧ (limitOf e ≠ None → bucketsOK b →
     (checkRateLimit (cleanupRateLimit b s) s e now).1 = true).
Proof.
  split_and!.
  - intros Hlim. unfold checkRateLimit. by rewrite Hlim.
  - intros s' e' Hne. unfold checkRateLimit.
    destruct (limitOf e) as [[maxE W]|]; [|done].
    unfold getBucket, bucketOf. simpl. rewrite lookup_insert_eq. simpl.
    assert (∀ bk bk' : RateBucket,
      (<[s := <[e := bk']> (<[e := bk]> (default ∅ (b !! s)))]>
         (<[s := <[e := bk]> (default ∅ (b !! s))]> b)) !! s'
      ≫= (λ eventMap, eventMap !! e')
      = b !! s' ≫= (λ eventMap, eventMap !! e')) as Hsame.
    { intros bk bk'. destruct (decide (s' = s)) as [->|Hs].
      - rewrite lookup_insert_eq. simpl.
        rewrite !lookup_insert_ne by congruence.
        destruct (b !! s); [done|]. simpl. by rewrite lookup_empty.
      - by rewrite !lookup_insert_ne by done. }
    case_bool_decide; simpl; by rewrite Hsame.
  - unfold checkRateLimit.
    destruct (limitOf e) as [[maxE W]|]; [|done].
    unfold getBucket, bucketOf. simpl. rewrite lookup_insert_eq. simpl.
    case_bool_decide; simpl; [|done]. intros _ t.
    rewrite lookup_insert_eq. simpl. rewrite lookup_insert_eq.
    cbn [timestamps].
    intros [Ht _]%list_elem_of_In%filter_In. apply list_elem_of_In in Ht.
    destruct (b !! s) as [em|]; simpl in *; [|by apply elem_of_nil in Ht].
    by destruct (em !! e).
  - intros Hok. destruct (limitOf e) as [[maxE W]|] eqn:Hlim.
    + by apply (checkRateLimit_bucket b s e now maxE W).
    + unfold checkRateLimit. by rewrite Hlim.
  - intros e'. unfold bucketOf, cleanupRateLimit. by rewrite lookup_delete_eq.
  - intros Hlim Hok. destruct (limitOf e) as [[maxE W]|] eqn:Hl; [|done].
    pose proof (limitOf_positive e maxE W Hl) as [HM HW].
    destruct (checkRateLimit_bucket (cleanupRateLimit b s) s e now maxE W Hl)
      as (-> & _); [by apply bucketsOK_cleanup|].
    simpl. unfold bucketOf, cleanupRateLimit. rewrite lookup_delete_eq. simpl.
    rewrite bool_decide_eq_false_2; [done|lia].
Qed.

Section Rooms.

Import Session.

Lemma findIndexFrom_spec (i : Z) (sid : string) (ps : list PlayerInfo) :
  (findIndexFrom i sid ps = -1 ∧ ∀ p, p ∈ ps → id p ≠ sid) ∨
  (∃ k p, findIndexFrom i sid ps = i + Z.of_nat k
          ∧ ps !! k = Some p ∧ id p = sid
          ∧ ∀ j q, (j < k)%nat → ps !! j = Some q → id q ≠ sid).
Proof.
  revert i. induction ps as [|p ps IH]; intros i.
  - left. split; [done|]. by intros p ?%elem_of_nil.
  - simpl. case_bool_decide as Hp.
    + right. exists 0%nat, p. split_and!; [lia|done|done|]. intros; lia.
    + destruct (IH (i + 1)) as [[Hn Hall]|(k & q & Hk & Hq & Hid & Hbefore)].
      * left. split; [done|]. intros q [->|?]%elem_of_cons; auto.
      * right. exists (S k), q. split_and!; [lia|done|done|].
        intros [|j] q' Hj Hq'; [by simplify_eq/=|].
        apply (Hbefore j); [lia|done].
Qed.

End Rooms.

(** X26.  A move through a room is accepted only from a player of the
    room: the index is that of the first player with the id of the socket,
    it is the current player of a started game, the new state is the one
    [applyMove] gives for this index, and the players and the creator of
    the room are unchanged.  A socket that is no player of the room is
    refused, never with [LINE_TAKEN]. *)
Theorem roomMove_seat (room : Session.Room) (socketId : string) (line : input) :
  (∀ room', Session.roomMove room socketId line = inr room' →
     ∃ i p,
       Session.players room !! i = Some p ∧ Session.id p = socketId
       ∧ (∀ j q, (j < i)%nat → Session.players room !! j = Some q →
                 Session.id q ≠ socketId)
       ∧ currentPlayer (Session.state room) = Int (Z.of_nat i)
       ∧ started (Session.state room) = true
       ∧ applyMove (Session.state room) line (Int (Z.of_nat i))
         = Some (Session.state room')
       ∧ Session.players room' = Session.players room
       ∧ Session.creator room' = Session.creator room)
  ∧ ((∀ p, p ∈ Session.players room → Session.id p ≠ socketId) →
     ∃ r, Session.roomMove room socketId line = inl r ∧ r ≠ LINE_TAKEN).
Proof.
  unfold Session.roomMove, Session.findIndex. split.
  - intros room'.
    destruct (makeMove _ _ _) as [r|st'] eqn:Hmove; [done|]. intros [= <-].
    apply makeMove_inr in Hmove as (Hs & Hi & Hm). simpl.
    destruct (findIndexFrom_spec 0 socketId (Session.players room))
      as [[Hn _]|(k & p & Hk & Hp & Hid & Hbefore)]; [done|].
    rewrite Hk in Hm. rewrite Z.add_0_l in Hm.
    exists k, p. split_and!; try done.
    apply applyMove_Some in Hm as (_ & _ & _ & _ & Hc & _).
    destruct (currentPlayer (Session.state room)); try done.
    simpl in Hc. apply bool_decide_eq_true in Hc. by subst.
  - intros Hout.
    destruct (findIndexFrom_spec 0 socketId (Session.players room))
      as [[-> _]|(k & p & _ & Hp%list_elem_of_lookup_2 & Hid & _)].
    2: { by destruct (Hout p Hp). }
    unfold makeMove.
    destruct (negb (isValidLine _ _)); [by eexists|].
    destruct (negb (started _)); [by eexists|].
    destruct (gameOver _); [by eexists|].
    rewrite bool_decide_eq_true_2 by done. by eexists.
Qed.

(** X27.  A room made by [createRoom] and filled by [joinRoom] holds the
    initial state of a valid grid size and player count, between one and
    [maxPlayers] players with distinct ids, and its creator is its first
    player.  When [startGame] succeeds on it, the caller is the creator,
    at least two players are present, and [joinRoom] refuses every later
    player with "Game already in progress." *)
Theorem lobby_invariant (room : Session.Room) :
  lobby room →
  (∃ g n,
     Session.state room = createInitialState g n
     ∧ isValidGridSize g = true ∧ isValidPlayerCount (Z.of_nat n) = true
     ∧ (1 ≤ length (Session.players room) ≤ n)%nat
     ∧ NoDup (Session.id <$> Session.players room)
     ∧ ∃ p, Session.players room !! 0%nat = Some p
            ∧ Session.creator room = Session.id p)
  ∧ (∀ rooms socketId roomId rooms',
       rooms !! roomId = Some room →
       Session.startGame rooms socketId roomId = (rooms', None) →
       socketId = Session.creator room
       ∧ (2 ≤ length (Session.players room))%nat
       ∧ ∀ playerInfo,
           Session.joinRoom rooms' roomId playerInfo
           = (rooms', Session.JoinError "Game already in progress.")).
Proof.
  intros Hl. split.
  - induction Hl as [rooms roomId now gs mp info
                    |rooms roomId info room rooms' room' _ IH Hroom Hjoin].
    + unfold Session.createRoom. simpl.
      set (g := match gs with
                | VInt z => if isValidGridSize z then z else Session.DEFAULT_GRID_SIZE
                | VOther => Session.DEFAULT_GRID_SIZE
                end).
      set (m := match mp with
                | VInt z => if isValidPlayerCount z then z else Session.DEFAULT_PLAYERS
                | VOther => Session.DEFAULT_PLAYERS
                end).
      assert (isValidGridSize g = true) as Hg.
      { unfold g. destruct gs as [z|]; [|done].
        by destruct (isValidGridSize z) eqn:Hz. }
      assert (isValidPlayerCount m = true) as Hm.
      { unfold m. destruct mp as [z|]; [|done].
        by destruct (isValidPlayerCount z) eqn:Hz. }
      assert (2 ≤ m ≤ 4) as Hm'.
      { unfold isValidPlayerCount, MIN_PLAYERS, MAX_PLAYERS in Hm.
        apply andb_true_iff in Hm as [?%bool_decide_eq_true ?%bool_decide_eq_true].
        lia. }
      exists g, (Z.to_nat m).
      split; [done|]. split; [done|].
      split; [by rewrite Z2Nat.id by lia|].
      split; [simpl; lia|].
      split; [|by exists info].
      simpl. repeat constructor. by intros ?%elem_of_nil.
    + destruct IH as (g & n & Hst & Hg & Hn & Hlen & Hnd & p & Hp & Hc).
      unfold Session.joinRoom in Hjoin. rewrite Hroom in Hjoin.
      destruct (started _); [done|].
      case_bool_decide as Hfull; [done|].
      destruct (existsb _ _) eqn:Hex.
      { injection Hjoin as _ <-. exists g, n.
        do 5 (split; [done|]). by exists p. }
      injection Hjoin as _ <-. simpl.
      rewrite Hst in Hfull. simpl in Hfull.
      exists g, n. do 3 (split; [done|]).
      split; [rewrite length_app; simpl; lia|].
      split; [|exists p; split; [by apply lookup_app_l_Some|done]].
      rewrite fmap_app. apply NoDup_app. split; [done|]. split.
      * intros k Hk ->%list_elem_of_singleton.
        apply list_elem_of_fmap in Hk as (q & Hq & Hin).
        assert (existsb (λ p0, bool_decide (Session.id p0 = Session.id info))
                  (Session.players room) = true) as Hex'; [|congruence].
        apply existsb_exists. exists q. split; [by apply list_elem_of_In|].
        by apply bool_decide_eq_true.
      * simpl. repeat constructor. by intros ?%elem_of_nil.
  - intros rooms socketId roomId rooms' Hroom Hstart.
    unfold Session.startGame in Hstart. rewrite Hroom in Hstart.
    case_bool_decide as Hc; simpl in Hstart; [|done].
    case_bool_decide as Hlen; [done|]. injection Hstart as <-.
    split_and!; [done|lia|]. intros info.
    unfold Session.joinRoom. by rewrite lookup_insert_eq.
Qed.

Lemma lobby_invariant_witness :
  let room :=
    (Session.createRoom ∅ "r" 0 (VInt 3) (VInt 2)
       (Session.mkPlayer "a" "Ann" "red" "x")).2 in
  (∃ g n,
     Session.state room = createInitialState g n
     ∧ isValidGridSize g = true ∧ isValidPlayerCount (Z.of_nat n) = true
     ∧ (1 ≤ length (Session.players room) ≤ n)%nat
     ∧ NoDup (Session.id <$> Session.players room)
     ∧ ∃ p, Session.players room !! 0%nat = Some p
            ∧ Session.creator room = Session.id p)
  ∧ (∀ rooms socketId roomId rooms',
       rooms !! roomId = Some room →
       Session.startGame rooms socketId roomId = (rooms', None) →
       socketId = Session.creator room
       ∧ (2 ≤ length (Session.players room))%nat
       ∧ ∀ playerInfo,
           Session.joinRoom rooms' roomId playerInfo
           = (rooms', Session.JoinError "Game already in progress.")).
Proof. apply lobby_invariant. apply lobby_create. Defined.
